(** * Creative Suite: history store, persistence protocol and autosave

    A shallow embedding of
      - [src/hooks/useAutoSave.ts]  (the hooks [useHistory] and [useAutoSave]),
      - [src/utils/fileUtils.ts]    ([fileToBase64], [dataUrlToFile],
        [audioBufferToWavBlob], [decodeAudioData]),
      - [src/components/PhotoEditor.tsx] ([getSerializableState],
        [handleAutoSave], [handleSaveProject], [handleLoadProject], the
        restore effect, and the handlers that change the history),
      - [src/components/VideoEditor.tsx] (save, load, automatic save, the
        video file and the presets),
    followed by the properties of the history store, of the save/load
    protocol, of the autosave scheduler and of the two editors.

    Conventions.  A React state cell is a field of a record and a state
    setter returns the record of the next render.  JavaScript numbers that
    hold indices are [Z] (the code can produce [-1]); the [limit] option is
    an integer or [Infinity].  [undefined] is [None].  A loop that would not
    terminate yields [None]. *)

From Stdlib Require Import ZArith Lia.
From Stdlib.Strings Require Import Ascii String Byte.
From stdpp Require Import base option list strings gmap.

Local Open Scope Z_scope.

(* ===================================================================== *)
(** * Part I: definitions                                                 *)
(* ===================================================================== *)

(** ** JavaScript array primitives used by the hooks *)

Module JsArray.

(** [a[i]]: [undefined] outside the array, also for a negative index. *)
Definition index {A} (a : list A) (i : Z) : option A :=
  if i <? 0 then None else a !! Z.to_nat i.

(** [a.slice(0, e)]: a negative [e] counts from the end of the array. *)
Definition slice0 {A} (a : list A) (e : Z) : list A :=
  if e <? 0
  then take (Z.to_nat (Z.max (Z.of_nat (length a) + e) 0)) a
  else take (Z.to_nat e) a.

(** [a.push(x)] *)
Definition push {A} (a : list A) (x : A) : list A := a ++ [x].

(** [a.length] *)
Definition len {A} (a : list A) : Z := Z.of_nat (length a).

End JsArray.

(** ** [JSON.stringify] on the values the editors store *)

Module Json.

Definition dquote : ascii := ascii_of_nat 34.

Definition hex_digit (n : nat) : ascii :=
  default "0"%char (String.get n "0123456789abcdef").

(** One character of a JSON string literal: the quote, the backslash and
    the control characters are escaped, the short escapes first. *)
Definition quote_char (c : ascii) : string :=
  let n := nat_of_ascii c in
  if (n =? 8)%nat then "\b"
  else if (n =? 9)%nat then "\t"
  else if (n =? 10)%nat then "\n"
  else if (n =? 12)%nat then "\f"
  else if (n =? 13)%nat then "\r"
  else if (n =? 34)%nat then String "\"%char (String dquote EmptyString)
  else if (n =? 92)%nat then "\\"
  else if (n <? 32)%nat
       then "\u00" +:+ String (hex_digit (n / 16)) (String (hex_digit (n mod 16)) EmptyString)
  else String c EmptyString.

Fixpoint quote_chars (s : string) : string :=
  match s with
  | EmptyString => EmptyString
  | String c rest => quote_char c +:+ quote_chars rest
  end.

(** [JSON.stringify(s)] for a string [s]. *)
Definition quote (s : string) : string :=
  String dquote (quote_chars s +:+ String dquote EmptyString).

(** [JSON.stringify(v)] for [v : string | null]. *)
Definition nullable (v : option string) : string :=
  match v with
  | Some s => quote s
  | None => "null"
  end.

Fixpoint members (fields : list (string * string)) : string :=
  match fields with
  | [] => EmptyString
  | [(k, v)] => quote k +:+ ":" +:+ v
  | (k, v) :: rest => quote k +:+ ":" +:+ v +:+ "," +:+ members rest
  end.

(** An object literal from its keys and the texts of its values, in
    insertion order. *)
Definition object (fields : list (string * string)) : string :=
  "{" +:+ members fields +:+ "}".

End Json.

(** ** The history store: [useHistory] *)

Module UseHistory.
Import JsArray.

(** The numbers the [limit] option is used with: an integer, or the
    default [Infinity]. *)
Inductive num : Type :=
  | Fin (n : Z)
  | Infinity.

(** [n > limit] for an array length [n]. *)
Definition gt_limit (n : Z) (limit : num) : bool :=
  match limit with
  | Fin l => l <? n
  | Infinity => false
  end.

(** [options?: { limit?: number }] *)
Record Options : Type := { opt_limit : option num }.

(** [const { limit = Infinity } = options || {};] *)
Definition resolve_limit (options : option Options) : num :=
  match options with
  | Some {| opt_limit := Some l |} => l
  | _ => Infinity
  end.

Section store.
Context {T : Type}.

(** [JSON.stringify] at the snapshot type: the text that the
    de-duplication test of [setState] compares. *)
Variable JSON_stringify : T → string.

(** The two state cells of the hook. *)
Record Store : Type := mkStore {
  history : list T;
  currentIndex : Z;
}.

(** [useState<T[]>([initialState])], [useState(0)] *)
Definition init (initialState : T) : Store :=
  {| history := [initialState]; currentIndex := 0 |}.

(** [const state = history[currentIndex];] *)
Definition state (s : Store) : option T :=
  index (history s) (currentIndex s).

(** The argument of [setState]: a value or an updater function.  The
    updater receives [state], which is [undefined] when the index
    designates no entry. *)
Inductive SetStateAction : Type :=
  | Value (newState : T)
  | Updater (f : option T → T).

Definition resolve (a : SetStateAction) (s : Store) : T :=
  match a with
  | Value v => v
  | Updater f => f (state s)
  end.

(** [JSON.stringify(resolvedState) === JSON.stringify(state)];
    [JSON.stringify(undefined)] is [undefined], which no text equals. *)
Definition same_json (resolvedState : T) (st : option T) : bool :=
  bool_decide (Some (JSON_stringify resolvedState) = JSON_stringify <$> st).

(** [while (newHistory.length > limit) newHistory.shift();]
    [shift] removes the first entry, so the loop drops entries from the
    front while the array is too long.  On an empty array [shift] changes
    nothing: with a negative limit the loop never ends, which is [None]. *)
Fixpoint evict (limit : num) (newHistory : list T) : option (list T) :=
  if gt_limit (len newHistory) limit then
    match newHistory with
    | [] => None
    | _ :: rest => evict limit rest
    end
  else Some newHistory.

(** [setState] *)
Definition setState (limit : num) (a : SetStateAction) (s : Store)
  : option Store :=
  let resolvedState := resolve a s in
  if same_json resolvedState (state s) then Some s
  else
    let newHistory := slice0 (history s) (currentIndex s + 1) in
    let newHistory := push newHistory resolvedState in
    newHistory ← evict limit newHistory;
    Some {| history := newHistory; currentIndex := len newHistory - 1 |}.

(** The spec's [commit(next)] is [setState] at a value. *)
Definition commit (limit : num) (next : T) (s : Store) : option Store :=
  setState limit (Value next) s.

(** [undo] *)
Definition undo (s : Store) : Store :=
  if 0 <? currentIndex s
  then {| history := history s; currentIndex := currentIndex s - 1 |}
  else s.

(** [redo] *)
Definition redo (s : Store) : Store :=
  if currentIndex s <? len (history s) - 1
  then {| history := history s; currentIndex := currentIndex s + 1 |}
  else s.

(** [reset] *)
Definition reset (newState : T) (s : Store) : Store :=
  {| history := [newState]; currentIndex := 0 |}.

(** [loadHistory]: [newHistory] may be [null] or [undefined] at run time
    ([None]); the test [newHistory && ...] rejects it. *)
Definition loadHistory (newHistory : option (list T)) (newIndex : Z)
    (s : Store) : Store :=
  match newHistory with
  | Some h =>
      if (0 <? len h) && (0 <=? newIndex) && (newIndex <? len h)
      then {| history := h; currentIndex := newIndex |}
      else s
  | None => s
  end.

Definition canUndo (s : Store) : bool := 0 <? currentIndex s.
Definition canRedo (s : Store) : bool := currentIndex s <? len (history s) - 1.

(** The data-model invariant: a non-empty sequence and a cursor inside it. *)
Definition valid (s : Store) : Prop :=
  1 ≤ len (history s) ∧ 0 ≤ currentIndex s < len (history s).

(** The precondition [L ≥ 1] of the data model; [Infinity] satisfies it. *)
Definition limit_ok (limit : num) : Prop :=
  match limit with
  | Fin l => 1 ≤ l
  | Infinity => True
  end.

(** The number of entries that the eviction loop removes from an array of
    [n] entries: what exceeds the limit. *)
Definition excess (limit : num) (n : nat) : nat :=
  match limit with
  | Fin l => (n - Z.to_nat l)%nat
  | Infinity => 0%nat
  end.

(** An array of [n] entries is within the limit. *)
Definition fits (limit : num) (n : Z) : Prop :=
  match limit with
  | Fin l => n ≤ l
  | Infinity => True
  end.

(** A count of commits is below the limit. *)
Definition below (limit : num) (n : Z) : Prop :=
  match limit with
  | Fin l => n < l
  | Infinity => True
  end.

(** The operations that the hook hands to its caller. *)
Inductive Op : Type :=
  | OpSetState (a : SetStateAction)
  | OpUndo
  | OpRedo
  | OpReset (newState : T)
  | OpLoadHistory (newHistory : option (list T)) (newIndex : Z).

Definition run (limit : num) (o : Op) (s : Store) : option Store :=
  match o with
  | OpSetState a => setState limit a s
  | OpUndo => Some (undo s)
  | OpRedo => Some (redo s)
  | OpReset x => Some (reset x s)
  | OpLoadHistory h i => Some (loadHistory h i s)
  end.

Fixpoint runs (limit : num) (os : list Op) (s : Store) : option Store :=
  match os with
  | [] => Some s
  | o :: rest => s' ← run limit o s; runs limit rest s'
  end.

(** [n] calls of [undo]. *)
Definition undo_n (n : nat) (s : Store) : Store := Nat.iter n undo s.

(** Committing a list of states in order; [None] as soon as one commit
    does not return. *)
Fixpoint commits (limit : num) (nexts : list T) (s : Store) : option Store :=
  match nexts with
  | [] => Some s
  | x :: rest => s' ← commit limit x s; commits limit rest s'
  end.

(** Every state of [nexts] differs, in its JSON text, from the state that
    is current when it is committed: the first from the current state of
    the store, each next one from its predecessor. *)
Fixpoint distinct_from (cur : option string) (nexts : list T) : Prop :=
  match nexts with
  | [] => True
  | x :: rest =>
      cur ≠ Some (JSON_stringify x) ∧
      distinct_from (Some (JSON_stringify x)) rest
  end.

End store.

Arguments Store : clear implicits.
Arguments SetStateAction : clear implicits.
Arguments Op : clear implicits.

End UseHistory.

(** ** Promises *)

(** An asynchronous computation is modelled by its outcome: a promise
    resolves with a value or rejects with a reason.  An exception thrown
    inside an [async] function is a rejection. *)
Module Promise.

Inductive promise (A : Type) : Type :=
  | Resolved (a : A)
  | Rejected (reason : string).

Arguments Resolved {A} a.
Arguments Rejected {A} reason.

#[export] Instance promise_ret : MRet promise := λ A a, Resolved a.

(** [await] *)
#[export] Instance promise_bind : MBind promise := λ A B k m,
  match m with
  | Resolved a => k a
  | Rejected r => Rejected r
  end.

(** [Promise.all]: resolved with all the values when every promise
    resolves, rejected as soon as one rejects.  The reason kept is that of
    the first rejected promise of the array. *)
Fixpoint all {A} (ps : list (promise A)) : promise (list A) :=
  match ps with
  | [] => Resolved []
  | p :: rest =>
      match p, all rest with
      | Resolved a, Resolved l => Resolved (a :: l)
      | Rejected r, _ => Rejected r
      | Resolved _, Rejected r => Rejected r
      end
  end.

Definition is_rejected {A} (p : promise A) : bool :=
  match p with
  | Resolved _ => false
  | Rejected _ => true
  end.

End Promise.

(** ** Files, blobs and the durable store *)

Module Browser.
Export Promise.

(** A [File]: its content bytes, its name and its media type. *)
Record File : Type := mkFile {
  file_bytes : list byte;
  file_name : string;
  file_type : string;
}.

Record Blob : Type := mkBlob {
  blob_bytes : list byte;
  blob_type : string;
}.

(** [!v] for [v : string | null]: [null] and the empty string are falsy. *)
Definition falsy (v : option string) : bool :=
  match v with
  | None => true
  | Some EmptyString => true
  | Some (String _ _) => false
  end.

End Browser.

(** ** The photo editor: snapshots, save and load *)

Module PhotoEditor.
Import JsArray.
Export Browser.

(** [originalFileData], the text-safe stand-in for the file of a
    snapshot. *)
Record FileData : Type := mkFileData {
  dataUrl : string;
  name : string;
}.

(** [interface PhotoEditorState].  A snapshot rebuilt from a saved record
    is [{ ...hState, originalFile: file }] and so still carries the
    [originalFileData] property of the record, which the interface does not
    declare; [None] when the property is absent. *)
Record PhotoEditorState : Type := mkState {
  originalFile : option File;
  imageSrc : option string;
  editedImageSrc : option string;
  activeFilter : string;
  originalFileData : option FileData;
}.

(** [const initialState] *)
Definition initialState : PhotoEditorState :=
  {| originalFile := None; imageSrc := None; editedImageSrc := None;
     activeFilter := EmptyString; originalFileData := None |}.

(** [JSON.stringify] of a snapshot.  A [File] has no enumerable property
    of its own: its text is the empty object, whatever its bytes, name and
    type. *)
Definition JSON_stringify_fileData (d : FileData) : string :=
  Json.object [("dataUrl", Json.quote (dataUrl d)); ("name", Json.quote (name d))].

Definition JSON_stringify (st : PhotoEditorState) : string :=
  Json.object
    ([("originalFile", match originalFile st with Some _ => "{}" | None => "null" end);
      ("imageSrc", Json.nullable (imageSrc st));
      ("editedImageSrc", Json.nullable (editedImageSrc st));
      ("activeFilter", Json.quote (activeFilter st))]
     ++ match originalFileData st with
        | Some d => [("originalFileData", JSON_stringify_fileData d)]
        | None => []
        end).

(** A snapshot of a saved record: [originalFile] is always [null] there,
    the other properties are those of the snapshot. *)
Record SerializedState : Type := mkSerialized {
  s_imageSrc : option string;
  s_editedImageSrc : option string;
  s_activeFilter : string;
  s_originalFileData : option FileData;
}.

(** [{ history: serializableHistory, currentIndex: indexToSave }] *)
Record PersistedRecord : Type := mkRecord {
  p_history : list SerializedState;
  p_currentIndex : Z;
}.

(** A text of the durable store.  The model keeps, for the JSON text of a
    record, the record itself; [Malformed] stands for every text on which
    [JSON.parse] or the loader's access to [savedData.history] throws. *)
Inductive text : Type :=
  | EmptyText
  | Malformed
  | RecordText (r : PersistedRecord).

(** [JSON.stringify(serializableData)] *)
Definition JSON_stringify_record (r : PersistedRecord) : text := RecordText r.

(** [JSON.parse(savedDataString)], for a non-empty text. *)
Definition JSON_parse (t : text) : promise PersistedRecord :=
  match t with
  | RecordText r => Resolved r
  | EmptyText | Malformed => Rejected "SyntaxError"
  end.

Definition PHOTO_PROJECT_KEY : string := "photoEditorProject".
Definition AUTO_SAVE_KEY : string := "photoEditorAutoSave".

Section protocol.

(** The binary codec of the browser.  [readAsDataURL file] is the outcome
    of a [FileReader] reading the file as a data URL ([onload] resolves,
    [onerror] rejects); [fetch_blob url] is that of [fetch(url)] followed
    by [res.blob()]. *)
Variable readAsDataURL : File → promise string.
Variable fetch_blob : string → promise Blob.

(** Whether the durable store takes a text under a key, or refuses it for
    its size. *)
Variable storage_accepts : string → text → bool.

(** [dataUrlToFile] of [fileUtils.ts] *)
Definition dataUrlToFile (dataUrl filename : string) : promise File :=
  blob ← fetch_blob dataUrl;
  mret {| file_bytes := blob_bytes blob;
          file_name := filename;
          file_type := blob_type blob |}.

(** [localStorage.setItem], [localStorage.removeItem] *)
Definition setItem (key : string) (value : text) (ls : gmap string text)
  : promise (gmap string text) :=
  if storage_accepts key value then Resolved (<[key := value]> ls)
  else Rejected "QuotaExceededError".

Definition removeItem (key : string) (ls : gmap string text)
  : gmap string text :=
  delete key ls.

(** The callback that [getSerializableState] maps over the history. *)
Definition serialize_state (hState : PhotoEditorState)
  : promise SerializedState :=
  match originalFile hState with
  | None =>
      mret {| s_imageSrc := imageSrc hState;
              s_editedImageSrc := editedImageSrc hState;
              s_activeFilter := activeFilter hState;
              s_originalFileData := originalFileData hState |}
  | Some file =>
      url ← readAsDataURL file;
      mret {| s_imageSrc := imageSrc hState;
              s_editedImageSrc := editedImageSrc hState;
              s_activeFilter := activeFilter hState;
              s_originalFileData :=
                Some {| dataUrl := url; name := file_name file |} |}
  end.

(** [getSerializableState]; [None] is the [null] returned when there is
    nothing to persist.  The guard looks at [historyToSave[0]]. *)
Definition getSerializableState (historyToSave : list PhotoEditorState)
    (indexToSave : Z) : promise (option PersistedRecord) :=
  match historyToSave with
  | [] => mret None
  | first :: _ =>
      if falsy (imageSrc first) then mret None
      else
        serializableHistory ← Promise.all (map serialize_state historyToSave);
        mret (Some {| p_history := serializableHistory;
                      p_currentIndex := indexToSave |})
  end.

(** The data that the editor hands to [useAutoSave]:
    [{ history, currentIndex }]. *)
Record SaveData : Type := mkSaveData {
  d_history : list PhotoEditorState;
  d_currentIndex : Z;
}.

(** [handleAutoSave] *)
Definition handleAutoSave (dataToSave : SaveData) (ls : gmap string text)
  : promise (gmap string text) :=
  serializableData ← getSerializableState (d_history dataToSave)
                                         (d_currentIndex dataToSave);
  match serializableData with
  | Some r => setItem AUTO_SAVE_KEY (JSON_stringify_record r) ls
  | None => mret ls
  end.

(** The callback that the loaders map over [savedData.history]. *)
Definition reconstruct_state (hState : SerializedState)
  : promise PhotoEditorState :=
  file ← match s_originalFileData hState with
         | Some d => f ← dataUrlToFile (dataUrl d) (name d); mret (Some f)
         | None => mret None
         end;
  mret {| originalFile := file;
          imageSrc := s_imageSrc hState;
          editedImageSrc := s_editedImageSrc hState;
          activeFilter := s_activeFilter hState;
          originalFileData := s_originalFileData hState |}.

(** [Promise.all(savedData.history.map(...))] *)
Definition reconstruct (saved : list SerializedState)
  : promise (list PhotoEditorState) :=
  Promise.all (map reconstruct_state saved).

(** The editor as far as save and load touch it: the history store, the
    durable store, and what was shown to the user or logged. *)
Record Editor : Type := mkEditor {
  store : UseHistory.Store PhotoEditorState;
  localStorage : gmap string text;
  alerts : list string;
  console_errors : list string;
}.

Definition alert (msg : string) (e : Editor) : Editor :=
  {| store := store e; localStorage := localStorage e;
     alerts := alerts e ++ [msg]; console_errors := console_errors e |}.

Definition console_error (msg : string) (e : Editor) : Editor :=
  {| store := store e; localStorage := localStorage e;
     alerts := alerts e; console_errors := console_errors e ++ [msg] |}.

Definition with_storage (ls : gmap string text) (e : Editor) : Editor :=
  {| store := store e; localStorage := ls;
     alerts := alerts e; console_errors := console_errors e |}.

Definition with_store (s : UseHistory.Store PhotoEditorState) (e : Editor)
  : Editor :=
  {| store := s; localStorage := localStorage e;
     alerts := alerts e; console_errors := console_errors e |}.

(** [photoState], the current snapshot.  It is [undefined] only in a store
    that breaks the invariant, where the component could not render; the
    model reads the initial state there. *)
Definition photoState (e : Editor) : PhotoEditorState :=
  default initialState (UseHistory.state (store e)).

(** [handleSaveProject] *)
Definition handleSaveProject (e : Editor) : Editor :=
  if falsy (imageSrc (photoState e)) then alert "There is nothing to save." e
  else
    let attempt :=
      serializableData ← getSerializableState
                           (UseHistory.history (store e))
                           (UseHistory.currentIndex (store e));
      match serializableData with
      | Some r => setItem PHOTO_PROJECT_KEY (JSON_stringify_record r)
                          (localStorage e)
      | None => Rejected "Could not create save data."
      end in
    match attempt with
    | Resolved ls => alert "Project saved successfully!" (with_storage ls e)
    | Rejected _ =>
        alert "Could not save the project. The image might be too large."
          (console_error "Failed to save project:" e)
    end.

(** [handleLoadProject] *)
Definition handleLoadProject (e : Editor) : Editor :=
  match localStorage e !! PHOTO_PROJECT_KEY with
  | None | Some EmptyText => alert "No saved project found." e
  | Some savedDataString =>
      let attempt :=
        savedData ← JSON_parse savedDataString;
        reconstructedHistory ← reconstruct (p_history savedData);
        mret (reconstructedHistory, p_currentIndex savedData) in
      match attempt with
      | Resolved (reconstructedHistory, index) =>
          alert "Project loaded successfully!"
            (with_store
               (UseHistory.loadHistory (Some reconstructedHistory) index
                  (store e)) e)
      | Rejected _ =>
          with_storage (removeItem PHOTO_PROJECT_KEY (localStorage e))
            (alert "Could not load the saved project. The data may be corrupted."
               (console_error "Failed to load project:" e))
      end
  end.

(** The effect that offers to restore the auto-saved project when the
    editor mounts; [confirmed] is the answer of the user.  The chain
    [Promise.all(...).then(...).finally(...)] has no rejection handler: a
    rejected decode installs nothing and reaches neither [alert] nor
    [removeItem]. *)
Definition restoreAutoSave (confirmed : bool) (e : Editor) : Editor :=
  match localStorage e !! AUTO_SAVE_KEY with
  | None | Some EmptyText => e
  | Some autoSavedDataString =>
      if confirmed then
        match JSON_parse autoSavedDataString with
        | Resolved savedData =>
            match reconstruct (p_history savedData) with
            | Resolved reconstructedHistory =>
                with_store
                  (UseHistory.loadHistory (Some reconstructedHistory)
                     (p_currentIndex savedData) (store e)) e
            | Rejected _ => e
            end
        | Rejected _ =>
            with_storage (removeItem AUTO_SAVE_KEY (localStorage e))
              (alert "Could not load the auto-saved project. The data may be corrupted."
                 (console_error "Failed to load auto-saved project:" e))
        end
      else e
  end.

(** The codec round-trips the file of a snapshot: the file reads as a data
    URL, and fetching that URL yields a blob with the bytes of the file. *)
Definition codec_round_trips (st : PhotoEditorState) : Prop :=
  match originalFile st with
  | None => True
  | Some f =>
      ∃ url blob, readAsDataURL f = Resolved url ∧
                  fetch_blob url = Resolved blob ∧
                  blob_bytes blob = file_bytes f
  end.

(** A snapshot without a file carries no placeholder of a file left over
    from an earlier load. *)
Definition no_leftover (st : PhotoEditorState) : Prop :=
  originalFile st = None → originalFileData st = None.

(** What a save followed by a load makes of a snapshot [a]: a snapshot
    [b] with the same image source, edited image source and filter.  Where
    [a] has a file, [b] has a file with the same bytes and the same name,
    of the media type that the codec gives it, and [b] carries the
    placeholder of that file, its data URL and its name.  Where [a] has no
    file, [b] has none, and the same placeholder property as [a]. *)
Definition same_content (a b : PhotoEditorState) : Prop :=
  imageSrc b = imageSrc a ∧
  editedImageSrc b = editedImageSrc a ∧
  activeFilter b = activeFilter a ∧
  match originalFile a with
  | Some f =>
      ∃ url blob,
        readAsDataURL f = Resolved url ∧
        fetch_blob url = Resolved blob ∧
        originalFile b =
          Some {| file_bytes := file_bytes f; file_name := file_name f;
                  file_type := blob_type blob |} ∧
        originalFileData b = Some {| dataUrl := url; name := file_name f |}
  | None => originalFile b = None ∧ originalFileData b = originalFileData a
  end.

(** The placeholder of a saved snapshot does not decode. *)
Definition decode_fails (hState : SerializedState) : Prop :=
  ∃ d reason, s_originalFileData hState = Some d ∧
              dataUrlToFile (dataUrl d) (name d) = Rejected reason.

End protocol.

End PhotoEditor.

(** ** The autosave scheduler: [useAutoSave] *)

(** The hook lives in a component and talks to the timers of the browser.
    The model is a state machine over a virtual clock in milliseconds:
      - [mount] is the first render with its three effects;
      - [Change d] is a later render in which [data] is a new value, so
        that the debounced effect runs again (its cleanup first);
      - [Tick] lets one millisecond pass and runs the timers that are due;
      - [Settle id] is the moment at which the promise of the save [id]
        settles: the save callback has then had its effect on the world it
        writes to, or has failed;
      - [Unmount] runs the cleanups of the effects.
    A save started by [performSave] reads [dataRef.current] at that moment
    and stays in flight until it settles. *)
Module UseAutoSave.
Export Promise.

(** [type SaveStatus] *)
Inductive SaveStatus : Type :=
  | idle
  | saving
  | saved
  | error.

(** What called [performSave]. *)
Inductive Trigger : Type :=
  | Debounce
  | Interval.

#[export] Instance Trigger_eq_dec : EqDecision Trigger.
Proof. solve_decision. Defined.

(** [2500], the delay of the debounce timer. *)
Definition DEBOUNCE_MS : Z := 2500.

(** [interval: number = 120000] *)
Definition DEFAULT_INTERVAL : Z := 120000.

Definition resolve_interval (interval : option Z) : Z :=
  default DEFAULT_INTERVAL interval.

Section hook.

(** [T], the type of [data], and the world the save callback writes to. *)
Context {D W : Type}.

(** [onSave]: given the data, what the callback does to the world when it
    succeeds, or its failure. *)
Variable onSave : D → W → promise W.

(** The [interval] argument. *)
Variable interval : Z.

(** A call of [performSave] in the log of the hook. *)
Record Start : Type := mkStart {
  start_id : nat;
  start_trigger : Trigger;
  start_at : Z;
  start_data : D;
}.

(** The state of the hook and of what it acts on.  [lastSaved] is the
    label of the time of the last successful save; the model keeps the
    clock of that moment. *)
Record Hook : Type := mkHook {
  (* React state *)
  status : SaveStatus;
  lastSaved : option Z;
  (* refs *)
  debounceTimeoutRef : option nat;
  dataRef : D;
  isMounted : bool;
  (* the component *)
  alive : bool;
  (* the timers of the browser *)
  clock : Z;
  timeouts : list (nat * Z);
  intervals : list (nat * Z);
  nextTimer : nat;
  (* saves *)
  inFlight : list (nat * D);
  nextSave : nat;
  started : list Start;
  world : W;
}.

(** [setStatus], [setLastSaved]: dropped once the component is gone. *)
Definition setStatus (st : SaveStatus) (h : Hook) : Hook :=
  if alive h then
    {| status := st; lastSaved := lastSaved h;
       debounceTimeoutRef := debounceTimeoutRef h; dataRef := dataRef h;
       isMounted := isMounted h; alive := alive h; clock := clock h;
       timeouts := timeouts h; intervals := intervals h;
       nextTimer := nextTimer h; inFlight := inFlight h;
       nextSave := nextSave h; started := started h; world := world h |}
  else h.

Definition setLastSaved (h : Hook) : Hook :=
  if alive h then
    {| status := status h; lastSaved := Some (clock h);
       debounceTimeoutRef := debounceTimeoutRef h; dataRef := dataRef h;
       isMounted := isMounted h; alive := alive h; clock := clock h;
       timeouts := timeouts h; intervals := intervals h;
       nextTimer := nextTimer h; inFlight := inFlight h;
       nextSave := nextSave h; started := started h; world := world h |}
  else h.

(** The first half of [performSave], up to the [await]:
    [setStatus('saving')] and the call [onSaveRef.current(dataRef.current)].
    Nothing is tested before the call. *)
Definition performSave (by_ : Trigger) (h : Hook) : Hook :=
  let h := setStatus saving h in
  {| status := status h; lastSaved := lastSaved h;
     debounceTimeoutRef := debounceTimeoutRef h; dataRef := dataRef h;
     isMounted := isMounted h; alive := alive h; clock := clock h;
     timeouts := timeouts h; intervals := intervals h;
     nextTimer := nextTimer h;
     inFlight := inFlight h ++ [(nextSave h, dataRef h)];
     nextSave := S (nextSave h);
     started := started h ++
       [{| start_id := nextSave h; start_trigger := by_;
           start_at := clock h; start_data := dataRef h |}];
     world := world h |}.

Fixpoint lookup_save (id : nat) (l : list (nat * D)) : option D :=
  match l with
  | [] => None
  | (i, d) :: rest => if Nat.eqb i id then Some d else lookup_save id rest
  end.

Definition remove_save (id : nat) (l : list (nat * D)) : list (nat * D) :=
  filter (λ p, p.1 ≠ id) l.

(** The second half of [performSave], after the [await]. *)
Definition settle (id : nat) (h : Hook) : Hook :=
  match lookup_save id (inFlight h) with
  | None => h
  | Some d =>
      let outcome := onSave d (world h) in
      let h :=
        {| status := status h; lastSaved := lastSaved h;
           debounceTimeoutRef := debounceTimeoutRef h; dataRef := dataRef h;
           isMounted := isMounted h; alive := alive h; clock := clock h;
           timeouts := timeouts h; intervals := intervals h;
           nextTimer := nextTimer h;
           inFlight := remove_save id (inFlight h);
           nextSave := nextSave h; started := started h;
           world := match outcome with
                    | Resolved w => w
                    | Rejected _ => world h
                    end |} in
      match outcome with
      | Resolved _ => setLastSaved (setStatus saved h)
      | Rejected _ => setStatus error h
      end
  end.

(** [clearTimeout(id)] *)
Definition clearTimeout (id : nat) (h : Hook) : Hook :=
  {| status := status h; lastSaved := lastSaved h;
     debounceTimeoutRef := debounceTimeoutRef h; dataRef := dataRef h;
     isMounted := isMounted h; alive := alive h; clock := clock h;
     timeouts := filter (λ p, p.1 ≠ id) (timeouts h);
     intervals := intervals h; nextTimer := nextTimer h;
     inFlight := inFlight h; nextSave := nextSave h;
     started := started h; world := world h |}.

(** [if (debounceTimeoutRef.current) clearTimeout(debounceTimeoutRef.current)]:
    the test is on the number, and [0] is falsy. *)
Definition clear_debounce (h : Hook) : Hook :=
  match debounceTimeoutRef h with
  | Some (S _ as id) => clearTimeout id h
  | _ => h
  end.

(** [debounceTimeoutRef.current = window.setTimeout(..., 2500)] *)
Definition arm_debounce (h : Hook) : Hook :=
  {| status := status h; lastSaved := lastSaved h;
     debounceTimeoutRef := Some (nextTimer h); dataRef := dataRef h;
     isMounted := isMounted h; alive := alive h; clock := clock h;
     timeouts := timeouts h ++ [(nextTimer h, clock h + DEBOUNCE_MS)];
     intervals := intervals h; nextTimer := S (nextTimer h);
     inFlight := inFlight h; nextSave := nextSave h;
     started := started h; world := world h |}.

(** [setInterval(performSave, interval)]; the browser takes a period
    below one millisecond as one millisecond. *)
Definition period : Z := Z.max 1 interval.

Definition arm_interval (h : Hook) : Hook :=
  {| status := status h; lastSaved := lastSaved h;
     debounceTimeoutRef := debounceTimeoutRef h; dataRef := dataRef h;
     isMounted := isMounted h; alive := alive h; clock := clock h;
     timeouts := timeouts h;
     intervals := intervals h ++ [(nextTimer h, clock h + period)];
     nextTimer := S (nextTimer h);
     inFlight := inFlight h; nextSave := nextSave h;
     started := started h; world := world h |}.

(** The effect without dependencies: [dataRef.current = data]. *)
Definition update_refs (data : D) (h : Hook) : Hook :=
  {| status := status h; lastSaved := lastSaved h;
     debounceTimeoutRef := debounceTimeoutRef h; dataRef := data;
     isMounted := isMounted h; alive := alive h; clock := clock h;
     timeouts := timeouts h; intervals := intervals h;
     nextTimer := nextTimer h; inFlight := inFlight h;
     nextSave := nextSave h; started := started h; world := world h |}.

(** The body of the debounced effect. *)
Definition debounce_effect (h : Hook) : Hook :=
  if isMounted h then arm_debounce (clear_debounce h)
  else
    {| status := status h; lastSaved := lastSaved h;
       debounceTimeoutRef := debounceTimeoutRef h; dataRef := dataRef h;
       isMounted := true; alive := alive h; clock := clock h;
       timeouts := timeouts h; intervals := intervals h;
       nextTimer := nextTimer h; inFlight := inFlight h;
       nextSave := nextSave h; started := started h; world := world h |}.

(** The first render at time [now]: the hook state, then the three
    effects in the order of the source.  Timer identifiers start at 1. *)
Definition mount (data : D) (now : Z) (w : W) : Hook :=
  let h :=
    {| status := idle; lastSaved := None;
       debounceTimeoutRef := None; dataRef := data;
       isMounted := false; alive := true; clock := now;
       timeouts := []; intervals := []; nextTimer := 1;
       inFlight := []; nextSave := 0; started := []; world := w |} in
  arm_interval (debounce_effect (update_refs data h)).

(** A render with a new [data]: the cleanup of the debounced effect, then
    the effects in order, the refs and the body of the debounced effect.
    The first run of the body returned no cleanup, and left no timer that
    one could clear. *)
Definition change (data : D) (h : Hook) : Hook :=
  debounce_effect (update_refs data (clear_debounce h)).

(** The timers that are due run in the order in which they were set,
    timeouts before intervals; the order within one millisecond plays no
    part in what follows. *)
Definition due (now : Z) (p : nat * Z) : bool := p.2 <=? now.

Definition fire_timeouts (h : Hook) : Hook :=
  let ready := filter (λ p, due (clock h) p = true) (timeouts h) in
  let h :=
    {| status := status h; lastSaved := lastSaved h;
       debounceTimeoutRef := debounceTimeoutRef h; dataRef := dataRef h;
       isMounted := isMounted h; alive := alive h; clock := clock h;
       timeouts := filter (λ p, due (clock h) p = false) (timeouts h);
       intervals := intervals h; nextTimer := nextTimer h;
       inFlight := inFlight h; nextSave := nextSave h;
       started := started h; world := world h |} in
  foldl (λ h _, performSave Debounce h) h ready.

Definition fire_intervals (h : Hook) : Hook :=
  let ready := filter (λ p, due (clock h) p = true) (intervals h) in
  let h :=
    {| status := status h; lastSaved := lastSaved h;
       debounceTimeoutRef := debounceTimeoutRef h; dataRef := dataRef h;
       isMounted := isMounted h; alive := alive h; clock := clock h;
       timeouts := timeouts h;
       intervals :=
         map (λ p, if due (clock h) p then (p.1, p.2 + period) else p)
             (intervals h);
       nextTimer := nextTimer h;
       inFlight := inFlight h; nextSave := nextSave h;
       started := started h; world := world h |} in
  foldl (λ h _, performSave Interval h) h ready.

(** One millisecond passes. *)
Definition tick (h : Hook) : Hook :=
  let h :=
    {| status := status h; lastSaved := lastSaved h;
       debounceTimeoutRef := debounceTimeoutRef h; dataRef := dataRef h;
       isMounted := isMounted h; alive := alive h; clock := clock h + 1;
       timeouts := timeouts h; intervals := intervals h;
       nextTimer := nextTimer h; inFlight := inFlight h;
       nextSave := nextSave h; started := started h; world := world h |} in
  fire_intervals (fire_timeouts h).

(** The cleanups of the two effects; saves in flight go on. *)
Definition unmount (h : Hook) : Hook :=
  let h := clear_debounce h in
  {| status := status h; lastSaved := lastSaved h;
     debounceTimeoutRef := debounceTimeoutRef h; dataRef := dataRef h;
     isMounted := isMounted h; alive := false; clock := clock h;
     timeouts := timeouts h; intervals := [];
     nextTimer := nextTimer h; inFlight := inFlight h;
     nextSave := nextSave h; started := started h; world := world h |}.

Inductive Event : Type :=
  | Change (data : D)
  | Tick
  | Settle (id : nat)
  | Unmount.

Definition step (h : Hook) (e : Event) : Hook :=
  match e with
  | Change d => change d h
  | Tick => tick h
  | Settle id => settle id h
  | Unmount => unmount h
  end.

Definition steps (h : Hook) (es : list Event) : Hook := foldl step h es.

(** [n] milliseconds in which nothing else happens. *)
Definition advance (n : nat) (h : Hook) : Hook := Nat.iter n tick h.

(** An event that leaves the timers alone: time passing, or a save
    settling. *)
Definition quiet (e : Event) : bool :=
  match e with
  | Tick | Settle _ => true
  | Change _ | Unmount => false
  end.

(** The milliseconds of a list of events. *)
Fixpoint ticks (es : list Event) : Z :=
  match es with
  | [] => 0
  | Tick :: rest => 1 + ticks rest
  | _ :: rest => ticks rest
  end.

(** The calls of [performSave] made by the debounce timer. *)
Definition debounce_saves (h : Hook) : list Start :=
  filter (λ s, start_trigger s = Debounce) (started h).

Definition interval_saves (h : Hook) : list Start :=
  filter (λ s, start_trigger s = Interval) (started h).

(** The times and the data of the calls made by the debounce timer. *)
Definition debounce_log (h : Hook) : list (Z * D) :=
  (λ s, (start_at s, start_data s)) <$> debounce_saves h.

(** What the debounce timer depends on. *)
Definition timer_view (h : Hook)
  : bool * nat * list (nat * Z) * option nat * Z * D :=
  (isMounted h, nextTimer h, timeouts h, debounceTimeoutRef h, clock h,
   dataRef h).

(** After the first render: the debounced effect has run, timer
    identifiers are positive, and at most one debounce timer is pending,
    which is the one that the ref designates and is not yet due. *)
Definition wf (h : Hook) : Prop :=
  isMounted h = true ∧
  (1 ≤ nextTimer h)%nat ∧
  (timeouts h = [] ∨
   ∃ id at_, timeouts h = [(id, at_)] ∧ debounceTimeoutRef h = Some id ∧
             (1 ≤ id)%nat ∧ clock h < at_).

End hook.

Arguments Hook : clear implicits.
Arguments Start : clear implicits.
Arguments Event : clear implicits.

End UseAutoSave.

(** ** A data URL codec *)

(** The codec of the browser is a parameter of the protocol.  This module
    gives one codec to instantiate it with: base64 data URLs, as
    [FileReader.readAsDataURL] writes them and [fetch] reads them.  Part II
    proves that it round-trips every file. *)
Module DataUrl.
Import Browser.

Definition alphabet : string :=
  "ABCDEFGHIJKLMNOPQRSTUVWXYZabcdefghijklmnopqrstuvwxyz0123456789+/".

Definition pad : ascii := "="%char.

Definition digit (n : N) : ascii :=
  default pad (String.get (N.to_nat n) alphabet).

Fixpoint index_of (c : ascii) (s : string) : option nat :=
  match s with
  | EmptyString => None
  | String c' rest =>
      if Ascii.eqb c c' then Some 0%nat else S <$> index_of c rest
  end.

Definition value (c : ascii) : option N := N.of_nat <$> index_of c alphabet.

Definition str2 (a b : ascii) : string := String a (String b EmptyString).

(** Three bytes make four digits; one or two bytes at the end are padded. *)
Fixpoint base64_encode (bs : list byte) : string :=
  match bs with
  | [] => EmptyString
  | [a] =>
      let n := (Byte.to_N a * 65536)%N in
      str2 (digit (n / 262144)) (digit (n / 4096 mod 64)) +:+ str2 pad pad
  | [a; b] =>
      let n := (Byte.to_N a * 65536 + Byte.to_N b * 256)%N in
      str2 (digit (n / 262144)) (digit (n / 4096 mod 64))
      +:+ str2 (digit (n / 64 mod 64)) pad
  | a :: b :: c :: rest =>
      let n := (Byte.to_N a * 65536 + Byte.to_N b * 256 + Byte.to_N c)%N in
      str2 (digit (n / 262144)) (digit (n / 4096 mod 64))
      +:+ str2 (digit (n / 64 mod 64)) (digit (n mod 64))
      +:+ base64_encode rest
  end.

Definition bytes_of (n : N) (count : nat) : option (list byte) :=
  a ← Byte.of_N (n / 65536);
  b ← Byte.of_N (n / 256 mod 256);
  c ← Byte.of_N (n mod 256);
  Some (take count [a; b; c]).

Fixpoint base64_decode (s : string) : option (list byte) :=
  match s with
  | EmptyString => Some []
  | String c1 (String c2 (String c3 (String c4 rest))) =>
      v1 ← value c1;
      v2 ← value c2;
      if Ascii.eqb c4 pad then
        match rest with
        | EmptyString =>
            if Ascii.eqb c3 pad
            then bytes_of (v1 * 262144 + v2 * 4096) 1
            else v3 ← value c3;
                 bytes_of (v1 * 262144 + v2 * 4096 + v3 * 64) 2
        | String _ _ => None
        end
      else
        v3 ← value c3;
        v4 ← value c4;
        group ← bytes_of (v1 * 262144 + v2 * 4096 + v3 * 64 + v4) 3;
        tail ← base64_decode rest;
        Some (group ++ tail)
  | _ => None
  end.

(** [s] without the prefix [p], when it starts with it. *)
Fixpoint strip_prefix (p s : string) : option string :=
  match p, s with
  | EmptyString, _ => Some s
  | String a p', String b s' =>
      if Ascii.eqb a b then strip_prefix p' s' else None
  | String _ _, EmptyString => None
  end.

(** [s] cut at its first comma. *)
Fixpoint split_comma (s : string) : option (string * string) :=
  match s with
  | EmptyString => None
  | String c rest =>
      if Ascii.eqb c ","%char then Some (EmptyString, rest)
      else '(before, after) ← split_comma rest; Some (String c before, after)
  end.

(** [s] without the suffix [";base64"], when it ends with it. *)
Fixpoint strip_base64 (s : string) : option string :=
  match s with
  | EmptyString => None
  | String c rest =>
      if String.eqb s ";base64" then Some EmptyString
      else String c <$> strip_base64 rest
  end.

(** A media type that a data URL can carry before its first comma. *)
Fixpoint comma_free (s : string) : bool :=
  match s with
  | EmptyString => true
  | String c rest => negb (Ascii.eqb c ","%char) && comma_free rest
  end.

(** [FileReader.readAsDataURL]; a file without a type reads as
    [application/octet-stream]. *)
Definition readAsDataURL (f : File) : promise string :=
  let type :=
    match file_type f with
    | EmptyString => "application/octet-stream"
    | t => t
    end in
  Resolved ("data:" +:+ type +:+ ";base64," +:+ base64_encode (file_bytes f)).

(** [fetch(url)] then [res.blob()], for a base64 data URL. *)
Definition fetch_blob (url : string) : promise Blob :=
  match
    body ← strip_prefix "data:" url;
    '(header, payload) ← split_comma body;
    type ← strip_base64 header;
    bytes ← base64_decode payload;
    Some {| blob_bytes := bytes; blob_type := type |}
  with
  | Some blob => Resolved blob
  | None => Rejected "TypeError: Failed to fetch"
  end.

(** A durable store without a quota. *)
Definition unlimited (key : string) (value : PhotoEditor.text) : bool := true.

(** A durable store that is full. *)
Definition full_store (key : string) (value : PhotoEditor.text) : bool := false.

End DataUrl.

(** ** Sample data *)

(** Stores, snapshots, records and hooks that the examples of Part II
    evaluate the code on. *)
Module Samples.

(** *** History stores of strings *)

Definition full : UseHistory.Store string :=
  {| UseHistory.history := ["A"; "B"; "C"]; UseHistory.currentIndex := 2 |}.

Definition rewound : UseHistory.Store string :=
  {| UseHistory.history := ["A"; "B"; "C"]; UseHistory.currentIndex := 0 |}.

(** *** Photo projects *)

Import PhotoEditor.

Definition png : File :=
  {| file_bytes := [x89; x50; x4e; x47; x0d]%byte;
     file_name := "cat.png"; file_type := "image/png" |}.

(** A file of zero length. *)
Definition blank : File :=
  {| file_bytes := []; file_name := "blank.png"; file_type := "image/png" |}.

Definition opened : PhotoEditorState :=
  {| originalFile := Some png; imageSrc := Some "blob:cat";
     editedImageSrc := None; activeFilter := EmptyString;
     originalFileData := None |}.

Definition sepia : PhotoEditorState :=
  {| originalFile := Some blank; imageSrc := Some "blob:cat";
     editedImageSrc := None; activeFilter := "sepia(1)";
     originalFileData := None |}.

(** A snapshot without a file that still carries the placeholder of
    one. *)
Definition stale : PhotoEditorState :=
  {| originalFile := None; imageSrc := Some "blob:cat";
     editedImageSrc := None; activeFilter := EmptyString;
     originalFileData :=
       Some {| dataUrl := "data:image/png;base64,iVBORw0=";
               name := "cat.png" |} |}.

(** The record of an earlier automatic save. *)
Definition earlier : PersistedRecord :=
  {| p_history :=
       [{| s_imageSrc := Some "blob:cat"; s_editedImageSrc := None;
           s_activeFilter := EmptyString;
           s_originalFileData :=
             Some {| dataUrl := "data:image/png;base64,iVBORw0=";
                     name := "cat.png" |} |}];
     p_currentIndex := 0 |}.

(** A history whose current snapshot, at index 1, is the empty project,
    while its first snapshot holds an image. *)
Definition emptied : SaveData :=
  {| d_history := [opened; initialState]; d_currentIndex := 1 |}.

(** A record whose second snapshot has a placeholder that is no base64. *)
Definition corrupted : PersistedRecord :=
  {| p_history :=
       [{| s_imageSrc := Some "blob:cat"; s_editedImageSrc := None;
           s_activeFilter := EmptyString;
           s_originalFileData :=
             Some {| dataUrl := "data:image/png;base64,iVBORw0=";
                     name := "cat.png" |} |};
        {| s_imageSrc := Some "blob:cat"; s_editedImageSrc := None;
           s_activeFilter := "sepia(1)";
           s_originalFileData :=
             Some {| dataUrl := "data:image/png;base64,iVB*"; name := "cat.png" |} |}];
     p_currentIndex := 1 |}.

Definition editing : Editor :=
  {| store := {| UseHistory.history := [opened; sepia];
                 UseHistory.currentIndex := 1 |};
     localStorage := {[ PHOTO_PROJECT_KEY := RecordText corrupted ]};
     alerts := []; console_errors := [] |}.

(** *** A scheduler over a store of one key *)

Import UseAutoSave.

(** The save callback: it writes the data it was started with. *)
Definition write (data : string) (w : option string) : promise (option string) :=
  Resolved (Some data).

(** The default interval. *)
Definition every : Z := resolve_interval None.

(** One millisecond before the debounce timer of a change made at
    117500 ms and the interval timer are both due. *)
Definition both_due : Hook string (option string) :=
  advance every 2499
    (change "v1" (advance every (Z.to_nat 117500) (mount every "v0" 0 None))).

End Samples.

(** ** Runs of the scheduler *)

(** Ways of reading a list of events and the log of a hook. *)
Module AutoSaveTraces.
Import UseAutoSave.

Section traces.
Context {D W : Type}.

(** No [Unmount] among the events: the component stays mounted. *)
Definition mounted (es : list (Event D)) : bool :=
  forallb (λ e, match e with Unmount => false | _ => true end) es.

(** No [Change] among the events: no render with a new [data]. *)
Definition unchanged (es : list (Event D)) : bool :=
  forallb (λ e, match e with Change _ => false | _ => true end) es.

(** The [data] of the last render: that of the last [Change], or the one
    the hook was mounted with. *)
Fixpoint latest (d : D) (es : list (Event D)) : D :=
  match es with
  | [] => d
  | Change d' :: rest => latest d' rest
  | _ :: rest => latest d rest
  end.

(** The times of the calls of [performSave] made by the interval timer. *)
Definition interval_log (h : Hook D W) : list Z :=
  start_at <$> interval_saves h.

(** The multiples of the period after [now], the first [n] of them. *)
Definition beats (now p : Z) (n : nat) : list Z :=
  (λ j : nat, now + Z.of_nat j * p) <$> seq 1 n.

(** What the saves depend on and act on, the timers apart. *)
Definition save_view (h : Hook D W)
  : SaveStatus * option Z * bool * list (nat * Z) * list (nat * D) * nat *
    list (Start D) * W :=
  (status h, lastSaved h, alive h, intervals h, inFlight h, nextSave h,
   started h, world h).

(** The interval timer of a hook mounted at [now], after [k] beats: one
    timer, set for the next multiple of the period, and one save in the
    log for each beat that has passed. *)
Definition on_beat (interval now : Z) (k : nat) (h : Hook D W) : Prop :=
  (∃ id : nat,
     intervals h = [(id, now + (Z.of_nat k + 1) * period interval)]) ∧
  interval_log h = beats now (period interval) k ∧
  now + Z.of_nat k * period interval ≤ clock h ∧
  clock h < now + (Z.of_nat k + 1) * period interval.

(** A mounted hook whose status tells whether a save was ever started. *)
Definition told (h : Hook D W) : Prop :=
  alive h = true ∧
  (started h = [] → status h = idle ∧ lastSaved h = None ∧ inFlight h = []) ∧
  (started h ≠ [] → status h ≠ idle).

(** A hook whose component is gone and whose timers are cleared. *)
Definition stopped (h : Hook D W) : Prop :=
  alive h = false ∧ timeouts h = [] ∧ intervals h = [].

End traces.
End AutoSaveTraces.

From Stdlib Require QArith_base.

(** ** [fileToBase64] *)

Module FileUtils.
Import JsArray.
Export Browser.

(** [s.split(sep)] for a separator of one character. *)
Fixpoint split (sep : ascii) (s : string) : list string :=
  match s with
  | EmptyString => [EmptyString]
  | String c rest =>
      if Ascii.eqb c sep then EmptyString :: split sep rest
      else
        match split sep rest with
        | part :: parts => String c part :: parts
        | [] => [String c EmptyString]
        end
  end.

Section reader.

Variable readAsDataURL : File → promise string.

(** [fileToBase64]: what follows the first comma of the data URL, up to
    the next one; [undefined] for a result without a comma. *)
Definition fileToBase64 (file : File) : promise (option string) :=
  result ← readAsDataURL file;
  mret (index (split ","%char result) 1).

End reader.

End FileUtils.

(** ** The photo editor: opening, clearing and filtering *)

(** The handlers of [PhotoEditor.tsx] that replace or extend the history,
    with the state cells that they set besides it. *)
Module PhotoEditorUi.
Import JsArray.
Export PhotoEditor.

(** [useHistory<PhotoEditorState>(initialState, { limit: 10 })] *)
Definition options : UseHistory.Options :=
  {| UseHistory.opt_limit := Some (UseHistory.Fin 10) |}.

Definition limit : UseHistory.num := UseHistory.resolve_limit (Some options).

(** The state cells that the handlers read and [resetAll] sets, and the
    mask canvas: the channels of its pixels, [None] while the canvas is not
    rendered.  The busy flags [isGenerating], [activeAiTask],
    [isSuggesting] and [isRestoring] are false between two handlers and
    are left out. *)
Record Ui : Type := mkUi {
  generationPrompt : string;
  generationError : option string;
  editPrompt : string;
  editError : option string;
  isMasking : bool;
  canvas : option (list Z);
}.

Record Component : Type := mkComponent {
  editor : Editor;
  ui : Ui;
}.

Definition with_editor (e : Editor) (c : Component) : Component :=
  {| editor := e; ui := ui c |}.

(** [clearCanvas]: [clearRect] over the whole canvas. *)
Definition clearCanvas (u : Ui) : Ui :=
  {| generationPrompt := generationPrompt u;
     generationError := generationError u; editPrompt := editPrompt u;
     editError := editError u; isMasking := isMasking u;
     canvas := map (λ _, 0) <$> canvas u |}.

(** [resetAll] *)
Definition resetAll (newState : PhotoEditorState) (c : Component) : Component :=
  {| editor :=
       with_store (UseHistory.reset newState (store (editor c))) (editor c);
     ui :=
       clearCanvas
         {| generationPrompt := generationPrompt (ui c);
            generationError := None; editPrompt := EmptyString;
            editError := None; isMasking := false;
            canvas := canvas (ui c) |} |}.

(** [handleClearProject]; [confirmed] is the answer of the user. *)
Definition handleClearProject (confirmed : bool) (c : Component) : Component :=
  if confirmed then
    let c := resetAll initialState c in
    with_editor
      (with_storage
         (removeItem AUTO_SAVE_KEY
            (removeItem PHOTO_PROJECT_KEY (localStorage (editor c))))
         (editor c)) c
  else c.

(** [setPhotoState], the [setState] of the history at limit 10. *)
Definition setPhotoState (next : PhotoEditorState) (c : Component)
  : option Component :=
  s ← UseHistory.setState JSON_stringify limit (UseHistory.Value next)
        (store (editor c));
  Some (with_editor (with_store s (editor c)) c).

(** [applyFilter]: the spread keeps every other property of the current
    snapshot. *)
Definition applyFilter (filterStyle : string) (c : Component)
  : option Component :=
  let photoState := photoState (editor c) in
  setPhotoState
    {| originalFile := originalFile photoState;
       imageSrc := imageSrc photoState;
       editedImageSrc := None;
       activeFilter := filterStyle;
       originalFileData := originalFileData photoState |} c.

(** A history whose snapshots all hold an image, or of which none
    does. *)
Definition uniform (h : list PhotoEditorState) : Prop :=
  Forall (λ st, falsy (imageSrc st) = false) h ∨
  Forall (λ st, falsy (imageSrc st) = true) h.

Section files.

(** [URL.createObjectURL] *)
Variable createObjectURL : File → string.

(** [handleFileChange]; [file] is [event.target.files?.[0]]. *)
Definition handleFileChange (file : option File) (c : Component) : Component :=
  match file with
  | Some f =>
      if String.prefix "image/" (file_type f) then
        resetAll
          {| originalFile := Some f; imageSrc := Some (createObjectURL f);
             editedImageSrc := None; activeFilter := EmptyString;
             originalFileData := None |} c
      else with_editor (alert "Please select a valid image file." (editor c)) c
  | None => with_editor (alert "Please select a valid image file." (editor c)) c
  end.

End files.

Definition with_ui (u : Ui) (c : Component) : Component :=
  {| editor := editor c; ui := u |}.

Definition setEditError (message : option string) (c : Component) : Component :=
  with_ui
    {| generationPrompt := generationPrompt (ui c);
       generationError := generationError (ui c);
       editPrompt := editPrompt (ui c); editError := message;
       isMasking := isMasking (ui c); canvas := canvas (ui c) |} c.

Definition setGenerationError (message : option string) (c : Component)
  : Component :=
  with_ui
    {| generationPrompt := generationPrompt (ui c);
       generationError := message;
       editPrompt := editPrompt (ui c); editError := editError (ui c);
       isMasking := isMasking (ui c); canvas := canvas (ui c) |} c.

Definition setIsMasking (b : bool) (c : Component) : Component :=
  with_ui
    {| generationPrompt := generationPrompt (ui c);
       generationError := generationError (ui c);
       editPrompt := editPrompt (ui c); editError := editError (ui c);
       isMasking := b; canvas := canvas (ui c) |} c.

(** The component when the editor mounts on a page whose durable store is
    [ls]. *)
Definition mountEditor (ls : gmap string text) : Component :=
  {| editor := {| store := UseHistory.init initialState; localStorage := ls;
                  alerts := []; console_errors := [] |};
     ui := {| generationPrompt := EmptyString; generationError := None;
              editPrompt := EmptyString; editError := None;
              isMasking := false; canvas := None |} |}.

(** [{ history, currentIndex }], the data that the component hands to
    [useAutoSave]. *)
Definition saveData (c : Component) : SaveData :=
  {| d_history := UseHistory.history (store (editor c));
     d_currentIndex := UseHistory.currentIndex (store (editor c)) |}.

Section handlers.

Variable readAsDataURL : File → promise string.
Variable fetch_blob : string → promise Blob.
Variable storage_accepts : string → text → bool.
Variable createObjectURL : File → string.

(** The models are outside the program.  The handlers below take the
    outcome of their call of a model as [answer]: the image that the model
    returned, base64 encoded, or [None] for [null]; the reason of a
    rejected answer is the text that the [catch] of the handler shows for
    it, the message of the error or the fallback text of the handler.  The
    busy flags that a handler sets on entry and clears in its [finally] are
    not part of [Ui]. *)

(** [handleGenerateImage]; [answer] is the outcome of
    [generateImageWithAI].  A failed [fetch] throws a [TypeError], whose
    message is shown. *)
Definition handleGenerateImage (answer : promise (option string))
    (c : Component) : Component :=
  if falsy (Some (generationPrompt (ui c))) then
    setGenerationError (Some "Please enter a prompt to generate an image.") c
  else
    let c := setGenerationError None c in
    let attempt :=
      newImageData ← answer;
      if falsy newImageData then
        Rejected "The AI model did not return an image."
      else
        let dataUrl :=
          "data:image/png;base64," +:+ default EmptyString newImageData in
        blob ← fetch_blob dataUrl;
        mret ({| file_bytes := blob_bytes blob;
                 file_name := "generated-image.png";
                 file_type := "image/png" |}, dataUrl) in
    match attempt with
    | Resolved (file, dataUrl) =>
        resetAll
          {| originalFile := Some file; imageSrc := Some dataUrl;
             editedImageSrc := None; activeFilter := EmptyString;
             originalFileData := None |} c
    | Rejected message => setGenerationError (Some message) c
    end.

(** What the three handlers that send the image to a model do inside
    their [try]: read the file, await the model, and decode the image that
    it returned.  [mediaType] is the media type of the data URL, [prefix]
    what the name of the new file starts with, [missing] the message of the
    error thrown when the model returned no image, and [unknown] the
    fallback text of the [catch]: [fileToBase64] rejects with the event of
    the reader, which is no [Error]. *)
Definition editedImage (file : File)
    (mediaType prefix missing unknown : string)
    (answer : promise (option string)) : promise (File * string) :=
  match FileUtils.fileToBase64 readAsDataURL file with
  | Resolved base64Data =>
      newImageData ← answer;
      if falsy newImageData then Rejected missing
      else
        let dataUrl :=
          "data:" +:+ mediaType +:+ ";base64," +:+
          default EmptyString newImageData in
        newFile ← dataUrlToFile fetch_blob dataUrl (prefix +:+ file_name file);
        mret (newFile, dataUrl)
  | Rejected _ => Rejected unknown
  end.

(** [{ ...photoState, originalFile: newFile, imageSrc: dataUrl,
       editedImageSrc: null, activeFilter: '' }] *)
Definition edited (photoState : PhotoEditorState) (newFile : File)
    (dataUrl : string) : PhotoEditorState :=
  {| originalFile := Some newFile; imageSrc := Some dataUrl;
     editedImageSrc := None; activeFilter := EmptyString;
     originalFileData := originalFileData photoState |}.

(** [handleAiEdit]; [answer] is the outcome of [editImageWithMaskAI] when
    a mask is drawn, and of [editImageWithAI] otherwise. *)
Definition handleAiEdit (answer : promise (option string)) (c : Component)
  : option Component :=
  let photoState := photoState (editor c) in
  match originalFile photoState with
  | Some file =>
      if falsy (Some (editPrompt (ui c))) then
        Some (setEditError
                (Some "Please select an image and enter a prompt.") c)
      else
        let c := setEditError None c in
        match editedImage file (file_type file) "edited-"
                "The AI model did not return an image."
                "An unknown error occurred." answer with
        | Resolved (newFile, dataUrl) =>
            c ← setPhotoState (edited photoState newFile dataUrl) c;
            Some (with_ui (clearCanvas (ui (setIsMasking false c))) c)
        | Rejected message => Some (setEditError (Some message) c)
        end
  | None =>
      Some (setEditError
              (Some "Please select an image and enter a prompt.") c)
  end.

(** [handle3DEffect]; [answer] is the outcome of [add3DEffectToImage]. *)
Definition handle3DEffect (answer : promise (option string)) (c : Component)
  : option Component :=
  let photoState := photoState (editor c) in
  match originalFile photoState with
  | Some file =>
      let c := setEditError None c in
      match editedImage file (file_type file) "3d-"
              "The AI model did not return an image for the 3D effect."
              "An unknown error occurred." answer with
      | Resolved (newFile, dataUrl) =>
          setPhotoState (edited photoState newFile dataUrl) c
      | Rejected message => Some (setEditError (Some message) c)
      end
  | None => Some (setEditError (Some "Please select an image first.") c)
  end.

(** [handleUpscale]; [answer] is the outcome of [upscaleImageWithAI]. *)
Definition handleUpscale (answer : promise (option string)) (c : Component)
  : option Component :=
  let photoState := photoState (editor c) in
  match originalFile photoState with
  | Some file =>
      let c := setEditError None c in
      match editedImage file "image/png" "upscaled-"
              "The AI model did not return an upscaled image."
              "An unknown error occurred during upscaling." answer with
      | Resolved (newFile, dataUrl) =>
          setPhotoState (edited photoState newFile dataUrl) c
      | Rejected message => Some (setEditError (Some message) c)
      end
  | None => Some (setEditError (Some "Please select an image first.") c)
  end.

(** The states that the editor goes through.  It mounts on a page whose
    durable store holds no project yet, or on the store that an earlier
    visit left; from there each step is one handler of the component: the
    offer to restore the automatic save, a file opened, an image generated,
    the project cleared, an edit by a model, a filter, undo, redo, save,
    load, and a write of the automatic save.  Typing a prompt and drawing a
    mask change the cells of [Ui] only.

    A handler that awaits may end in a later render [c] than the render
    [c0] that started it, after other handlers have run.  What it then
    commits comes from the closure of [c0], the state and the [setState] of
    that render; what it writes is the record of the history of [c0]; what
    it installs was read from the durable store of [c0].  The last
    constructors are these late ends. *)
Inductive reachable : Component → Prop :=
  | first_visit ls :
      ls !! PHOTO_PROJECT_KEY = None → ls !! AUTO_SAVE_KEY = None →
      reachable (mountEditor ls)
  | next_visit c :
      reachable c → reachable (mountEditor (localStorage (editor c)))
  | after_input c u :
      reachable c → reachable (with_ui u c)
  | after_restore c confirmed :
      reachable c →
      reachable (with_editor (restoreAutoSave fetch_blob confirmed (editor c)) c)
  | after_handleFileChange c file :
      reachable c → reachable (handleFileChange createObjectURL file c)
  | after_handleGenerateImage c answer :
      reachable c → reachable (handleGenerateImage answer c)
  | after_handleClearProject c confirmed :
      reachable c → reachable (handleClearProject confirmed c)
  | after_handleAiEdit c answer c' :
      reachable c → handleAiEdit answer c = Some c' → reachable c'
  | after_handle3DEffect c answer c' :
      reachable c → handle3DEffect answer c = Some c' → reachable c'
  | after_handleUpscale c answer c' :
      reachable c → handleUpscale answer c = Some c' → reachable c'
  | after_applyFilter c filterStyle c' :
      reachable c → applyFilter filterStyle c = Some c' → reachable c'
  | after_undo c :
      reachable c →
      reachable (with_editor (with_store (UseHistory.undo (store (editor c)))
                                (editor c)) c)
  | after_redo c :
      reachable c →
      reachable (with_editor (with_store (UseHistory.redo (store (editor c)))
                                (editor c)) c)
  | after_handleSaveProject c :
      reachable c →
      reachable (with_editor
                   (handleSaveProject readAsDataURL storage_accepts (editor c)) c)
  | after_handleLoadProject c :
      reachable c →
      reachable (with_editor (handleLoadProject fetch_blob (editor c)) c)
  | after_handleAutoSave c ls :
      reachable c →
      handleAutoSave readAsDataURL storage_accepts (saveData c)
        (localStorage (editor c)) = Resolved ls →
      reachable (with_editor (with_storage ls (editor c)) c)
  | after_message c msg :
      reachable c → reachable (with_editor (alert msg (editor c)) c)
  | after_log c msg :
      reachable c → reachable (with_editor (console_error msg (editor c)) c)
  | after_late_commit c0 c file newFile dataUrl s :
      reachable c0 → reachable c →
      originalFile (photoState (editor c0)) = Some file →
      UseHistory.same_json JSON_stringify
        (edited (photoState (editor c0)) newFile dataUrl)
        (UseHistory.state (store (editor c0))) = false →
      UseHistory.setState JSON_stringify limit
        (UseHistory.Value (edited (photoState (editor c0)) newFile dataUrl))
        (store (editor c0)) = Some s →
      reachable (with_editor (with_store s (editor c)) c)
  | after_late_write c0 c key r :
      reachable c0 → reachable c →
      key = PHOTO_PROJECT_KEY ∨ key = AUTO_SAVE_KEY →
      getSerializableState readAsDataURL (d_history (saveData c0))
        (d_currentIndex (saveData c0)) = Resolved (Some r) →
      storage_accepts key (JSON_stringify_record r) = true →
      reachable
        (with_editor
           (with_storage
              (<[key := JSON_stringify_record r]> (localStorage (editor c)))
              (editor c)) c)
  | after_late_load c0 c key r reconstructedHistory :
      reachable c0 → reachable c →
      key = PHOTO_PROJECT_KEY ∨ key = AUTO_SAVE_KEY →
      localStorage (editor c0) !! key = Some (JSON_stringify_record r) →
      reconstruct fetch_blob (p_history r) = Resolved reconstructedHistory →
      reachable
        (with_editor
           (with_store
              (UseHistory.loadHistory (Some reconstructedHistory)
                 (p_currentIndex r) (store (editor c))) (editor c)) c)
  | after_late_remove c key :
      reachable c →
      key = PHOTO_PROJECT_KEY ∨ key = AUTO_SAVE_KEY →
      reachable
        (with_editor
           (with_storage (removeItem key (localStorage (editor c))) (editor c))
           c).

End handlers.

(** A snapshot without a file of the editor: it has no image and carries
    no placeholder of a file. *)
Definition bare (st : PhotoEditorState) : Prop :=
  originalFile st = None ∧ falsy (imageSrc st) = true ∧
  originalFileData st = None.

(** The histories of the editor: every snapshot has a file, or none has
    one and all are bare. *)
Definition settled (h : list PhotoEditorState) : Prop :=
  Forall (λ st, originalFile st ≠ None) h ∨ Forall bare h.

(** The same for the snapshots of a saved record and their
    placeholders. *)
Definition settled_saved (saved : list SerializedState) : Prop :=
  Forall (λ hState, s_originalFileData hState ≠ None) saved ∨
  Forall (λ hState, s_originalFileData hState = None ∧
                    falsy (s_imageSrc hState) = true) saved.

(** What the durable store holds under a key of the editor: nothing, or a
    record that the editor wrote. *)
Definition kept (ls : gmap string text) (key : string) : Prop :=
  match ls !! key with
  | None => True
  | Some (RecordText r) => settled_saved (p_history r)
  | Some _ => False
  end.

(** What every step of the editor keeps. *)
Definition consistent (c : Component) : Prop :=
  UseHistory.valid (store (editor c)) ∧
  settled (UseHistory.history (store (editor c))) ∧
  kept (localStorage (editor c)) PHOTO_PROJECT_KEY ∧
  kept (localStorage (editor c)) AUTO_SAVE_KEY.

End PhotoEditorUi.

(** ** The video editor *)

(** [VideoEditor.tsx]: the project of the video editor holds the filters
    and the history only; the video itself is an object URL that does not
    outlive the page.  The model keeps the state of the component; the
    [<video>] element is not part of it. *)
Module VideoEditor.
Import JsArray.
Export Browser.

(** [interface VideoEditorState] *)
Record VideoEditorState : Type := mkState {
  videoSrc : option string;
  activeFilter : string;
}.

Definition initialState : VideoEditorState :=
  {| videoSrc := None; activeFilter := EmptyString |}.

Definition JSON_stringify (st : VideoEditorState) : string :=
  Json.object
    [("videoSrc", Json.nullable (videoSrc st));
     ("activeFilter", Json.quote (activeFilter st))].

(** [interface Preset] *)
Record Preset : Type := mkPreset {
  name : string;
  filter : string;
}.

Definition VIDEO_PROJECT_KEY : string := "videoEditorProject".
Definition AUTO_SAVE_KEY : string := "videoEditorAutoSave".
Definition PRESETS_STORAGE_KEY : string := "videoEditorPresets".

(** [useHistory<VideoEditorState>(initialState, { limit: 5 })] *)
Definition options : UseHistory.Options :=
  {| UseHistory.opt_limit := Some (UseHistory.Fin 5) |}.

Definition limit : UseHistory.num := UseHistory.resolve_limit (Some options).

(** A parsed project as far as the loaders look at it: [history] when the
    property is truthy, [currentIndex] when it is a number. *)
Record SavedData : Type := mkSavedData {
  sd_history : option (list VideoEditorState);
  sd_currentIndex : option Z;
}.

(** A text of the durable store.  [Malformed] stands for every text on
    which [JSON.parse] throws and for the text [null], on which the
    access to [savedData.history] throws. *)
Inductive text : Type :=
  | EmptyText
  | Malformed
  | ProjectText (d : SavedData)
  | PresetsText (l : list Preset).

(** [JSON.parse] read as a project: an array has no [history] and no
    [currentIndex]. *)
Definition JSON_parse (t : text) : promise SavedData :=
  match t with
  | ProjectText d => Resolved d
  | PresetsText _ => Resolved {| sd_history := None; sd_currentIndex := None |}
  | EmptyText | Malformed => Rejected "SyntaxError"
  end.

(** [{ active, message, promptUserForFile }] *)
Record GenerationState : Type := mkGenerationState {
  active : bool;
  message : string;
  promptUserForFile : bool;
}.

Definition no_generation : GenerationState :=
  {| active := false; message := EmptyString; promptUserForFile := false |}.

(** The state cells of the component that the handlers below read or
    set, the durable store, and what was shown to the user or logged. *)
Record Editor : Type := mkEditor {
  store : UseHistory.Store VideoEditorState;
  isMuted : bool;
  volume : QArith_base.Q;
  aiError : option string;
  isProjectLoaded : bool;
  generationState : GenerationState;
  presets : list Preset;
  newPresetName : string;
  localStorage : gmap string text;
  alerts : list string;
  console_errors : list string;
}.

Definition alert (msg : string) (e : Editor) : Editor :=
  {| store := store e; isMuted := isMuted e; volume := volume e;
     aiError := aiError e; isProjectLoaded := isProjectLoaded e;
     generationState := generationState e; presets := presets e;
     newPresetName := newPresetName e; localStorage := localStorage e;
     alerts := alerts e ++ [msg]; console_errors := console_errors e |}.

Definition console_error (msg : string) (e : Editor) : Editor :=
  {| store := store e; isMuted := isMuted e; volume := volume e;
     aiError := aiError e; isProjectLoaded := isProjectLoaded e;
     generationState := generationState e; presets := presets e;
     newPresetName := newPresetName e; localStorage := localStorage e;
     alerts := alerts e; console_errors := console_errors e ++ [msg] |}.

Definition with_storage (ls : gmap string text) (e : Editor) : Editor :=
  {| store := store e; isMuted := isMuted e; volume := volume e;
     aiError := aiError e; isProjectLoaded := isProjectLoaded e;
     generationState := generationState e; presets := presets e;
     newPresetName := newPresetName e; localStorage := ls;
     alerts := alerts e; console_errors := console_errors e |}.

Definition with_store (s : UseHistory.Store VideoEditorState) (e : Editor)
  : Editor :=
  {| store := s; isMuted := isMuted e; volume := volume e;
     aiError := aiError e; isProjectLoaded := isProjectLoaded e;
     generationState := generationState e; presets := presets e;
     newPresetName := newPresetName e; localStorage := localStorage e;
     alerts := alerts e; console_errors := console_errors e |}.

(** [setIsProjectLoaded] and [setGenerationState], which the handlers
    call together. *)
Definition with_loaded (loaded : bool) (g : GenerationState) (e : Editor)
  : Editor :=
  {| store := store e; isMuted := isMuted e; volume := volume e;
     aiError := aiError e; isProjectLoaded := loaded;
     generationState := g; presets := presets e;
     newPresetName := newPresetName e; localStorage := localStorage e;
     alerts := alerts e; console_errors := console_errors e |}.

(** [setPresets], [setNewPresetName] *)
Definition with_presets (l : list Preset) (n : string) (e : Editor) : Editor :=
  {| store := store e; isMuted := isMuted e; volume := volume e;
     aiError := aiError e; isProjectLoaded := isProjectLoaded e;
     generationState := generationState e; presets := l;
     newPresetName := n; localStorage := localStorage e;
     alerts := alerts e; console_errors := console_errors e |}.

(** [videoState], the current snapshot; the initial state where the index
    designates no entry, as for the photo editor. *)
Definition videoState (e : Editor) : VideoEditorState :=
  default initialState (UseHistory.state (store e)).

(** [{ ...hState, videoSrc: null }] *)
Definition strip (hState : VideoEditorState) : VideoEditorState :=
  {| videoSrc := None; activeFilter := activeFilter hState |}.

(** [{ history: serializableHistory, currentIndex }] as a text. *)
Definition JSON_stringify_project (history : list VideoEditorState)
    (currentIndex : Z) : text :=
  ProjectText {| sd_history := Some (strip <$> history);
                 sd_currentIndex := Some currentIndex |}.

Definition removeItem (key : string) (ls : gmap string text)
  : gmap string text :=
  delete key ls.

(** [!localStorage.getItem(key)] *)
Definition absent (key : string) (ls : gmap string text) : bool :=
  match ls !! key with
  | None | Some EmptyText => true
  | Some _ => false
  end.

(** [resetAll] *)
Definition resetAll (e : Editor) : Editor :=
  {| store := UseHistory.reset initialState (store e);
     isMuted := false; volume := QArith_base.Qmake 1 1; aiError := None;
     isProjectLoaded := isProjectLoaded e;
     generationState := no_generation; presets := presets e;
     newPresetName := newPresetName e; localStorage := localStorage e;
     alerts := alerts e; console_errors := console_errors e |}.

(** [handleClearProject] *)
Definition handleClearProject (confirmed : bool) (e : Editor) : Editor :=
  if confirmed then
    let e := resetAll e in
    with_storage
      (removeItem AUTO_SAVE_KEY (removeItem VIDEO_PROJECT_KEY (localStorage e)))
      e
  else e.

(** [setVideoState], the [setState] of the history at limit 5. *)
Definition setVideoState (next : VideoEditorState) (e : Editor)
  : option Editor :=
  s ← UseHistory.setState JSON_stringify limit (UseHistory.Value next) (store e);
  Some (with_store s e).

(** [applyFilter] *)
Definition applyFilter (filterStyle : string) (e : Editor) : option Editor :=
  setVideoState
    {| videoSrc := videoSrc (videoState e); activeFilter := filterStyle |} e.

(** [handleApplyPreset] *)
Definition handleApplyPreset (preset : Preset) (e : Editor) : option Editor :=
  setVideoState
    {| videoSrc := videoSrc (videoState e); activeFilter := filter preset |} e.

(** The two ways in which a loader ends. *)
Definition loaded (msg : string) (h : list VideoEditorState) (i : Z)
    (e : Editor) : Editor :=
  with_loaded true
    {| active := true; message := msg; promptUserForFile := true |}
    (with_store (UseHistory.loadHistory (Some h) i (store e)) e).

Definition load_failed (key log msg : string) (e : Editor) : Editor :=
  with_storage (removeItem key (localStorage e))
    (alert msg (console_error log e)).

(** The effect that offers to restore the auto-saved project. *)
Definition restoreAutoSave (confirmed : bool) (e : Editor) : Editor :=
  if absent AUTO_SAVE_KEY (localStorage e) then e
  else if confirmed then
    match
      savedData ← JSON_parse (default EmptyText (localStorage e !! AUTO_SAVE_KEY));
      match sd_history savedData, sd_currentIndex savedData with
      | Some h, Some i => mret (h, i)
      | _, _ => Rejected "Corrupted auto-save data."
      end
    with
    | Resolved (h, i) =>
        loaded
          "Auto-saved project loaded. Please select your original video file to apply edits."
          h i e
    | Rejected _ =>
        load_failed AUTO_SAVE_KEY "Failed to load auto-saved project:"
          "Could not load the auto-saved project." e
    end
  else e.

(** [handleLoadProject] *)
Definition handleLoadProject (e : Editor) : Editor :=
  if absent VIDEO_PROJECT_KEY (localStorage e)
  then alert "No saved video project found." e
  else
    match
      savedData ← JSON_parse (default EmptyText (localStorage e !! VIDEO_PROJECT_KEY));
      match sd_history savedData, sd_currentIndex savedData with
      | Some h, Some i => mret (h, i)
      | _, _ => Rejected "Saved data is corrupted."
      end
    with
    | Resolved (h, i) =>
        loaded
          "Project loaded. Please select your original video file to apply edits."
          h i e
    | Rejected _ =>
        load_failed VIDEO_PROJECT_KEY "Failed to load project:"
          "Could not load the saved project. The data may be corrupted." e
    end.

(** The data that the editor hands to [useAutoSave]. *)
Record SaveData : Type := mkSaveData {
  d_history : list VideoEditorState;
  d_currentIndex : Z;
}.

(** [findIndex]: [-1] when no entry satisfies the test. *)
Fixpoint findIndex {A} (p : A → bool) (l : list A) : Z :=
  match l with
  | [] => -1
  | x :: rest =>
      if p x then 0
      else let i := findIndex p rest in if i <? 0 then -1 else i + 1
  end.

(** [handleDeletePreset] *)
Definition handleDeletePreset (confirmed : bool) (presetNameToDelete : string)
    (e : Editor) : Editor :=
  if confirmed then
    with_presets
      (base.filter (λ p, name p ≠ presetNameToDelete) (presets e))
      (newPresetName e) e
  else e.

Section browser.

(** Whether the durable store takes a text under a key. *)
Variable storage_accepts : string → text → bool.

(** [URL.createObjectURL] *)
Variable createObjectURL : File → string.

(** [String.prototype.toLowerCase], [String.prototype.trim] *)
Variable toLowerCase : string → string.
Variable trim : string → string.

Definition setItem (key : string) (value : text) (ls : gmap string text)
  : promise (gmap string text) :=
  if storage_accepts key value then Resolved (<[key := value]> ls)
  else Rejected "QuotaExceededError".

(** [handleAutoSave]; [loaded] is the [isProjectLoaded] of the render that
    made the callback.  Reading [videoSrc] of a current state that does
    not exist throws. *)
Definition handleAutoSave (loaded : bool) (dataToSave : SaveData)
    (ls : gmap string text) : promise (gmap string text) :=
  match d_history dataToSave with
  | [] => mret ls
  | _ :: _ =>
      match index (d_history dataToSave) (d_currentIndex dataToSave) with
      | None => Rejected "TypeError"
      | Some currentState =>
          if falsy (videoSrc currentState) && negb loaded then mret ls
          else
            setItem AUTO_SAVE_KEY
              (JSON_stringify_project (d_history dataToSave)
                                      (d_currentIndex dataToSave)) ls
      end
  end.

(** [handleSaveProject].  The handler has no [try]: when the store
    refuses the text the handler ends there, before its [alert]; [None]
    is that exception. *)
Definition handleSaveProject (e : Editor) : option Editor :=
  if falsy (videoSrc (videoState e))
  then Some (alert "There's no video project to save." e)
  else
    match
      setItem VIDEO_PROJECT_KEY
        (JSON_stringify_project (UseHistory.history (store e))
                                (UseHistory.currentIndex (store e)))
        (localStorage e)
    with
    | Resolved ls =>
        Some (alert
          "Video project saved! (Filters & history only. You will need to re-upload the video upon loading)."
          (with_storage ls e))
    | Rejected _ => None
    end.

(** [handleFileChange] *)
Definition handleFileChange (file : option File) (e : Editor) : option Editor :=
  match file with
  | Some f =>
      if String.prefix "video/" (file_type f) then
        let url := createObjectURL f in
        if isProjectLoaded e then
          e ← setVideoState
                {| videoSrc := Some url;
                   activeFilter := activeFilter (videoState e) |} e;
          Some (with_loaded false no_generation e)
        else
          let e := resetAll e in
          Some (with_store
                  (UseHistory.reset
                     {| videoSrc := Some url; activeFilter := EmptyString |}
                     (store e)) e)
      else Some (alert "Please select a valid video file." e)
  | None => Some (alert "Please select a valid video file." e)
  end.

(** The test of [handleSavePreset] and of its updater. *)
Definition same_name (n : string) (p : Preset) : bool :=
  String.eqb (toLowerCase (name p)) (toLowerCase n).

(** The updater that [handleSavePreset] hands to [setPresets]. *)
Definition put_preset (newPreset : Preset) (prev : list Preset) : list Preset :=
  let existingIndex := findIndex (same_name (name newPreset)) prev in
  if -1 <? existingIndex
  then <[Z.to_nat existingIndex := newPreset]> prev
  else prev ++ [newPreset].

(** [handleSavePreset]; [confirmed] is the answer of the user when the
    handler asks whether to overwrite. *)
Definition handleSavePreset (confirmed : bool) (e : Editor) : Editor :=
  if String.eqb (trim (newPresetName e)) EmptyString
  then alert "Please enter a name for your preset." e
  else if String.eqb (activeFilter (videoState e)) EmptyString
  then alert "There are no filters applied to save as a preset." e
  else
    let trimmedName := trim (newPresetName e) in
    if existsb (same_name trimmedName) (presets e) && negb confirmed then e
    else
      with_presets
        (put_preset {| name := trimmedName;
                       filter := activeFilter (videoState e) |} (presets e))
        EmptyString e.

(** No two presets have the same name up to the case of the letters. *)
Definition distinct_names (l : list Preset) : Prop :=
  NoDup ((λ p, toLowerCase (name p)) <$> l).

(** The effect that loads the presets when the editor mounts; a project
    under the key of the presets is outside the model. *)
Definition loadPresets (e : Editor) : option Editor :=
  match localStorage e !! PRESETS_STORAGE_KEY with
  | None | Some EmptyText => Some e
  | Some (PresetsText l) => Some (with_presets l (newPresetName e) e)
  | Some Malformed => Some (console_error "Failed to load presets:" e)
  | Some (ProjectText _) => None
  end.

(** The effect that stores the presets after a render in which they
    changed. *)
Definition storePresets (e : Editor) : promise Editor :=
  if (0 <? len (presets e)) || negb (absent PRESETS_STORAGE_KEY (localStorage e))
  then
    ls ← setItem PRESETS_STORAGE_KEY (PresetsText (presets e)) (localStorage e);
    mret (with_storage ls e)
  else mret e.

End browser.

End VideoEditor.

(** ** WAV files: [audioBufferToWavBlob] and [decodeAudioData] *)

(** [fileUtils.ts] writes a WAV file through a [DataView] over a fresh
    [ArrayBuffer], and turns 16-bit PCM into an [AudioBuffer].  The model
    keeps the bytes.  A sample of a [Float32Array] is a rational number, an
    infinity or [NaN]; the product of such a sample with [0x8000] or
    [0x7fff] is exact in double precision, and so is an [Int16] divided by
    [32768] in single precision, so that no rounding is left out.  Sample
    rates are whole numbers of hertz.  [None] is an exception. *)
Module Wav.
Import JsArray.
Export Browser.

(** *** Numbers *)

Inductive float : Type :=
  | NaN
  | Infinite (negative : bool)
  | Finite (q : QArith_base.Q).

Definition of_Z (z : Z) : float := Finite (QArith_base.inject_Z z).

(** [a < b] *)
Definition lt (a b : float) : bool :=
  match a, b with
  | NaN, _ | _, NaN => false
  | Infinite na, Infinite nb => na && negb nb
  | Infinite na, Finite _ => na
  | Finite _, Infinite nb => negb nb
  | Finite p, Finite q =>
      negb (QArith_base.Qle_bool q p)
  end.

(** [Math.min(a, b)], [Math.max(a, b)] *)
Definition Math_min (a b : float) : float :=
  match a, b with
  | NaN, _ | _, NaN => NaN
  | _, _ => if lt b a then b else a
  end.

Definition Math_max (a b : float) : float :=
  match a, b with
  | NaN, _ | _, NaN => NaN
  | _, _ => if lt a b then b else a
  end.

(** [x * k] for an integer constant [k > 0]. *)
Definition times (x : float) (k : Z) : float :=
  match x with
  | Finite q => Finite (QArith_base.Qmult q (QArith_base.inject_Z k))
  | other => other
  end.

(** The integer part of a number, towards zero; [NaN] and the infinities
    convert to [0]. *)
Definition truncate (x : float) : Z :=
  match x with
  | Finite q => Z.quot (QArith_base.Qnum q) (Z.pos (QArith_base.Qden q))
  | _ => 0
  end.

(** [ToInt16] *)
Definition ToInt16 (x : float) : Z :=
  (truncate x + 32768) mod 65536 - 32768.

(** *** [DataView] *)

Definition byte_of_Z (z : Z) : byte :=
  default x00%byte (Byte.of_N (Z.to_N (z mod 256))).

(** [new ArrayBuffer(n)] *)
Definition ArrayBuffer (n : Z) : option (list byte) :=
  if n <? 0 then None else Some (replicate (Z.to_nat n) x00%byte).

(** Whether [count] bytes at [offset] are inside the view. *)
Definition inside (view : list byte) (offset count : Z) : bool :=
  (0 <=? offset) && (offset + count <=? len view).

Definition setUint8 (view : list byte) (offset value : Z)
  : option (list byte) :=
  if inside view offset 1
  then Some (<[Z.to_nat offset := byte_of_Z value]> view)
  else None.

(** [view.setUint16(offset, value, true)]: little-endian. *)
Definition setUint16 (view : list byte) (offset value : Z)
  : option (list byte) :=
  if inside view offset 2
  then Some (<[Z.to_nat offset + 1 := byte_of_Z (value / 256)]>
               (<[Z.to_nat offset := byte_of_Z value]> view))%nat
  else None.

(** [view.setUint32(offset, value, true)] *)
Definition setUint32 (view : list byte) (offset value : Z)
  : option (list byte) :=
  if inside view offset 4
  then Some (<[Z.to_nat offset + 3 := byte_of_Z (value / 16777216)]>
               (<[Z.to_nat offset + 2 := byte_of_Z (value / 65536)]>
                  (<[Z.to_nat offset + 1 := byte_of_Z (value / 256)]>
                     (<[Z.to_nat offset := byte_of_Z value]> view))))%nat
  else None.

(** [view.setInt16(offset, value, true)] for a number [value]. *)
Definition setInt16 (view : list byte) (offset : Z) (value : float)
  : option (list byte) :=
  setUint16 view offset (ToInt16 value).

(** [writeString] *)
Fixpoint writeString (view : list byte) (offset : Z) (s : string)
  : option (list byte) :=
  match s with
  | EmptyString => Some view
  | String c rest =>
      view ← setUint8 view offset (Z.of_nat (nat_of_ascii c));
      writeString view (offset + 1) rest
  end.

(** [for (let i = from; i < from + count; i++) body(i)] over a state. *)
Fixpoint for_loop {S} (from : Z) (count : nat) (body : Z → S → option S)
    (s : S) : option S :=
  match count with
  | O => Some s
  | Datatypes.S k => s' ← body from s; for_loop (from + 1) k body s'
  end.

(** *** [AudioBuffer] *)

Record AudioBuffer : Type := mkAudioBuffer {
  numberOfChannels : Z;
  sampleRate : Z;
  length : Z;
  channelData : list (list float);
}.

(** [buffer.getChannelData(i)] *)
Definition getChannelData (buffer : AudioBuffer) (i : Z) : option (list float) :=
  index (channelData buffer) i.

(** An [AudioBuffer] as the browser makes them: as many channels as it
    says, each of the length it says. *)
Definition well_formed (buffer : AudioBuffer) : Prop :=
  len (channelData buffer) = numberOfChannels buffer ∧
  0 ≤ length buffer ∧
  Forall (λ c, len c = length buffer) (channelData buffer).

(** [channels[chan][i]] as a number: [undefined] is [NaN] in
    [Math.min]. *)
Definition sample_at (channels : list (list float)) (chan i : Z)
  : option float :=
  c ← index channels chan;
  Some (default NaN (index c i)).

(** The two statements that turn a sample into the number that
    [setInt16] receives. *)
Definition scale (x : float) : float :=
  let sample := Math_max (of_Z (-1)) (Math_min (of_Z 1) x) in
  if lt sample (of_Z 0) then times sample 32768 else times sample 32767.

(** [audioBufferToWavBlob] *)
Definition audioBufferToWavBlob (buffer : AudioBuffer) : option Blob :=
  let numChannels := numberOfChannels buffer in
  let sampleRate := sampleRate buffer in
  let numFrames := length buffer in
  let bitsPerSample := 16 in
  let dataSize := numFrames * numChannels * (bitsPerSample / 8) in
  let blockAlign := numChannels * (bitsPerSample / 8) in
  let byteRate := sampleRate * blockAlign in
  let bufferLength := 44 + dataSize in
  view ← ArrayBuffer bufferLength;
  let offset := 0 in
  view ← writeString view offset "RIFF"; let offset := offset + 4 in
  view ← setUint32 view offset (36 + dataSize); let offset := offset + 4 in
  view ← writeString view offset "WAVE"; let offset := offset + 4 in
  view ← writeString view offset "fmt "; let offset := offset + 4 in
  view ← setUint32 view offset 16; let offset := offset + 4 in
  view ← setUint16 view offset 1; let offset := offset + 2 in
  view ← setUint16 view offset numChannels; let offset := offset + 2 in
  view ← setUint32 view offset sampleRate; let offset := offset + 4 in
  view ← setUint32 view offset byteRate; let offset := offset + 4 in
  view ← setUint16 view offset blockAlign; let offset := offset + 2 in
  view ← setUint16 view offset bitsPerSample; let offset := offset + 2 in
  view ← writeString view offset "data"; let offset := offset + 4 in
  view ← setUint32 view offset dataSize; let offset := offset + 4 in
  channels ← mapM (getChannelData buffer)
                  (Z.of_nat <$> seq 0 (Z.to_nat numChannels));
  written ←
    for_loop 0 (Z.to_nat numFrames)
      (λ i st,
         for_loop 0 (Z.to_nat numChannels)
           (λ chan '(view, offset),
              sample ← sample_at channels chan i;
              view ← setInt16 view offset (scale sample);
              Some (view, offset + 2))
           st)
      (view, offset);
  Some {| blob_bytes := written.1; blob_type := "audio/wav" |}.

(** *** The layout that the writer is meant to produce *)

(** Little-endian bytes. *)
Definition le16 (v : Z) : list byte := [byte_of_Z v; byte_of_Z (v / 256)].

Definition le32 (v : Z) : list byte :=
  [byte_of_Z v; byte_of_Z (v / 256); byte_of_Z (v / 65536);
   byte_of_Z (v / 16777216)].

Definition ascii_bytes (s : string) : list byte :=
  (λ c, byte_of_Z (Z.of_nat (nat_of_ascii c))) <$> list_ascii_of_string s.

(** The 44 bytes of the canonical header of a PCM file of 16 bits. *)
Definition riff_header (numChannels sampleRate dataSize : Z) : list byte :=
  ascii_bytes "RIFF" ++ le32 (36 + dataSize) ++ ascii_bytes "WAVE" ++
  ascii_bytes "fmt " ++ le32 16 ++ le16 1 ++ le16 numChannels ++
  le32 sampleRate ++ le32 (sampleRate * (numChannels * 2)) ++
  le16 (numChannels * 2) ++ le16 16 ++
  ascii_bytes "data" ++ le32 dataSize.

(** The samples frame by frame, the channels of a frame in order. *)
Definition frame (channels : list (list float)) (i : nat) : list float :=
  (λ c, default NaN (c !! i)) <$> channels.

Definition interleave (buffer : AudioBuffer) : list float :=
  i ← seq 0 (Z.to_nat (length buffer));
  frame (channelData buffer) i.

(** Samples as 16-bit PCM. *)
Definition pcm (samples : list float) : list byte :=
  x ← samples; le16 (ToInt16 (scale x)).

(** The value of little-endian bytes. *)
Fixpoint le_value (bytes : list byte) : Z :=
  match bytes with
  | [] => 0
  | b :: rest => Z.of_N (Byte.to_N b) + 256 * le_value rest
  end.

(** *** [decodeAudioData] *)

(** [new Int16Array(data.buffer)]: the bytes in pairs, little-endian and
    signed; a buffer of odd length is refused. *)
Fixpoint Int16Array (data : list byte) : option (list Z) :=
  match data with
  | [] => Some []
  | [_] => None
  | lo :: hi :: rest =>
      let u := le_value [lo; hi] in
      tail ← Int16Array rest;
      Some ((if u <? 32768 then u else u - 65536) :: tail)
  end.

Section context.

(** Whether the audio context makes a buffer of that many channels, of
    that length and at that rate, all positive. *)
Variable supported : Z → Z → Z → bool.

(** [ctx.createBuffer(numberOfChannels, length, sampleRate)]: silence. *)
Definition createBuffer (numberOfChannels length sampleRate : Z)
  : promise AudioBuffer :=
  if (0 <? numberOfChannels) && (0 <? length) && (0 <? sampleRate)
     && supported numberOfChannels length sampleRate
  then Resolved
         {| numberOfChannels := numberOfChannels; sampleRate := sampleRate;
            length := length;
            channelData :=
              replicate (Z.to_nat numberOfChannels)
                        (replicate (Z.to_nat length) (of_Z 0)) |}
  else Rejected "NotSupportedError".

(** [decodeAudioData].  The length of the buffer is the whole part of
    [frameCount]; an assignment beyond the length of a typed array does
    nothing, so that the two loops fill exactly the frames of the
    buffer. *)
Definition decodeAudioData (data : list byte) (sampleRate numChannels : Z)
  : promise AudioBuffer :=
  match Int16Array data with
  | None => Rejected "RangeError"
  | Some dataInt16 =>
      let frameCount := len dataInt16 / numChannels in
      buffer ← createBuffer numChannels frameCount sampleRate;
      mret
        {| numberOfChannels := numberOfChannels buffer;
           sampleRate := Wav.sampleRate buffer;
           length := length buffer;
           channelData :=
             (λ channel : nat,
                (λ i : nat,
                   match dataInt16 !! (i * Z.to_nat numChannels + channel)%nat with
                   | Some v => Finite (QArith_base.Qmake v 32768)
                   | None => NaN
                   end) <$> seq 0 (Z.to_nat (length buffer)))
             <$> seq 0 (Z.to_nat (numberOfChannels buffer)) |}
  end.

(** The pipeline of [handleGenerateSpeech]: PCM of one channel at
    24 kHz into a WAV file. *)
Definition speech_wav (data : list byte) : promise Blob :=
  audioBuffer ← decodeAudioData data 24000 1;
  match audioBufferToWavBlob audioBuffer with
  | Some blob => Resolved blob
  | None => Rejected "RangeError"
  end.

End context.

(** What the writer makes of a 16-bit sample that went through
    [decodeAudioData]. *)
Definition requantize (v : Z) : Z := if 0 <? v then v - 1 else v.

End Wav.

(** ** More sample data *)

Module MoreSamples.
Import Samples.

(** *** The photo editor *)

Import PhotoEditor PhotoEditorUi.

(** The editor of [editing] with a mask drawn on its canvas. *)
Definition studio : Component :=
  {| editor := editing;
     ui := {| generationPrompt := EmptyString;
              generationError := None; editPrompt := "brighter";
              editError := Some "The AI model did not return an image.";
              isMasking := true; canvas := Some [0; 255; 0; 255] |} |}.

(** A durable store whose project has no snapshot. *)
Definition hollow : Editor :=
  {| store := UseHistory.init initialState;
     localStorage :=
       {[ PHOTO_PROJECT_KEY :=
            RecordText {| p_history := []; p_currentIndex := 0 |} ]};
     alerts := []; console_errors := [] |}.

(** An editor on a fresh page. *)
Definition fresh (ls : gmap string text) : Editor :=
  {| store := UseHistory.init initialState; localStorage := ls;
     alerts := []; console_errors := [] |}.

(** Object URLs of a browser that names every one of them [blob:cat]. *)
Definition cat_url (f : File) : string := "blob:cat".

(** A first visit on which [png] is opened. *)
Definition visit : Component :=
  handleFileChange cat_url (Some png) (mountEditor ∅).

(** The same after the automatic save has written its record. *)
Definition visit_saved : Component :=
  with_editor
    (with_storage {[ AUTO_SAVE_KEY := RecordText earlier ]} (editor visit))
    visit.

(** The page opened again, with the empty project on the screen and the
    record of the first visit in the durable store. *)
Definition revisit : Component := mountEditor (localStorage (editor visit_saved)).

End MoreSamples.

Module VideoSamples.
Import VideoEditor.

(** A store without a quota, object URLs made of the name of the file,
    and the two string functions on ASCII. *)
Definition roomy (key : string) (value : text) : bool := true.

Definition object_url (f : File) : string := "blob:" +:+ file_name f.

Definition lower_char (c : ascii) : ascii :=
  let n := nat_of_ascii c in
  if (65 <=? n)%nat && (n <=? 90)%nat then ascii_of_nat (n + 32) else c.

Fixpoint lower (s : string) : string :=
  match s with
  | EmptyString => EmptyString
  | String c rest => String (lower_char c) (lower rest)
  end.

Fixpoint trim_left (s : string) : string :=
  match s with
  | String " " rest => trim_left rest
  | _ => s
  end.

Fixpoint trim_right (s : string) : string :=
  match s with
  | EmptyString => EmptyString
  | String c rest =>
      match c, trim_right rest with
      | " "%char, EmptyString => EmptyString
      | _, kept => String c kept
      end
  end.

Definition trim_both (s : string) : string := trim_right (trim_left s).

Definition clip : File :=
  {| file_bytes := [x00; x00; x00; x18]%byte;
     file_name := "clip.mp4"; file_type := "video/mp4" |}.

(** An editor with a video and one filter applied, and one preset. *)
Definition cutting : Editor :=
  {| store :=
       {| UseHistory.history :=
            [{| videoSrc := Some "blob:clip.mp4"; activeFilter := EmptyString |};
             {| videoSrc := Some "blob:clip.mp4"; activeFilter := "sepia(1)" |}];
          UseHistory.currentIndex := 1 |};
     isMuted := false; volume := QArith_base.Qmake 1 1; aiError := None;
     isProjectLoaded := false; generationState := no_generation;
     presets := [{| name := "Warm"; filter := "sepia(1)" |}];
     newPresetName := " warm ";
     localStorage := ∅; alerts := []; console_errors := [] |}.

(** The same project after a load: no video in any snapshot. *)
Definition reopened : Editor :=
  {| store :=
       {| UseHistory.history :=
            [{| videoSrc := None; activeFilter := EmptyString |};
             {| videoSrc := None; activeFilter := "sepia(1)" |}];
          UseHistory.currentIndex := 1 |};
     isMuted := false; volume := QArith_base.Qmake 1 1; aiError := None;
     isProjectLoaded := true;
     generationState :=
       {| active := true;
          message := "Project loaded. Please select your original video file to apply edits.";
          promptUserForFile := true |};
     presets := []; newPresetName := EmptyString;
     localStorage :=
       {[ VIDEO_PROJECT_KEY :=
            ProjectText {| sd_history := Some [];
                           sd_currentIndex := Some 0 |} ]};
     alerts := []; console_errors := [] |}.

End VideoSamples.

Module WavSamples.
Import Wav.

(** Two frames of two channels: a half and a sample above the range, then
    the lowest sample and [NaN]. *)
Definition stereo : AudioBuffer :=
  {| numberOfChannels := 2; sampleRate := 44100; length := 2;
     channelData :=
       [[Finite (QArith_base.Qmake 1 2); of_Z (-1)]; [of_Z 2; NaN]] |}.

(** The samples 1, -1, -32768 and 32767 as PCM. *)
Definition speech : list byte :=
  [x01; x00; xff; xff; x00; x80; xff; x7f]%byte.

(** An audio context that makes every buffer. *)
Definition any_buffer (numberOfChannels length sampleRate : Z) : bool := true.

End WavSamples.

(* ===================================================================== *)
(** * Part II: properties                                                 *)
(* ===================================================================== *)

(** ** Facts about the array primitives *)

Module JsArrayFacts.
Import JsArray.

Lemma len_nonneg {A} (a : list A) : 0 ≤ len a.
Proof. unfold len. lia. Qed.

Lemma len_app {A} (a b : list A) : len (a ++ b) = len a + len b.
Proof. unfold len. rewrite length_app. lia. Qed.

Lemma len_cons {A} (x : A) (a : list A) : len (x :: a) = len a + 1.
Proof. unfold len. simpl. lia. Qed.

Lemma slice0_nonneg {A} (a : list A) (e : Z) :
  0 ≤ e → slice0 a e = take (Z.to_nat e) a.
Proof.
  intros He. unfold slice0.
  destruct (Z.ltb_spec e 0) as [Hlt|_]; [lia | reflexivity].
Qed.

Lemma index_inside {A} (a : list A) (i : Z) :
  0 ≤ i < len a → ∃ x, index a i = Some x.
Proof.
  intros [H0 H1]. unfold index, len in *.
  destruct (Z.ltb_spec i 0) as [Hlt|_]; [lia |].
  destruct (lookup_lt_is_Some_2 a (Z.to_nat i)) as [x Hx]; [lia | eauto].
Qed.

Lemma index_app_l {A} (a b : list A) (i : Z) :
  i < len a → index (a ++ b) i = index a i.
Proof.
  intros Hi. unfold index, len in *.
  destruct (Z.ltb_spec i 0) as [Hlt|Hge]; [reflexivity |].
  apply lookup_app_l. lia.
Qed.

Lemma index_take {A} (a : list A) (n : nat) (i : Z) :
  i < Z.of_nat n → index (take n a) i = index a i.
Proof.
  intros Hi. unfold index.
  destruct (Z.ltb_spec i 0) as [Hlt|Hge]; [reflexivity |].
  apply lookup_take_lt. lia.
Qed.

Lemma index_last {A} (a : list A) (x : A) :
  index (a ++ [x]) (len a) = Some x.
Proof.
  unfold index, len.
  destruct (Z.ltb_spec (Z.of_nat (length a)) 0) as [Hlt|_]; [lia |].
  rewrite Nat2Z.id. apply list_lookup_middle. reflexivity.
Qed.

End JsArrayFacts.

(** ** The history store *)

Module HistoryFacts.
Import JsArray JsArrayFacts UseHistory.

Section facts.
Context {T : Type}.
Variable JSON_stringify : T → string.

Local Abbreviation Store := (Store T).
Local Abbreviation commit := (commit JSON_stringify).
Local Abbreviation setState := (setState JSON_stringify).
Local Abbreviation same_json := (same_json JSON_stringify).

Implicit Types (s : Store) (L : num) (next cur : T) (h : list T).

(** *** The eviction loop *)

Lemma evict_Infinity h : evict Infinity h = Some h.
Proof. destruct h; reflexivity. Qed.

Lemma evict_Fin (l : Z) h :
  0 ≤ l → evict (Fin l) h = Some (drop (length h - Z.to_nat l) h).
Proof.
  intros Hl. induction h as [|x h IH].
  - simpl. destruct (Z.ltb_spec l (len (@nil T))) as [Hlt|_];
      [unfold len in Hlt; simpl in Hlt; lia | reflexivity].
  - cbn [evict gt_limit]. rewrite len_cons.
    destruct (Z.ltb_spec l (len h + 1)) as [Hlt|Hge].
    + rewrite IH. f_equal. unfold len in Hlt.
      replace (length (x :: h) - Z.to_nat l)%nat
        with (S (length h - Z.to_nat l)) by (simpl; lia).
      reflexivity.
    + unfold len in Hge.
      replace (length (x :: h) - Z.to_nat l)%nat with 0%nat by (simpl; lia).
      reflexivity.
Qed.

Lemma evict_negative (l : Z) h : l < 0 → evict (Fin l) h = None.
Proof.
  intros Hl. induction h as [|x h IH].
  - simpl. destruct (Z.ltb_spec l (len (@nil T))) as [_|Hge];
      [reflexivity | unfold len in Hge; simpl in Hge; lia].
  - cbn [evict gt_limit]. pose proof (len_nonneg (x :: h)).
    destruct (Z.ltb_spec l (len (x :: h))) as [_|Hge]; [exact IH | lia].
Qed.

Lemma evict_excess L h :
  (match L with Fin l => 0 ≤ l | Infinity => True end) →
  evict L h = Some (drop (excess L (length h)) h).
Proof.
  destruct L as [l|]; intros HL.
  - by apply evict_Fin.
  - by rewrite evict_Infinity.
Qed.

(** *** The current state *)

Lemma valid_state s : valid s → ∃ cur, state s = Some cur.
Proof. intros [_ Hc]. by apply index_inside. Qed.

Lemma same_json_true next s cur :
  state s = Some cur →
  same_json next (state s) = true ↔ JSON_stringify next = JSON_stringify cur.
Proof.
  intros ->. unfold UseHistory.same_json. simpl.
  rewrite bool_decide_eq_true. split; [by intros [= ->] | by intros ->].
Qed.

Lemma same_json_false next s cur :
  state s = Some cur →
  same_json next (state s) = false ↔ JSON_stringify next ≠ JSON_stringify cur.
Proof.
  intros Hs. rewrite <- (same_json_true next s cur Hs).
  destruct (same_json next (state s)); split; congruence.
Qed.

(** *** One commit *)

(** A commit of a state with the same JSON text returns the store itself. *)
Lemma commit_same L s next :
  same_json next (state s) = true → commit L next s = Some s.
Proof.
  intros H. unfold UseHistory.commit, UseHistory.setState. simpl. by rewrite H.
Qed.

(** A commit of a state with another JSON text: the prefix up to the
    cursor, the new state, less what exceeds the limit; the cursor is the
    last index. *)
Lemma commit_distinct L s next :
  (match L with Fin l => 0 ≤ l | Infinity => True end) →
  same_json next (state s) = false →
  let appended := slice0 (history s) (currentIndex s + 1) ++ [next] in
  let kept := drop (excess L (length appended)) appended in
  commit L next s = Some {| history := kept; currentIndex := len kept - 1 |}.
Proof.
  intros HL H. unfold UseHistory.commit, UseHistory.setState. simpl.
  rewrite H. unfold push. by rewrite (evict_excess L _ HL).
Qed.

(** An updater function is applied to the current state and its result is
    committed. *)
Lemma setState_updater L s (f : option T → T) :
  setState L (Updater f) s = commit L (f (state s)) s.
Proof. reflexivity. Qed.


(** *** C1: what a commit does *)

(** C1.  On a store that satisfies the invariant, with a limit [L ≥ 1]:
    a commit of a state whose JSON text differs from that of the current
    state keeps the entries [0..cursor], appends the new state and puts the
    cursor on the last index; when the result is longer than the limit,
    entries are removed from the front until the length is the limit, and
    the cursor moves down by the number removed (never below 0).  A commit
    of a state with the same JSON text returns the store unchanged. *)
Theorem commit_spec L s next cur :
  limit_ok L → valid s → state s = Some cur →
  (JSON_stringify next ≠ JSON_stringify cur →
     ∃ s', commit L next s = Some s' ∧
       let appended :=
         take (Z.to_nat (currentIndex s + 1)) (history s) ++ [next] in
       let evicted := excess L (length appended) in
       history s' = drop evicted appended ∧
       currentIndex s' = Z.max 0 (len appended - 1 - Z.of_nat evicted) ∧
       currentIndex s' = len (history s') - 1 ∧
       match L with
       | Fin l =>
           if l <? len appended then len (history s') = l
           else evicted = 0%nat
       | Infinity => evicted = 0%nat
       end)
  ∧ (JSON_stringify next = JSON_stringify cur → commit L next s = Some s).
Proof.
  intros HL [Hlen Hc] Hcur. split.
  - intros Hne. apply (same_json_false next s cur Hcur) in Hne.
    eexists. split.
    { apply commit_distinct; [destruct L; simpl in *; lia | exact Hne]. }
    cbn zeta. cbn [history currentIndex].
    rewrite slice0_nonneg by lia.
    set (appended := take _ _ ++ [next]).
    assert (Happ : 1 ≤ len appended).
    { unfold appended. rewrite len_app. unfold len at 2. simpl.
      pose proof (len_nonneg (take (Z.to_nat (currentIndex s + 1)) (history s))).
      lia. }
    assert (Hdrop : len (drop (excess L (length appended)) appended)
                    = len appended - Z.of_nat (excess L (length appended))).
    { unfold len. rewrite length_drop.
      assert (excess L (length appended) ≤ length appended)%nat
        by (destruct L; simpl; lia).
      lia. }
    split; [reflexivity |]. rewrite Hdrop. unfold len in *.
    destruct L as [l|]; simpl in *.
    + split; [lia |]. split; [lia |].
      destruct (Z.ltb_spec l (Z.of_nat (length appended))); lia.
    + split; [lia |]. split; [lia | reflexivity].
  - intros Heq. apply commit_same.
    by apply (same_json_true next s cur Hcur).
Qed.

(** *** C2: the invariant is kept *)

Lemma valid_undo s : valid s → valid (undo s).
Proof.
  intros [Hlen Hc]. unfold undo, valid.
  destruct (Z.ltb_spec 0 (currentIndex s)); simpl; lia.
Qed.

Lemma valid_redo s : valid s → valid (redo s).
Proof.
  intros [Hlen Hc]. unfold redo, valid.
  destruct (Z.ltb_spec (currentIndex s) (len (history s) - 1)); simpl; lia.
Qed.

Lemma valid_reset s (seed : T) : valid (reset seed s).
Proof. unfold valid, reset, len. simpl. lia. Qed.

Lemma valid_loadHistory s (seq : option (list T)) (idx : Z) :
  valid s → valid (loadHistory seq idx s).
Proof.
  intros Hv. unfold loadHistory. destruct seq as [h|]; [| exact Hv].
  destruct (Z.ltb_spec 0 (len h)); simpl; [| exact Hv].
  destruct (Z.leb_spec 0 idx); simpl; [| exact Hv].
  destruct (Z.ltb_spec idx (len h)); simpl; [| exact Hv].
  unfold valid. simpl. lia.
Qed.

Lemma valid_commit L s next :
  limit_ok L → valid s → ∃ s', commit L next s = Some s' ∧ valid s'.
Proof.
  intros HL Hv. destruct (same_json next (state s)) eqn:E.
  - exists s. split; [by apply commit_same | exact Hv].
  - eexists. split.
    { apply commit_distinct; [destruct L; simpl in *; lia | exact E]. }
    destruct Hv as [Hlen Hc]. cbn zeta.
    set (appended := slice0 _ _ ++ [next]).
    assert (Happ : (1 ≤ length appended)%nat).
    { unfold appended. rewrite length_app. simpl. lia. }
    unfold valid. cbn [history currentIndex]. unfold len.
    rewrite length_drop.
    assert (excess L (length appended) < length appended)%nat
      by (destruct L; simpl in *; lia).
    lia.
Qed.

Lemma run_valid L s (o : Op T) :
  limit_ok L → valid s →
  ∃ s', run JSON_stringify L o s = Some s' ∧ valid s'.
Proof.
  intros HL Hv. destruct o as [a| | |x|h i]; simpl.
  - destruct a as [v|f].
    + by apply valid_commit.
    + rewrite setState_updater. by apply valid_commit.
  - eexists; split; [reflexivity | by apply valid_undo].
  - eexists; split; [reflexivity | by apply valid_redo].
  - eexists; split; [reflexivity | by apply valid_reset].
  - eexists; split; [reflexivity | by apply valid_loadHistory].
Qed.

(** C2.  With a limit [L ≥ 1], every operation of the store (commit by
    value or by updater, undo, redo, reset, loadHistory) returns, and takes
    a store with [length ≥ 1] and [0 ≤ cursor < length] to a store with
    the same two properties. *)
Theorem operations_preserve_invariant L s :
  limit_ok L → valid s →
  (∀ next, ∃ s', commit L next s = Some s' ∧ valid s') ∧
  (∀ f, ∃ s', setState L (Updater f) s = Some s' ∧ valid s') ∧
  valid (undo s) ∧
  valid (redo s) ∧
  (∀ seed, valid (reset seed s)) ∧
  (∀ seq idx, valid (loadHistory seq idx s)) ∧
  (∀ o : Op T, ∃ s', run JSON_stringify L o s = Some s' ∧ valid s').
Proof.
  intros HL Hv.
  split; [intros next; by apply valid_commit |].
  split; [intros f; rewrite setState_updater; by apply valid_commit |].
  split; [by apply valid_undo |].
  split; [by apply valid_redo |].
  split; [intros seed; apply valid_reset |].
  split; [intros seq idx; by apply valid_loadHistory |].
  intros o. by apply run_valid.
Qed.

(** The same along any sequence of operations. *)
Lemma runs_preserve_invariant L (os : list (Op T)) s :
  limit_ok L → valid s →
  ∃ s', runs JSON_stringify L os s = Some s' ∧ valid s'.
Proof.
  intros HL. revert s. induction os as [|o os IH]; intros s Hv.
  - by exists s.
  - destruct (run_valid L s o HL Hv) as (s1 & H1 & Hv1).
    destruct (IH s1 Hv1) as (s2 & H2 & Hv2).
    exists s2. split; [| exact Hv2]. simpl. rewrite H1. exact H2.
Qed.


(** *** Commits that stay within the limit *)

Lemma len_take_cursor s :
  valid s →
  len (take (Z.to_nat (currentIndex s + 1)) (history s)) = currentIndex s + 1.
Proof.
  intros [Hlen Hc]. unfold len in *. rewrite length_take. lia.
Qed.

Lemma commit_fit L s next :
  limit_ok L → valid s → same_json next (state s) = false →
  fits L (currentIndex s + 2) →
  commit L next s =
    Some {| history := take (Z.to_nat (currentIndex s + 1)) (history s) ++ [next];
            currentIndex := currentIndex s + 1 |}.
Proof.
  intros HL Hv Hne Hfit.
  rewrite commit_distinct; [| destruct L; simpl in *; lia | exact Hne].
  pose proof (len_take_cursor s Hv) as Htake.
  destruct Hv as [Hlen Hc]. rewrite slice0_nonneg by lia.
  set (appended := take _ _ ++ [next]) in *.
  assert (Happ : len appended = currentIndex s + 2).
  { unfold appended. rewrite len_app, Htake. unfold len. simpl. lia. }
  assert (Hex : excess L (length appended) = 0%nat).
  { unfold len in Happ. destruct L; simpl in *; lia. }
  rewrite Hex, drop_0, Happ. do 2 f_equal. lia.
Qed.

Lemma state_after_commit (h : list T) next :
  state {| history := h ++ [next]; currentIndex := len h |} = Some next.
Proof. unfold state. simpl. apply index_last. Qed.

Lemma commits_at_end L (nexts : list T) s cur :
  limit_ok L → valid s → state s = Some cur →
  currentIndex s = len (history s) - 1 →
  distinct_from JSON_stringify (Some (JSON_stringify cur)) nexts →
  fits L (len (history s) + len nexts) →
  commits JSON_stringify L nexts s =
    Some {| history := history s ++ nexts;
            currentIndex := currentIndex s + len nexts |}.
Proof.
  intros HL. revert s cur.
  induction nexts as [|x rest IH]; intros s cur Hv Hcur Hend Hd Hfit.
  - simpl. rewrite app_nil_r. unfold len. simpl. rewrite Z.add_0_r.
    by destruct s.
  - destruct Hd as [Hx Hrest]. rewrite len_cons in Hfit.
    pose proof (len_nonneg rest) as Hr.
    assert (Hne : same_json x (state s) = false).
    { apply (same_json_false x s cur Hcur). congruence. }
    assert (Hfit1 : fits L (currentIndex s + 2))
      by (destruct L; simpl in *; lia).
    cbn [commits]. rewrite (commit_fit L s x HL Hv Hne Hfit1). simpl.
    assert (Htake : take (Z.to_nat (currentIndex s + 1)) (history s) = history s).
    { apply take_ge. destruct Hv as [? ?]. unfold len in *. lia. }
    rewrite Htake.
    assert (Hidx : currentIndex s + 1 = len (history s)) by lia.
    rewrite Hidx.
    rewrite (IH {| history := history s ++ [x]; currentIndex := len (history s) |} x).
    + simpl. rewrite <- app_assoc. simpl. do 2 f_equal. rewrite len_cons. lia.
    + unfold valid. simpl. rewrite len_app. unfold len. simpl. lia.
    + apply state_after_commit.
    + simpl. rewrite len_app. unfold len. simpl. lia.
    + exact Hrest.
    + simpl. rewrite len_app. unfold len in *. simpl.
      destruct L; simpl in *; lia.
Qed.

Lemma commits_fit L (nexts : list T) s cur :
  limit_ok L → valid s → state s = Some cur → nexts ≠ [] →
  distinct_from JSON_stringify (Some (JSON_stringify cur)) nexts →
  fits L (currentIndex s + 1 + len nexts) →
  commits JSON_stringify L nexts s =
    Some {| history := take (Z.to_nat (currentIndex s + 1)) (history s) ++ nexts;
            currentIndex := currentIndex s + len nexts |}.
Proof.
  intros HL Hv Hcur Hnil Hd Hfit. destruct nexts as [|x rest]; [done |].
  destruct Hd as [Hx Hrest]. rewrite len_cons in Hfit.
  pose proof (len_nonneg rest) as Hr.
  pose proof (len_take_cursor s Hv) as Htake.
  assert (Hne : same_json x (state s) = false).
  { apply (same_json_false x s cur Hcur). congruence. }
  assert (Hfit1 : fits L (currentIndex s + 2)) by (destruct L; simpl in *; lia).
  cbn [commits]. rewrite (commit_fit L s x HL Hv Hne Hfit1). simpl.
  set (pre := take (Z.to_nat (currentIndex s + 1)) (history s)) in *.
  rewrite <- Htake.
  rewrite (commits_at_end L rest
             {| history := pre ++ [x]; currentIndex := len pre |} x).
  - simpl. rewrite <- app_assoc. simpl. do 2 f_equal. rewrite len_cons. lia.
  - exact HL.
  - unfold valid, len. simpl. rewrite length_app. simpl. lia.
  - apply state_after_commit.
  - simpl. rewrite len_app. unfold len. simpl. lia.
  - exact Hrest.
  - simpl. unfold len in *. rewrite length_app.
    destruct L; simpl in *; lia.
Qed.

(** *** Undo and redo *)

Lemma undo_history s : history (undo s) = history s.
Proof. unfold undo. by destruct (0 <? currentIndex s). Qed.

Lemma redo_history s : history (redo s) = history s.
Proof. unfold redo. by destruct (currentIndex s <? len (history s) - 1). Qed.

Lemma undo_n_history (n : nat) s : history (undo_n n s) = history s.
Proof.
  induction n as [|n IH]; [reflexivity |].
  unfold undo_n in *. simpl. by rewrite undo_history.
Qed.

Lemma undo_n_exact (n : nat) (h : list T) (c : Z) :
  0 ≤ c →
  undo_n n {| history := h; currentIndex := c + Z.of_nat n |}
  = {| history := h; currentIndex := c |}.
Proof.
  intros Hc. induction n as [|n IH].
  - simpl. by rewrite Z.add_0_r.
  - unfold undo_n in *. rewrite Nat.iter_succ_r. unfold undo at 2. simpl.
    destruct (Z.ltb_spec 0 (c + Z.of_nat (S n))) as [_|Hle]; [| lia].
    replace (c + Z.of_nat (S n) - 1) with (c + Z.of_nat n) by lia.
    exact IH.
Qed.

(** After commits that stay within the limit, as many calls of [undo]
    give back the cursor and the current state. *)
Lemma undo_n_commits L (nexts : list T) s cur :
  limit_ok L → valid s → state s = Some cur →
  distinct_from JSON_stringify (Some (JSON_stringify cur)) nexts →
  fits L (currentIndex s + 1 + len nexts) →
  ∃ s', commits JSON_stringify L nexts s = Some s' ∧
        currentIndex (undo_n (length nexts) s') = currentIndex s ∧
        state (undo_n (length nexts) s') = Some cur.
Proof.
  intros HL Hv Hcur Hd Hfit. destruct nexts as [|x rest].
  - exists s. simpl. by repeat split.
  - eexists. split.
    { apply (commits_fit L (x :: rest) s cur); try done. }
    unfold len. rewrite undo_n_exact by (destruct Hv; lia).
    split; [reflexivity |]. unfold state in *. simpl.
    rewrite index_app_l by (rewrite len_take_cursor by done; lia).
    rewrite index_take by (destruct Hv; lia). exact Hcur.
Qed.


(** Commits at the end of the sequence, with eviction: as long as the
    entries of [tail] and the committed ones together are within the
    limit, the eviction loop takes from [pre] only, and takes what exceeds
    the limit. *)
Lemma commits_tail L (rest : list T) :
  ∀ s (pre tail : list T) (last : T),
    history s = pre ++ tail ++ [last] →
    currentIndex s = len (history s) - 1 →
    distinct_from JSON_stringify (Some (JSON_stringify last)) rest →
    fits L (len pre + len tail + 1) →
    fits L (len tail + 1 + len rest) →
    let j := excess L (length pre + length tail + 1 + length rest) in
    (j ≤ length pre)%nat ∧
    commits JSON_stringify L rest s =
      Some {| history := drop j pre ++ tail ++ [last] ++ rest;
              currentIndex :=
                len (drop j pre ++ tail ++ [last] ++ rest) - 1 |}.
Proof.
  induction rest as [|x rest IH]; intros s pre tail last Hh Hend Hd Hin Hfit.
  - cbn zeta. unfold len in Hfit, Hin. simpl in Hfit.
    assert (Hj : excess L (length pre + length tail + 1 + 0) = 0%nat)
      by (destruct L; simpl in *; lia).
    simpl length. rewrite Hj. split; [lia |]. simpl.
    rewrite drop_0. destruct s as [h c]. simpl in *. by subst.
  - destruct Hd as [Hx Hrest]. cbn zeta.
    pose proof (len_nonneg rest) as Hr. pose proof (len_nonneg tail) as Ht.
    rewrite len_cons in Hfit.
    assert (Hst : state s = Some last).
    { unfold state. rewrite Hend, Hh. rewrite app_assoc.
      replace (len ((pre ++ tail) ++ [last]) - 1) with (len (pre ++ tail))
        by (rewrite (len_app (pre ++ tail)); change (len [last]) with 1; lia).
      apply index_last. }
    assert (Hne : same_json x (state s) = false).
    { apply (same_json_false x s last Hst). congruence. }
    cbn [commits].
    rewrite (commit_distinct L s x); [| destruct L; simpl in *; lia | exact Hne].
    cbn zeta. simpl.
    assert (Hslice : slice0 (history s) (currentIndex s + 1) = history s).
    { pose proof (len_nonneg (history s)).
      rewrite slice0_nonneg by lia. apply take_ge. unfold len in *. lia. }
    rewrite Hslice, Hh.
    set (e := excess L (length ((pre ++ tail ++ [last]) ++ [x]))).
    assert (He : (e ≤ length pre)%nat).
    { unfold e. rewrite !length_app. simpl. unfold len in *.
      destruct L; simpl in *; lia. }
    assert (Hkept : drop e ((pre ++ tail ++ [last]) ++ [x])
                    = drop e pre ++ (tail ++ [last]) ++ [x]).
    { rewrite <- !app_assoc. by rewrite drop_app_le by lia. }
    rewrite Hkept.
    destruct (IH {| history := drop e pre ++ (tail ++ [last]) ++ [x];
                    currentIndex :=
                      len (drop e pre ++ (tail ++ [last]) ++ [x]) - 1 |}
                 (drop e pre) (tail ++ [last]) x) as [Hj Hc].
    + reflexivity.
    + reflexivity.
    + exact Hrest.
    + rewrite len_app. unfold len in *. rewrite length_drop. simpl.
      unfold e. rewrite !length_app. simpl. destruct L; simpl in *; lia.
    + rewrite len_app. unfold len in *. simpl. destruct L; simpl in *; lia.
    + cbn zeta in Hj, Hc. rewrite Hc.
      rewrite length_drop, length_app in *. simpl in *.
      set (j2 := excess L (length pre - e + (length tail + 1) + 1 + length rest)) in *.
      assert (Hsum : excess L (length pre + length tail + 1 + S (length rest))
                     = (e + j2)%nat).
      { unfold j2, e. rewrite !length_app. simpl. unfold len in *.
        destruct L; simpl in *; lia. }
      rewrite Hsum. split; [lia |].
      rewrite drop_drop, <- !app_assoc. simpl. done.
Qed.

Lemma index_middle {A} (a b : list A) (x : A) :
  index (a ++ x :: b) (len a) = Some x.
Proof.
  unfold index, len.
  destruct (Z.ltb_spec (Z.of_nat (length a)) 0) as [Hlt|_]; [lia |].
  rewrite Nat2Z.id. apply list_lookup_middle. reflexivity.
Qed.

Lemma take_cursor s cur :
  valid s → state s = Some cur →
  take (Z.to_nat (currentIndex s + 1)) (history s)
    = take (Z.to_nat (currentIndex s)) (history s) ++ [cur].
Proof.
  intros [_ Hc] Hcur. unfold state, index in Hcur.
  destruct (Z.ltb_spec (currentIndex s) 0); [lia |].
  replace (Z.to_nat (currentIndex s + 1)) with (S (Z.to_nat (currentIndex s)))
    by lia.
  by apply take_S_r.
Qed.

(** After [N] commits of distinct states, where [N] is below the limit,
    the store ends with the state that was current before them and the
    committed states, in front of them what is left of the entries up to
    the old cursor, and the cursor is at the end. *)
Lemma commits_below L (nexts : list T) s cur :
  valid s → state s = Some cur → nexts ≠ [] →
  distinct_from JSON_stringify (Some (JSON_stringify cur)) nexts →
  below L (len nexts) →
  let j := excess L (Z.to_nat (currentIndex s) + 1 + length nexts) in
  let kept := drop j (take (Z.to_nat (currentIndex s)) (history s)) in
  (j ≤ Z.to_nat (currentIndex s))%nat ∧
  commits JSON_stringify L nexts s =
    Some {| history := kept ++ [cur] ++ nexts;
            currentIndex := len kept + len nexts |}.
Proof.
  intros Hv Hcur Hnil Hd Hlow. destruct nexts as [|x rest]; [done |].
  destruct Hd as [Hx Hrest]. cbn zeta.
  pose proof (len_nonneg rest) as Hr. rewrite len_cons in Hlow.
  assert (Hne : same_json x (state s) = false).
  { apply (same_json_false x s cur Hcur). congruence. }
  pose proof (take_cursor s cur Hv Hcur) as Htake.
  destruct Hv as [Hlen Hc].
  set (pre := take (Z.to_nat (currentIndex s)) (history s)) in *.
  assert (Hpre : length pre = Z.to_nat (currentIndex s))
    by (unfold pre; rewrite length_take; unfold len in *; lia).
  cbn [commits].
  rewrite (commit_distinct L s x); [| destruct L; simpl in *; lia | exact Hne].
  cbn zeta. simpl. rewrite slice0_nonneg by lia. rewrite Htake.
  set (e := excess L (length ((pre ++ [cur]) ++ [x]))).
  assert (He : (e ≤ length pre)%nat).
  { unfold e. rewrite !length_app. simpl. unfold len in *.
    destruct L; simpl in *; lia. }
  assert (Hkept : drop e ((pre ++ [cur]) ++ [x]) = drop e pre ++ [cur] ++ [x]).
  { rewrite <- !app_assoc. by rewrite drop_app_le by lia. }
  rewrite Hkept.
  destruct (commits_tail L rest
              {| history := drop e pre ++ [cur] ++ [x];
                 currentIndex := len (drop e pre ++ [cur] ++ [x]) - 1 |}
              (drop e pre) [cur] x) as [Hj Hcommits].
  - reflexivity.
  - reflexivity.
  - exact Hrest.
  - unfold len in *. rewrite length_drop. simpl.
    unfold e. rewrite !length_app. simpl. destruct L; simpl in *; lia.
  - unfold len in *. simpl. destruct L; simpl in *; lia.
  - cbn zeta in Hj, Hcommits. rewrite Hcommits.
    rewrite length_drop in *. simpl in *.
    set (j2 := excess L (length pre - e + 1 + 1 + length rest)) in *.
    assert (Hsum : excess L (Z.to_nat (currentIndex s) + 1 + S (length rest))
                   = (e + j2)%nat).
    { unfold j2, e. rewrite !length_app. simpl. unfold len in *.
      destruct L; simpl in *; lia. }
    rewrite Hsum. split; [lia |]. rewrite drop_drop.
    f_equal. f_equal. rewrite !len_app, !len_cons. unfold len. simpl. lia.
Qed.

(** C3 (amended).  [undo] moves the cursor down by one when it is above 0
    and otherwise returns the store as it is; [redo] moves it up by one
    when it is below the last index and otherwise returns the store as it
    is; neither changes the sequence.  After [N] commits of distinct
    states with [N] below the limit, also when they evict entries at the
    front, [N] calls of [undo] give back the state that was current before
    the commits; the cursor is then the old one less the number of entries
    that the commits evicted, that is the old one when they stay within the
    limit.
    A commit of a distinct state then keeps entries up to the cursor only:
    the [N] committed entries are gone, and the new state is the last
    entry. *)
Theorem undo_redo_spec L s :
  (0 < currentIndex s →
     undo s = {| history := history s; currentIndex := currentIndex s - 1 |}) ∧
  (currentIndex s ≤ 0 → undo s = s) ∧
  (currentIndex s < len (history s) - 1 →
     redo s = {| history := history s; currentIndex := currentIndex s + 1 |}) ∧
  (len (history s) - 1 ≤ currentIndex s → redo s = s) ∧
  history (undo s) = history s ∧
  history (redo s) = history s ∧
  (∀ (nexts : list T) cur,
     valid s → state s = Some cur →
     distinct_from JSON_stringify (Some (JSON_stringify cur)) nexts →
     below L (len nexts) →
     ∃ s', commits JSON_stringify L nexts s = Some s' ∧
       let u := undo_n (length nexts) s' in
       state u = Some cur ∧
       (nexts ≠ [] →
        currentIndex u =
          currentIndex s
          - Z.of_nat (excess L (Z.to_nat (currentIndex s) + 1 + length nexts))) ∧
       (fits L (currentIndex s + 1 + len nexts) →
        currentIndex u = currentIndex s) ∧
       ∀ next, JSON_stringify next ≠ JSON_stringify cur →
         ∃ s'' k, commit L next u = Some s'' ∧
           (k ≤ Z.to_nat (currentIndex s + 1))%nat ∧
           history s'' =
             drop k (take (Z.to_nat (currentIndex s + 1)) (history s) ++ [next])).
Proof.
  split; [| split; [| split; [| split; [| split; [| split]]]]].
  - intros H. unfold undo. destruct (Z.ltb_spec 0 (currentIndex s)); [done | lia].
  - intros H. unfold undo. destruct (Z.ltb_spec 0 (currentIndex s)); [lia | done].
  - intros H. unfold redo.
    destruct (Z.ltb_spec (currentIndex s) (len (history s) - 1)); [done | lia].
  - intros H. unfold redo.
    destruct (Z.ltb_spec (currentIndex s) (len (history s) - 1)); [lia | done].
  - apply undo_history.
  - apply redo_history.
  - intros nexts cur Hv Hcur Hd Hlow.
    assert (HL : limit_ok L).
    { pose proof (len_nonneg nexts). destruct L; simpl in *; lia. }
    pose proof (take_cursor s cur Hv Hcur) as Htake.
    assert (Hcommit : ∀ (u : Store) (k0 : nat) next,
      (k0 ≤ Z.to_nat (currentIndex s))%nat →
      slice0 (history u) (currentIndex u + 1)
        = drop k0 (take (Z.to_nat (currentIndex s)) (history s)) ++ [cur] →
      state u = Some cur →
      JSON_stringify next ≠ JSON_stringify cur →
      ∃ s'' k, commit L next u = Some s'' ∧
        (k ≤ Z.to_nat (currentIndex s + 1))%nat ∧
        history s'' =
          drop k (take (Z.to_nat (currentIndex s + 1)) (history s) ++ [next])).
    { intros u k0 next Hk0 Hslice Hst Hne.
      assert (Hu : same_json next (state u) = false)
        by (by apply (same_json_false next u cur Hst)).
      destruct Hv as [Hlen Hc].
      set (pre := take (Z.to_nat (currentIndex s)) (history s)) in *.
      assert (Hpre : length pre = Z.to_nat (currentIndex s))
        by (unfold pre; rewrite length_take; unfold len in *; lia).
      eexists _, (k0 + excess L (length ((drop k0 pre ++ [cur]) ++ [next])))%nat.
      split.
      { apply commit_distinct; [destruct L; simpl in *; lia | exact Hu]. }
      cbn [history]. rewrite Hslice, Htake. split.
      - rewrite !length_app, length_drop. simpl.
        destruct L; simpl in *; lia.
      - rewrite <- drop_drop. f_equal. rewrite <- !app_assoc.
        by rewrite drop_app_le by lia. }
    destruct nexts as [|x rest].
    + exists s. split; [reflexivity |]. cbn zeta. simpl.
      split; [exact Hcur |]. split; [done |]. split; [done |].
      intros next Hne. apply (Hcommit s 0%nat next); [lia | | exact Hcur | exact Hne].
      destruct Hv as [Hlen Hc]. rewrite slice0_nonneg by lia.
      by rewrite drop_0.
    + destruct (commits_below L (x :: rest) s cur Hv Hcur) as [Hj Hs'];
        [done | exact Hd | exact Hlow |].
      cbn zeta in Hj, Hs'.
      set (j := excess L (Z.to_nat (currentIndex s) + 1 + length (x :: rest))) in *.
      set (kept := drop j (take (Z.to_nat (currentIndex s)) (history s))) in *.
      eexists. split; [exact Hs' |]. cbn zeta.
      assert (Hu : undo_n (length (x :: rest))
                     {| history := kept ++ [cur] ++ x :: rest;
                        currentIndex := len kept + len (x :: rest) |}
                   = {| history := kept ++ [cur] ++ x :: rest;
                        currentIndex := len kept |}).
      { unfold len at 2. apply undo_n_exact, len_nonneg. }
      rewrite Hu.
      assert (Hkept : len kept = currentIndex s - Z.of_nat j).
      { unfold kept, len. rewrite length_drop, length_take.
        destruct Hv as [Hlen Hc]. unfold len in *. lia. }
      split; [unfold state; simpl; apply index_middle |].
      split; [intros _; exact Hkept |]. split.
      { intros Hfit. simpl. rewrite Hkept.
        assert (Hj0 : j = 0%nat).
        { unfold j. rewrite len_cons in Hfit. unfold len in Hfit.
          destruct Hv as [Hlen Hc]. simpl.
          destruct L; simpl in *; lia. }
        lia. }
      intros next Hne.
      apply (Hcommit _ j next); [exact Hj | | unfold state; simpl; apply index_middle | exact Hne].
      cbn [history currentIndex]. pose proof (len_nonneg kept).
      rewrite slice0_nonneg by lia.
      replace (Z.to_nat (len kept + 1)) with (length (kept ++ [cur]))
        by (rewrite length_app; unfold len; simpl; lia).
      change (kept ++ [cur] ++ x :: rest) with (kept ++ [cur] ++ (x :: rest)).
      rewrite app_assoc. by rewrite take_app_length.
Qed.

(** *** C4: [loadHistory] *)

(** C4.  [loadHistory(seq, idx)] with [seq] missing or empty, or [idx]
    outside [[0, len(seq))], returns the store as it is: same sequence,
    same cursor, and no failure (the function is total).  With a non-empty
    [seq] and [0 ≤ idx < len(seq)] the store becomes exactly
    [(seq, idx)]. *)
Theorem loadHistory_spec s (seq : option (list T)) (idx : Z) :
  (match seq with
   | None => True
   | Some h => h = [] ∨ idx < 0 ∨ len h ≤ idx
   end → loadHistory seq idx s = s) ∧
  (∀ h, seq = Some h → h ≠ [] → 0 ≤ idx < len h →
     loadHistory seq idx s = {| history := h; currentIndex := idx |}).
Proof.
  split.
  - destruct seq as [h|]; [| reflexivity]. intros Hbad. unfold loadHistory.
    destruct (Z.ltb_spec 0 (len h)) as [Hpos|Hempty]; simpl; [| reflexivity].
    destruct (Z.leb_spec 0 idx); simpl; [| reflexivity].
    destruct (Z.ltb_spec idx (len h)); simpl; [| reflexivity].
    destruct Hbad as [-> | [? | ?]]; [| lia | lia].
    unfold len in Hpos. simpl in Hpos. lia.
  - intros h -> Hne [H0 H1]. unfold loadHistory.
    destruct (Z.ltb_spec 0 (len h)) as [_|Hempty]; simpl.
    + destruct (Z.leb_spec 0 idx); simpl; [| lia].
      destruct (Z.ltb_spec idx (len h)); simpl; [reflexivity | lia].
    + lia.
Qed.

(** *** C10: the default limit *)

(** C10 (amended).  Without a limit option the limit is [Infinity].  Then
    no commit removes an entry from the front: a commit of a state whose
    JSON text differs from the current one yields the entries [0..cursor]
    followed by the new state, of length [cursor + 2]; that is one more
    than before exactly when the cursor was on the last entry, and a run of
    [N] such commits from there makes the sequence [N] longer, for every
    [N]. *)
Theorem default_limit_spec s next cur :
  resolve_limit None = Infinity ∧
  resolve_limit (Some {| opt_limit := None |}) = Infinity ∧
  (valid s → state s = Some cur →
   JSON_stringify next ≠ JSON_stringify cur →
   ∃ s', commit (resolve_limit None) next s = Some s' ∧
     history s' = take (Z.to_nat (currentIndex s + 1)) (history s) ++ [next] ∧
     currentIndex s' = currentIndex s + 1 ∧
     len (history s') = currentIndex s + 2 ∧
     (currentIndex s = len (history s) - 1 →
        history s' = history s ++ [next] ∧
        len (history s') = len (history s) + 1)) ∧
  (∀ nexts : list T,
     valid s → state s = Some cur →
     currentIndex s = len (history s) - 1 →
     distinct_from JSON_stringify (Some (JSON_stringify cur)) nexts →
     ∃ s', commits JSON_stringify (resolve_limit None) nexts s = Some s' ∧
       history s' = history s ++ nexts ∧
       len (history s') = len (history s) + len nexts).
Proof.
  split; [reflexivity |]. split; [reflexivity |]. split.
  - intros Hv Hcur Hne. simpl.
    apply (same_json_false next s cur Hcur) in Hne.
    eexists. split; [by apply (commit_fit Infinity s next) |].
    cbn [history currentIndex]. pose proof (len_take_cursor s Hv) as Htake.
    split; [reflexivity |]. split; [reflexivity |].
    split; [rewrite len_app, Htake; unfold len; simpl; lia |].
    intros Hend.
    assert (Hall : take (Z.to_nat (currentIndex s + 1)) (history s) = history s).
    { apply take_ge. destruct Hv as [? ?]. unfold len in *. lia. }
    rewrite Hall. split; [reflexivity |].
    rewrite len_app. unfold len. simpl. lia.
  - intros nexts Hv Hcur Hend Hd. simpl.
    eexists. split; [by apply (commits_at_end Infinity nexts s cur) |].
    simpl. split; [reflexivity | apply len_app].
Qed.

End facts.
End HistoryFacts.

(** ** The history store on strings *)

(** The store instantiated at snapshots that are plain strings, whose JSON
    text is the quoted string. *)
Module HistoryExamples.
Import JsArray UseHistory HistoryFacts Samples.

Local Abbreviation commit := (commit Json.quote).
Local Abbreviation commits := (commits Json.quote).
Local Abbreviation runs := (runs Json.quote).

Example quote_plain :
  Json.quote "Sepia"
  = String Json.dquote ("Sepia" +:+ String Json.dquote EmptyString).
Proof. reflexivity. Qed.

Example quote_escapes :
  Json.quote (String (ascii_of_nat 10) (String Json.dquote "\"))
  = String Json.dquote ("\n\" +:+ String Json.dquote ("\\" +:+ String Json.dquote EmptyString)).
Proof. reflexivity. Qed.

(** The scenario of the specification: limit 3, states A to D, one undo,
    then E. *)
Example scenario_limit_3 :
  runs (Fin 3)
    [OpSetState (Value "B"); OpSetState (Value "C"); OpSetState (Value "D")]
    (init "A")
  = Some {| history := ["B"; "C"; "D"]; currentIndex := 2 |}
  ∧ undo {| history := ["B"; "C"; "D"]; currentIndex := 2 |}
    = {| history := ["B"; "C"; "D"]; currentIndex := 1 |}
  ∧ commit (Fin 3) "E" {| history := ["B"; "C"; "D"]; currentIndex := 1 |}
    = Some {| history := ["B"; "C"; "E"]; currentIndex := 2 |}.
Proof. repeat split. Qed.

(** A limit of 0 empties the store and leaves the cursor at -1; a negative
    limit makes the eviction loop run forever. *)
Example limit_0 :
  commit (Fin 0) "B" (init "A") = Some {| history := []; currentIndex := -1 |}.
Proof. reflexivity. Qed.

Example limit_negative : commit (Fin (-1)) "B" (init "A") = None.
Proof. reflexivity. Qed.

Lemma valid_full : valid full.
Proof. unfold valid, full, len. simpl. lia. Qed.

Lemma valid_rewound : valid rewound.
Proof. unfold valid, rewound, len. simpl. lia. Qed.

Lemma valid_init (x : string) : valid (init x).
Proof. unfold valid, init, len. simpl. lia. Qed.

(** Witness of C1: a commit on a full store of limit 3 evicts the oldest
    entry. *)
Lemma commit_spec_witness :
  limit_ok (Fin 3) ∧ valid full ∧ state full = Some "C" ∧
  Json.quote "D" ≠ Json.quote "C" ∧
  ∃ s', commit (Fin 3) "D" full = Some s' ∧
        history s' = ["B"; "C"; "D"] ∧ currentIndex s' = 2.
Proof.
  assert (HL : limit_ok (Fin 3)) by (simpl; lia).
  assert (Hne : Json.quote "D" ≠ Json.quote "C") by (vm_compute; discriminate).
  split; [exact HL |]. split; [exact valid_full |].
  split; [reflexivity |]. split; [exact Hne |].
  destruct (commit_spec Json.quote (Fin 3) full "D" "C" HL valid_full eq_refl)
    as [Hdistinct _].
  destruct (Hdistinct Hne) as (s' & Hs' & Hh & Hc & _).
  exists s'. split; [exact Hs' |]. split; [exact Hh | exact Hc].
Defined.

(** Witness of C2. *)
Lemma operations_preserve_invariant_witness :
  limit_ok (Fin 3) ∧ valid full ∧
  (∃ s', commit (Fin 3) "D" full = Some s' ∧ valid s') ∧
  valid (undo full) ∧ valid (redo full) ∧
  valid (reset "Z" full) ∧ valid (loadHistory (Some []) 0 full).
Proof.
  assert (HL : limit_ok (Fin 3)) by (simpl; lia).
  destruct (operations_preserve_invariant Json.quote (Fin 3) full HL valid_full)
    as (Hcommit & _ & Hundo & Hredo & Hreset & Hload & _).
  split; [exact HL |]. split; [exact valid_full |].
  split; [exact (Hcommit "D") |]. split; [exact Hundo |].
  split; [exact Hredo |]. split; [exact (Hreset "Z") | exact (Hload (Some []) 0)].
Defined.

(** Counterexample to C3 as stated: with limit 3, three distinct commits
    on a fresh store ([N = 3 ≤ limit]) evict the initial state, and three
    calls of [undo] stop at the oldest entry left, which is not the state
    held three commits ago. *)
Lemma undo_n_upto_limit_counterexample :
  limit_ok (Fin 3) ∧ valid (init "A") ∧
  distinct_from Json.quote (Some (Json.quote "A")) ["B"; "C"; "D"] ∧
  len ["B"; "C"; "D"] ≤ 3 ∧
  commits (Fin 3) ["B"; "C"; "D"] (init "A")
    = Some {| history := ["B"; "C"; "D"]; currentIndex := 2 |} ∧
  state (undo_n 3 {| history := ["B"; "C"; "D"]; currentIndex := 2 |})
    = Some "B" ∧
  state (undo_n 3 {| history := ["B"; "C"; "D"]; currentIndex := 2 |})
    ≠ state (init "A").
Proof.
  split; [simpl; lia |]. split; [apply valid_init |].
  split; [vm_compute; repeat split; discriminate |].
  split; [unfold len; simpl; lia |].
  split; [reflexivity |]. split; [reflexivity |].
  vm_compute. discriminate.
Qed.

(** Witness of C3 (amended): on the full store [A, B, C] of limit 3 the
    two commits of D and E evict A and B, and two undos give C, the state
    held two commits ago. *)
Lemma undo_redo_spec_witness :
  valid full ∧ state full = Some "C" ∧
  distinct_from Json.quote (Some (Json.quote "C")) ["D"; "E"] ∧
  below (Fin 3) (len ["D"; "E"]) ∧
  commits (Fin 3) ["D"; "E"] full
    = Some {| history := ["C"; "D"; "E"]; currentIndex := 2 |} ∧
  ∃ s', commits (Fin 3) ["D"; "E"] full = Some s' ∧
        state (undo_n 2 s') = Some "C".
Proof.
  assert (Hd : distinct_from Json.quote (Some (Json.quote "C")) ["D"; "E"])
    by (vm_compute; repeat split; discriminate).
  assert (Hlow : below (Fin 3) (len ["D"; "E"]))
    by (unfold len; simpl; lia).
  split; [exact valid_full |]. split; [reflexivity |].
  split; [exact Hd |]. split; [exact Hlow |]. split; [reflexivity |].
  destruct (undo_redo_spec Json.quote (Fin 3) full)
    as (_ & _ & _ & _ & _ & _ & Hn).
  destruct (Hn ["D"; "E"] "C" valid_full eq_refl Hd Hlow)
    as (s' & Hs' & Hst & _).
  exists s'. split; [exact Hs' | exact Hst].
Defined.

(** Witness of C4: an index outside the sequence is rejected, an index
    inside it is accepted. *)
Lemma loadHistory_spec_witness :
  loadHistory (Some ["X"; "Y"]) 2 full = full ∧
  loadHistory (Some ["X"; "Y"]) 1 full
    = {| history := ["X"; "Y"]; currentIndex := 1 |}.
Proof.
  split.
  - destruct (loadHistory_spec full (Some ["X"; "Y"]) 2) as [Hrej _].
    apply Hrej. simpl. right. right. unfold len. simpl. lia.
  - destruct (loadHistory_spec full (Some ["X"; "Y"]) 1) as [_ Hacc].
    apply Hacc; [reflexivity | discriminate | unfold len; simpl; lia].
Defined.

(** Counterexample to C10 as stated: with the default limit, a commit made
    after two undos drops the redo branch, and the sequence gets shorter
    instead of one longer. *)
Lemma default_limit_commit_counterexample :
  runs (resolve_limit None)
    [OpSetState (Value "B"); OpSetState (Value "C"); OpUndo; OpUndo]
    (init "A") = Some rewound ∧
  valid rewound ∧ state rewound = Some "A" ∧
  Json.quote "D" ≠ Json.quote "A" ∧
  commit (resolve_limit None) "D" rewound
    = Some {| history := ["A"; "D"]; currentIndex := 1 |} ∧
  len ["A"; "D"] ≠ len (history rewound) + 1 ∧
  len ["A"; "D"] < len (history rewound).
Proof.
  split; [reflexivity |]. split; [exact valid_rewound |].
  split; [reflexivity |]. split; [vm_compute; discriminate |].
  split; [reflexivity |]. unfold len. simpl. lia.
Qed.

(** Witness of C10 (amended). *)
Lemma default_limit_spec_witness :
  valid full ∧ state full = Some "C" ∧ Json.quote "D" ≠ Json.quote "C" ∧
  ∃ s', commit (resolve_limit None) "D" full = Some s' ∧
        history s' = ["A"; "B"; "C"; "D"] ∧ currentIndex s' = 3.
Proof.
  assert (Hne : Json.quote "D" ≠ Json.quote "C") by (vm_compute; discriminate).
  split; [exact valid_full |]. split; [reflexivity |]. split; [exact Hne |].
  destruct (default_limit_spec Json.quote full "D" "C") as (_ & _ & Hc & _).
  destruct (Hc valid_full eq_refl Hne) as (s' & Hs' & Hh & Hi & _).
  exists s'. split; [exact Hs' |]. split; [exact Hh | exact Hi].
Defined.

End HistoryExamples.

(** ** The data URL codec round-trips *)

Module DataUrlFacts.
Import Browser DataUrl.

Local Open Scope N_scope.

(** *** Digits *)

Lemma below_64 (P : N → Prop) :
  Forall P (N.of_nat <$> seq 0 64) → ∀ n, n < 64 → P n.
Proof.
  intros HP n Hn. rewrite Forall_forall in HP. apply HP.
  apply list_elem_of_fmap. exists (N.to_nat n).
  split; [by rewrite N2Nat.id |].
  apply list_elem_of_In, in_seq. lia.
Qed.

Lemma value_digit (n : N) : n < 64 → value (digit n) = Some n.
Proof.
  revert n. apply below_64. vm_compute. repeat constructor.
Qed.

Lemma digit_not_pad (n : N) : n < 64 → Ascii.eqb (digit n) pad = false.
Proof.
  revert n. apply below_64. vm_compute. repeat constructor.
Qed.

(** *** Groups of three bytes *)

Lemma to_N_lt (b : byte) : Byte.to_N b < 256.
Proof. pose proof (Byte.to_N_bounded b). lia. Qed.

Ltac euclid := zify; Z.to_euclidean_division_equations; lia.

Lemma bytes_of_group (a b c : byte) (count : nat) :
  bytes_of (Byte.to_N a * 65536 + Byte.to_N b * 256 + Byte.to_N c) count
  = Some (take count [a; b; c]).
Proof.
  pose proof (to_N_lt a) as Ha. pose proof (to_N_lt b) as Hb.
  pose proof (to_N_lt c) as Hc.
  unfold bytes_of.
  set (n := Byte.to_N a * 65536 + Byte.to_N b * 256 + Byte.to_N c).
  assert (H1 : n / 65536 = Byte.to_N a) by (unfold n; euclid).
  assert (H2 : n / 256 mod 256 = Byte.to_N b) by (unfold n; euclid).
  assert (H3 : n mod 256 = Byte.to_N c) by (unfold n; euclid).
  rewrite H1, H2, H3, !Byte.of_to_N. reflexivity.
Qed.


(** The digits of a group give the group back. *)
Lemma digits_group (n : N) :
  n < 16777216 →
  n / 262144 < 64 ∧ n / 4096 mod 64 < 64 ∧ n / 64 mod 64 < 64 ∧ n mod 64 < 64 ∧
  n / 262144 * 262144 + n / 4096 mod 64 * 4096 + n / 64 mod 64 * 64 + n mod 64
  = n.
Proof. intros Hn. repeat split; euclid. Qed.

Lemma group_lt (a b c : byte) :
  Byte.to_N a * 65536 + Byte.to_N b * 256 + Byte.to_N c < 16777216.
Proof.
  pose proof (to_N_lt a). pose proof (to_N_lt b). pose proof (to_N_lt c). lia.
Qed.

(** *** Encoding, then decoding *)

Lemma list_ind3 {A} (P : list A → Prop) :
  P [] → (∀ a, P [a]) → (∀ a b, P [a; b]) →
  (∀ a b c l, P l → P (a :: b :: c :: l)) →
  ∀ l, P l.
Proof.
  intros H0 H1 H2 H3. fix IH 1.
  intros [|a [|b [|c l]]]; [exact H0 | apply H1 | apply H2 | apply H3, IH].
Qed.

Lemma decode_group (c1 c2 c3 c4 : ascii) (rest : string) :
  base64_decode (String c1 (String c2 (String c3 (String c4 rest)))) =
  v1 ← value c1;
  v2 ← value c2;
  if Ascii.eqb c4 pad then
    match rest with
    | EmptyString =>
        if Ascii.eqb c3 pad
        then bytes_of (v1 * 262144 + v2 * 4096) 1
        else v3 ← value c3;
             bytes_of (v1 * 262144 + v2 * 4096 + v3 * 64) 2
    | String _ _ => None
    end
  else
    v3 ← value c3;
    v4 ← value c4;
    group ← bytes_of (v1 * 262144 + v2 * 4096 + v3 * 64 + v4) 3;
    tail ← base64_decode rest;
    Some (group ++ tail).
Proof. reflexivity. Qed.

Lemma base64_round_trip (bs : list byte) :
  base64_decode (base64_encode bs) = Some bs.
Proof.
  induction bs as [|a|a b|a b c l IH] using list_ind3.
  - reflexivity.
  - pose proof (group_lt a x00 x00) as Hn.
    change (Byte.to_N x00) with 0 in Hn.
    change (base64_encode [a]) with
      (let n := Byte.to_N a * 65536 in
       String (digit (n / 262144)) (String (digit (n / 4096 mod 64))
         (String pad (String pad EmptyString)))).
    cbv zeta. set (n := Byte.to_N a * 65536) in *.
    destruct (digits_group n) as (D1 & D2 & D3 & D4 & Dn); [lia |].
    rewrite decode_group, !value_digit by done.
    change (Ascii.eqb pad pad) with true. cbn [mbind option_bind].
    pose proof (bytes_of_group a x00 x00 1) as Hb.
    change (Byte.to_N x00) with 0 in Hb.
    replace (n / 262144 * 262144 + n / 4096 mod 64 * 4096)
      with (Byte.to_N a * 65536 + 0 * 256 + 0) by (unfold n in *; euclid).
    exact Hb.
  - pose proof (group_lt a b x00) as Hn.
    change (Byte.to_N x00) with 0 in Hn.
    change (base64_encode [a; b]) with
      (let n := Byte.to_N a * 65536 + Byte.to_N b * 256 in
       String (digit (n / 262144)) (String (digit (n / 4096 mod 64))
         (String (digit (n / 64 mod 64)) (String pad EmptyString)))).
    cbv zeta. set (n := Byte.to_N a * 65536 + Byte.to_N b * 256) in *.
    destruct (digits_group n) as (D1 & D2 & D3 & D4 & Dn); [lia |].
    rewrite decode_group, !value_digit by done.
    change (Ascii.eqb pad pad) with true. cbn [mbind option_bind].
    rewrite digit_not_pad by done. cbn [mbind option_bind].
    pose proof (bytes_of_group a b x00 2) as Hb.
    change (Byte.to_N x00) with 0 in Hb.
    replace (n / 262144 * 262144 + n / 4096 mod 64 * 4096 + n / 64 mod 64 * 64)
      with (Byte.to_N a * 65536 + Byte.to_N b * 256 + 0)
      by (unfold n in *; euclid).
    exact Hb.
  - pose proof (group_lt a b c) as Hn.
    change (base64_encode (a :: b :: c :: l)) with
      (let n := Byte.to_N a * 65536 + Byte.to_N b * 256 + Byte.to_N c in
       String (digit (n / 262144)) (String (digit (n / 4096 mod 64))
         (String (digit (n / 64 mod 64)) (String (digit (n mod 64))
           (base64_encode l))))).
    cbv zeta.
    set (n := Byte.to_N a * 65536 + Byte.to_N b * 256 + Byte.to_N c) in *.
    destruct (digits_group n Hn) as (D1 & D2 & D3 & D4 & Dn).
    rewrite decode_group, !value_digit by done. cbn [mbind option_bind].
    rewrite digit_not_pad by done. cbn [mbind option_bind].
    rewrite Dn. unfold n. rewrite bytes_of_group, IH. reflexivity.
Qed.


(** *** Data URLs *)

Local Open Scope nat_scope.

Lemma length_append (s1 s2 : string) :
  String.length (s1 +:+ s2) = String.length s1 + String.length s2.
Proof. induction s1 as [|c s1 IH]; simpl; [done | by rewrite IH]. Qed.

Lemma strip_base64_append (t : string) :
  strip_base64 (t +:+ ";base64") = Some t.
Proof.
  induction t as [|c t IH]; [reflexivity |].
  change (String c t +:+ ";base64") with (String c (t +:+ ";base64")).
  cbn [strip_base64].
  destruct (String.eqb_spec (String c (t +:+ ";base64")) ";base64") as [E|_].
  - apply (f_equal String.length) in E. simpl in E.
    rewrite length_append in E. simpl in E. lia.
  - by rewrite IH.
Qed.

Lemma split_comma_append (t payload : string) :
  comma_free t = true →
  split_comma (t +:+ ";base64," +:+ payload) = Some (t +:+ ";base64", payload).
Proof.
  induction t as [|c t IH]; intros Ht; [reflexivity |].
  simpl in Ht. apply andb_prop in Ht as [Hc Ht].
  change (String c t +:+ ";base64," +:+ payload)
    with (String c (t +:+ ";base64," +:+ payload)).
  cbn [split_comma]. apply negb_true_iff in Hc. rewrite Hc, (IH Ht).
  reflexivity.
Qed.

Lemma fetch_data_url (type : string) (bytes : list byte) :
  comma_free type = true →
  fetch_blob ("data:" +:+ type +:+ ";base64," +:+ base64_encode bytes)
  = Resolved {| blob_bytes := bytes; blob_type := type |}.
Proof.
  intros Htype. unfold fetch_blob.
  change (strip_prefix "data:"
            ("data:" +:+ type +:+ ";base64," +:+ base64_encode bytes))
    with (Some (type +:+ ";base64," +:+ base64_encode bytes)).
  cbn [mbind option_bind].
  rewrite (split_comma_append _ _ Htype). cbn [mbind option_bind].
  rewrite strip_base64_append. cbn [mbind option_bind].
  by rewrite base64_round_trip.
Qed.

(** Reading a file as a data URL and fetching that URL gives a blob with
    the bytes of the file, whatever they are, when the media type of the
    file has no comma. *)
Lemma fetch_readAsDataURL (f : File) :
  comma_free (file_type f) = true →
  ∃ url blob, readAsDataURL f = Resolved url ∧
              fetch_blob url = Resolved blob ∧
              blob_bytes blob = file_bytes f.
Proof.
  intros Hfree. unfold readAsDataURL.
  destruct (file_type f) as [|a t] eqn:E; eexists _, _;
    (split; [reflexivity |]); rewrite fetch_data_url by done; done.
Qed.

End DataUrlFacts.

(** ** Promises *)

Module PromiseFacts.
Import Promise.

(** [Promise.all] over a mapped array resolves when every call resolves,
    and then yields the results in order. *)
Lemma all_map_resolved {A B} (f : A → promise B) (P : A → Prop)
    (Q : A → B → Prop) (l : list A) :
  Forall P l →
  (∀ x, P x → ∃ y, f x = Resolved y ∧ Q x y) →
  ∃ l', all (map f l) = Resolved l' ∧ Forall2 Q l l'.
Proof.
  intros HP Hf. induction HP as [|x l Hx _ IH].
  - exists []. split; [reflexivity | constructor].
  - destruct (Hf x Hx) as (y & Hy & HQ). destruct IH as (l' & Hl' & HQ').
    exists (y :: l'). simpl. rewrite Hy, Hl'.
    split; [reflexivity | by constructor].
Qed.

(** It rejects as soon as one call rejects. *)
Lemma all_map_rejected {A B} (f : A → promise B) (P : A → Prop) (l : list A) :
  Exists P l →
  (∀ x, P x → ∃ r, f x = Rejected r) →
  ∃ r, all (map f l) = Rejected r.
Proof.
  intros HP Hf. induction HP as [x l Hx | x l _ IH].
  - destruct (Hf x Hx) as (r & Hr). exists r. simpl. by rewrite Hr.
  - destruct IH as (r & Hr). simpl. rewrite Hr.
    destruct (f x) as [y|r']; eauto.
Qed.

Lemma all_map_inv {A B} (f : A → promise B) (l : list A) (l' : list B) :
  all (map f l) = Resolved l' → Forall2 (λ x y, f x = Resolved y) l l'.
Proof.
  revert l'. induction l as [|x l IH]; intros l' H; simpl in H.
  - injection H as <-. constructor.
  - destruct (f x) as [y|r] eqn:Hx; [| discriminate].
    destruct (all (map f l)) as [t|r] eqn:Hl; [| discriminate].
    injection H as <-. constructor; [exact Hx | by apply IH].
Qed.

End PromiseFacts.

(** ** The save and load protocol of the photo editor *)

Module PhotoEditorFacts.
Import JsArray JsArrayFacts PromiseFacts PhotoEditor.

(** *** The JSON text of a snapshot *)

(** The bytes, the name and the type of the file of a snapshot are not in
    its JSON text. *)
Lemma JSON_stringify_ignores_file (st : PhotoEditorState) (f g : File) :
  originalFile st = Some f →
  JSON_stringify st =
  JSON_stringify {| originalFile := Some g; imageSrc := imageSrc st;
                    editedImageSrc := editedImageSrc st;
                    activeFilter := activeFilter st;
                    originalFileData := originalFileData st |}.
Proof. intros Hf. unfold JSON_stringify. simpl. by rewrite Hf. Qed.

(** Whether there is a file is in the text: [{}] against [null]. *)
Example JSON_stringify_sees_presence :
  JSON_stringify initialState ≠
  JSON_stringify {| originalFile := Some (mkFile [] "a.png" "image/png");
                    imageSrc := None; editedImageSrc := None;
                    activeFilter := EmptyString; originalFileData := None |}.
Proof. vm_compute. discriminate. Qed.

Section protocol.
Variable readAsDataURL : File → promise string.
Variable fetch_blob : string → promise Blob.
Variable storage_accepts : string → text → bool.

Local Abbreviation getSerializableState := (getSerializableState readAsDataURL).
Local Abbreviation handleAutoSave :=
  (handleAutoSave readAsDataURL storage_accepts).
Local Abbreviation serialize_state := (serialize_state readAsDataURL).
Local Abbreviation reconstruct_state := (reconstruct_state fetch_blob).
Local Abbreviation reconstruct := (reconstruct fetch_blob).
Local Abbreviation dataUrlToFile := (dataUrlToFile fetch_blob).
Local Abbreviation handleLoadProject := (handleLoadProject fetch_blob).
Local Abbreviation restoreAutoSave := (restoreAutoSave fetch_blob).
Local Abbreviation codec_round_trips :=
  (codec_round_trips readAsDataURL fetch_blob).
Local Abbreviation same_content := (same_content readAsDataURL fetch_blob).
Local Abbreviation decode_fails := (decode_fails fetch_blob).

(** *** The guard of the serialize path *)

(** The serialize path returns "nothing to persist" exactly when the
    history is empty or its first snapshot has no image source. *)
Lemma getSerializableState_nothing (h : list PhotoEditorState) (idx : Z) :
  getSerializableState h idx = Resolved None ↔
  h = [] ∨ ∃ first rest, h = first :: rest ∧ falsy (imageSrc first) = true.
Proof.
  unfold PhotoEditor.getSerializableState. destruct h as [|first rest].
  - split; [by left | reflexivity].
  - destruct (falsy (imageSrc first)) eqn:E.
    + split; [intros _; right; by exists first, rest | reflexivity].
    + split.
      * intros H. simpl in H.
        destruct (serialize_state first) as [y|r]; simpl in H; [| discriminate].
        destruct (Promise.all (map serialize_state rest)); discriminate.
      * intros [? | (f & r & [= <- <-] & Hf)]; congruence.
Qed.

(** On the histories that the buttons of the editor build, a lone
    snapshot or snapshots that all hold an image, testing the first
    snapshot and testing the current one come to the same. *)
Lemma guard_agrees_on_editor_histories (h : list PhotoEditorState) (idx : Z)
    (cur : PhotoEditorState) :
  length h = 1%nat ∨ Forall (λ st, falsy (imageSrc st) = false) h →
  index h idx = Some cur →
  getSerializableState h idx = Resolved None ↔ falsy (imageSrc cur) = true.
Proof.
  intros Hshape Hcur. rewrite getSerializableState_nothing.
  unfold index in Hcur. destruct (idx <? 0); [discriminate |].
  destruct Hshape as [Hone | Hall].
  - destruct h as [|st [|? ?]]; try discriminate.
    destruct (Z.to_nat idx) as [|n]; [| discriminate].
    injection Hcur as <-. split.
    + intros [? | (f & r & [= <- <-] & Hf)]; [discriminate | exact Hf].
    + intros Hf. right. by exists st, [].
  - assert (Hin : cur ∈ h) by (apply list_elem_of_lookup; eauto).
    rewrite Forall_forall in Hall. pose proof (Hall cur Hin) as Hc. split.
    + intros [-> | (f & r & -> & Hf)].
      * by apply not_elem_of_nil in Hin.
      * rewrite (Hall f) in Hf; [discriminate | by left].
    + congruence.
Qed.

(** With nothing to persist the automatic save succeeds and leaves the
    durable store as it is. *)
Lemma handleAutoSave_nothing (d : SaveData) (ls : gmap string text) :
  getSerializableState (d_history d) (d_currentIndex d) = Resolved None →
  handleAutoSave d ls = Resolved ls.
Proof. intros H. unfold PhotoEditor.handleAutoSave. by rewrite H. Qed.

(** With a record, the automatic save writes it under its key, or fails
    when the store refuses it. *)
Lemma handleAutoSave_record (d : SaveData) (ls : gmap string text)
    (r : PersistedRecord) :
  getSerializableState (d_history d) (d_currentIndex d) = Resolved (Some r) →
  handleAutoSave d ls =
    if storage_accepts AUTO_SAVE_KEY (RecordText r)
    then Resolved (<[AUTO_SAVE_KEY := RecordText r]> ls)
    else Rejected "QuotaExceededError".
Proof. intros H. unfold PhotoEditor.handleAutoSave. by rewrite H. Qed.

(** *** One snapshot through the codec *)

Lemma serialize_reconstruct (st : PhotoEditorState) :
  codec_round_trips st ∧ no_leftover st →
  ∃ ss, serialize_state st = Resolved ss ∧
    ∃ st', reconstruct_state ss = Resolved st' ∧ same_content st st'.
Proof.
  unfold PhotoEditor.codec_round_trips, no_leftover,
    PhotoEditor.serialize_state.
  destruct (originalFile st) as [f|] eqn:Hf.
  - intros [(url & blob & Hread & Hfetch & Hbytes) _]. rewrite Hread. simpl.
    eexists. split; [reflexivity |].
    unfold PhotoEditor.reconstruct_state, PhotoEditor.dataUrlToFile. simpl.
    rewrite Hfetch. simpl. eexists. split; [reflexivity |].
    unfold PhotoEditor.same_content. simpl. rewrite Hf.
    split; [done |]. split; [done |]. split; [done |].
    exists url, blob. rewrite Hbytes. by repeat split.
  - intros [_ Hd]. specialize (Hd eq_refl). simpl.
    eexists. split; [reflexivity |].
    unfold PhotoEditor.reconstruct_state. simpl. rewrite Hd. simpl.
    eexists. split; [reflexivity |].
    unfold PhotoEditor.same_content. simpl. rewrite Hf, Hd. by repeat split.
Qed.

(** A placeholder that does not decode makes the snapshot fail. *)
Lemma reconstruct_state_fails (ss : SerializedState) :
  decode_fails ss → ∃ r, reconstruct_state ss = Rejected r.
Proof.
  intros (d & r & Hd & Hr). exists r.
  unfold PhotoEditor.reconstruct_state. rewrite Hd. simpl. by rewrite Hr.
Qed.

Lemma reconstruct_fails (saved : list SerializedState) :
  Exists decode_fails saved → ∃ r, reconstruct saved = Rejected r.
Proof.
  intros H. unfold PhotoEditor.reconstruct.
  apply (all_map_rejected _ decode_fails); [exact H |].
  apply reconstruct_state_fails.
Qed.

(** *** C6: a failed decode aborts the load *)

(** C6.  When the saved record holds a snapshot whose placeholder does not
    decode, [handleLoadProject] installs nothing: the history store keeps
    its sequence and its cursor; the failure is reported once, by one
    alert and one console message; the saved record is removed. *)
Theorem handleLoadProject_fail_fast (e : Editor) (r : PersistedRecord) :
  localStorage e !! PHOTO_PROJECT_KEY = Some (RecordText r) →
  Exists decode_fails (p_history r) →
  let e' := handleLoadProject e in
  store e' = store e ∧
  UseHistory.history (store e') = UseHistory.history (store e) ∧
  UseHistory.currentIndex (store e') = UseHistory.currentIndex (store e) ∧
  alerts e' =
    alerts e ++ ["Could not load the saved project. The data may be corrupted."] ∧
  console_errors e' = console_errors e ++ ["Failed to load project:"] ∧
  localStorage e' = delete PHOTO_PROJECT_KEY (localStorage e).
Proof.
  intros Hget Hbad. destruct (reconstruct_fails _ Hbad) as (reason & Hrej).
  cbn zeta. unfold PhotoEditor.handleLoadProject. rewrite Hget. simpl.
  rewrite Hrej. simpl. by repeat split.
Qed.

(** The restore offered when the editor mounts installs nothing either on
    a failed decode, and there the failure is not reported: the store, the
    alerts and the durable store are all as before. *)
Lemma restoreAutoSave_fail_fast (e : Editor) (r : PersistedRecord)
    (confirmed : bool) :
  localStorage e !! AUTO_SAVE_KEY = Some (RecordText r) →
  Exists decode_fails (p_history r) →
  restoreAutoSave confirmed e = e.
Proof.
  intros Hget Hbad. destruct (reconstruct_fails _ Hbad) as (reason & Hrej).
  unfold PhotoEditor.restoreAutoSave. rewrite Hget.
  destruct confirmed; [| reflexivity]. simpl. by rewrite Hrej.
Qed.

(** No decode failure, no partial history: what [handleLoadProject]
    installs is the whole reconstructed sequence or nothing. *)
Lemma handleLoadProject_store (e : Editor) :
  store (handleLoadProject e) = store e ∨
  ∃ r h, localStorage e !! PHOTO_PROJECT_KEY = Some (RecordText r) ∧
         reconstruct (p_history r) = Resolved h ∧
         length h = length (p_history r) ∧
         store (handleLoadProject e) =
           {| UseHistory.history := h;
              UseHistory.currentIndex := p_currentIndex r |}.
Proof.
  unfold PhotoEditor.handleLoadProject.
  destruct (localStorage e !! PHOTO_PROJECT_KEY) as [[| |r]|] eqn:Hget;
    try (by left).
  simpl. destruct (reconstruct (p_history r)) as [h|reason] eqn:Hrec; simpl;
    [| by left].
  unfold UseHistory.loadHistory.
  destruct ((0 <? len h) && (0 <=? p_currentIndex r)
            && (p_currentIndex r <? len h)) eqn:Hok; [| by left].
  right. exists r, h. repeat split; try done.
  apply all_map_inv in Hrec. apply Forall2_length in Hrec. by rewrite Hrec.
Qed.

(** *** C7: save, then load *)

(** Serializing the snapshots and reconstructing them, before any guard
    and any load. *)
Lemma serialize_then_reconstruct (h : list PhotoEditorState) :
  Forall codec_round_trips h → Forall no_leftover h →
  ∃ saved h',
    Promise.all (map serialize_state h) = Resolved saved ∧
    reconstruct saved = Resolved h' ∧
    Forall2 same_content h h'.
Proof.
  intros Hcodec Hclean.
  assert (Hboth : Forall (λ st, codec_round_trips st ∧ no_leftover st) h)
    by (by apply Forall_and).
  destruct (all_map_resolved serialize_state
              (λ st, codec_round_trips st ∧ no_leftover st)
              (λ st ss, ∃ st', reconstruct_state ss = Resolved st' ∧
                               same_content st st') h Hboth)
    as (saved & Hsaved & Hpairs); [apply serialize_reconstruct |].
  exists saved.
  assert (Hrec : ∃ h', reconstruct saved = Resolved h' ∧
                       Forall2 same_content h h').
  { clear -Hpairs. unfold PhotoEditor.reconstruct.
    induction Hpairs as [|st ss l l' (st' & Hst' & Hsame) _ (h' & Hh' & Hall)].
    - exists []. split; [reflexivity | constructor].
    - exists (st' :: h'). simpl. rewrite Hst', Hh'.
      split; [reflexivity | by constructor]. }
  destruct Hrec as (h' & Hh' & Hsame). by exists h'.
Qed.

Lemma getSerializableState_record (h : list PhotoEditorState) (idx : Z)
    (first : PhotoEditorState) (rest : list PhotoEditorState)
    (saved : list SerializedState) :
  h = first :: rest → falsy (imageSrc first) = false →
  Promise.all (map serialize_state h) = Resolved saved →
  getSerializableState h idx =
    Resolved (Some {| p_history := saved; p_currentIndex := idx |}).
Proof.
  intros Hh Hfirst Hsaved. unfold PhotoEditor.getSerializableState.
  rewrite Hh in *. rewrite Hfirst. by rewrite Hsaved.
Qed.

Lemma loadHistory_accepts (h' : list PhotoEditorState) (idx : Z)
    (s : UseHistory.Store PhotoEditorState) :
  0 ≤ idx < len h' →
  UseHistory.loadHistory (Some h') idx s =
    {| UseHistory.history := h'; UseHistory.currentIndex := idx |}.
Proof.
  intros Hidx. unfold UseHistory.loadHistory.
  destruct (Z.ltb_spec 0 (len h')); [| lia].
  destruct (Z.leb_spec 0 idx); [| lia].
  destruct (Z.ltb_spec idx (len h')); [reflexivity | lia].
Qed.

(** C7 (amended).  For a history with a cursor inside it for which the
    serialize path returns a record, whose snapshots without a file carry
    no placeholder left over, and a codec that round-trips the files of its
    snapshots, zero-length files included: serializing succeeds, the text
    parses back to the record, reconstruction succeeds, and [loadHistory]
    installs a sequence of the same length with the same cursor.  Each of
    its snapshots has the image source, the edited image source and the
    filter of the snapshot it comes from; where that one has a file it has
    a file with the same bytes and the same name, and carries the
    placeholder of that file besides; where that one has none it has
    none. *)
Theorem save_load_round_trip (h : list PhotoEditorState) (idx : Z)
    (s : UseHistory.Store PhotoEditorState) :
  getSerializableState h idx ≠ Resolved None →
  0 ≤ idx < len h →
  Forall codec_round_trips h →
  Forall no_leftover h →
  ∃ r h',
    getSerializableState h idx = Resolved (Some r) ∧
    JSON_parse (JSON_stringify_record r) = Resolved r ∧
    reconstruct (p_history r) = Resolved h' ∧
    UseHistory.loadHistory (Some h') (p_currentIndex r) s =
      {| UseHistory.history := h'; UseHistory.currentIndex := idx |} ∧
    length h' = length h ∧
    Forall2 same_content h h'.
Proof.
  intros Hrecord Hidx Hcodec Hclean.
  assert (Hfirst : ∃ first rest, h = first :: rest ∧
                                 falsy (imageSrc first) = false).
  { destruct h as [|first rest].
    - exfalso. apply Hrecord. apply getSerializableState_nothing. by left.
    - exists first, rest. split; [done |].
      destruct (falsy (imageSrc first)) eqn:E; [| done].
      exfalso. apply Hrecord. apply getSerializableState_nothing.
      right. by exists first, rest. }
  destruct Hfirst as (first & rest & Hh & Hfirst).
  destruct (serialize_then_reconstruct h Hcodec Hclean)
    as (saved & h' & Hsaved & Hh' & Hsame).
  pose proof (Forall2_length _ _ _ Hsame) as Hlen.
  exists {| p_history := saved; p_currentIndex := idx |}, h'.
  split.
  { by apply (getSerializableState_record h idx first rest). }
  split; [reflexivity |]. split; [exact Hh' |]. split.
  { simpl. apply loadHistory_accepts. unfold len in *. lia. }
  split; [by rewrite Hlen | exact Hsame].
Qed.

(** The same through the buttons: save the project, then load it. *)
Lemma handleSaveProject_handleLoadProject (e : Editor) (first : PhotoEditorState)
    (rest : list PhotoEditorState) :
  UseHistory.history (store e) = first :: rest →
  falsy (imageSrc first) = false →
  falsy (imageSrc (photoState e)) = false →
  UseHistory.valid (store e) →
  Forall codec_round_trips (UseHistory.history (store e)) →
  Forall no_leftover (UseHistory.history (store e)) →
  (∀ r, storage_accepts PHOTO_PROJECT_KEY (RecordText r) = true) →
  let e' := handleLoadProject
              (handleSaveProject readAsDataURL storage_accepts e) in
  length (UseHistory.history (store e')) = length (UseHistory.history (store e)) ∧
  UseHistory.currentIndex (store e') = UseHistory.currentIndex (store e) ∧
  Forall2 same_content (UseHistory.history (store e))
                       (UseHistory.history (store e')) ∧
  alerts e' = alerts e ++ ["Project saved successfully!";
                            "Project loaded successfully!"].
Proof.
  intros Hh Hfirst Hcur [_ Hidx] Hcodec Hclean Hroom.
  destruct (serialize_then_reconstruct _ Hcodec Hclean)
    as (saved & h' & Hsaved & Hrec & Hsame).
  pose proof (Forall2_length _ _ _ Hsame) as Hlen.
  cbn zeta. unfold PhotoEditor.handleSaveProject. rewrite Hcur.
  rewrite (getSerializableState_record _ _ first rest saved Hh Hfirst Hsaved).
  simpl.
  unfold PhotoEditor.setItem, JSON_stringify_record. rewrite Hroom.
  unfold PhotoEditor.handleLoadProject.
  cbn -[UseHistory.loadHistory PhotoEditor.reconstruct].
  rewrite lookup_insert_eq.
  cbn -[UseHistory.loadHistory PhotoEditor.reconstruct]. rewrite Hrec.
  cbn -[UseHistory.loadHistory].
  rewrite loadHistory_accepts by (unfold len in *; lia). simpl.
  repeat split; try done. by rewrite <- app_assoc.
Qed.

End protocol.
End PhotoEditorFacts.

(** ** The protocol on the data URL codec *)

Module PhotoEditorExamples.
Import JsArray PhotoEditor PhotoEditorFacts Samples.

Local Abbreviation getSerializableState :=
  (getSerializableState DataUrl.readAsDataURL).
Local Abbreviation handleAutoSave :=
  (handleAutoSave DataUrl.readAsDataURL DataUrl.unlimited).
Local Abbreviation handleLoadProject := (handleLoadProject DataUrl.fetch_blob).

Example readAsDataURL_png :
  DataUrl.readAsDataURL png = Resolved "data:image/png;base64,iVBORw0=".
Proof. reflexivity. Qed.

Example codec_png :
  (url ← DataUrl.readAsDataURL png; DataUrl.fetch_blob url)
  = Resolved {| blob_bytes := file_bytes png; blob_type := "image/png" |}.
Proof. reflexivity. Qed.

Example codec_blank :
  (url ← DataUrl.readAsDataURL blank; DataUrl.fetch_blob url)
  = Resolved {| blob_bytes := []; blob_type := "image/png" |}.
Proof. reflexivity. Qed.

(** *** Commits of photo snapshots *)

(** A snapshot that differs from the current one in the bytes and the
    name of its file only has the same JSON text: committing it changes
    nothing.  A snapshot that differs in having a file is committed. *)
Example commit_ignores_file_content :
  let s := UseHistory.init opened in
  UseHistory.commit JSON_stringify (UseHistory.Fin 10)
    {| originalFile := Some blank; imageSrc := Some "blob:cat";
       editedImageSrc := None; activeFilter := EmptyString;
       originalFileData := None |} s
  = Some s.
Proof. reflexivity. Qed.

Example commit_sees_file_presence :
  UseHistory.commit JSON_stringify (UseHistory.Fin 10)
    {| originalFile := None; imageSrc := Some "blob:cat";
       editedImageSrc := None; activeFilter := EmptyString;
       originalFileData := None |} (UseHistory.init opened)
  = Some {| UseHistory.history :=
              [opened;
               {| originalFile := None; imageSrc := Some "blob:cat";
                  editedImageSrc := None; activeFilter := EmptyString;
                  originalFileData := None |}];
            UseHistory.currentIndex := 1 |}.
Proof. reflexivity. Qed.

(** *** The guard looks at the first snapshot *)

(** The serializer called by hand on a history that the editor does not
    build (see [PhotoEditorSession]): the current snapshot of [emptied] has
    neither file nor image source, behind a first snapshot that holds an
    image.  The serialize path tests [historyToSave[0]], finds an image
    there and returns a record, and the automatic save writes that record,
    whose current snapshot is blank, over the earlier one. *)
Example getSerializableState_tests_first_snapshot :
  index (d_history emptied) (d_currentIndex emptied) = Some initialState ∧
  originalFile initialState = None ∧ imageSrc initialState = None ∧
  (∃ r, getSerializableState (d_history emptied) (d_currentIndex emptied)
          = Resolved (Some r) ∧
        index (p_history r) (p_currentIndex r)
          = Some {| s_imageSrc := None; s_editedImageSrc := None;
                    s_activeFilter := EmptyString;
                    s_originalFileData := None |} ∧
        handleAutoSave emptied {[ AUTO_SAVE_KEY := RecordText earlier ]}
          = Resolved {[ AUTO_SAVE_KEY := RecordText r ]}).
Proof.
  split; [reflexivity |]. split; [reflexivity |]. split; [reflexivity |].
  eexists. split; [reflexivity |]. split; [reflexivity |].
  unfold PhotoEditor.handleAutoSave. simpl. unfold PhotoEditor.setItem. simpl.
  by rewrite insert_singleton_eq.
Qed.

(** The manual save tests the current snapshot, and writes nothing for the
    same history. *)
Example handleSaveProject_tests_current_snapshot :
  let e := {| store := {| UseHistory.history := d_history emptied;
                          UseHistory.currentIndex := d_currentIndex emptied |};
              localStorage := {[ PHOTO_PROJECT_KEY := RecordText earlier ]};
              alerts := []; console_errors := [] |} in
  handleSaveProject DataUrl.readAsDataURL DataUrl.unlimited e
  = alert "There is nothing to save." e.
Proof. reflexivity. Qed.

(** Where the first snapshot is the empty project, nothing is persisted
    and the earlier record stays. *)
Example handleAutoSave_initial :
  handleAutoSave {| d_history := [initialState]; d_currentIndex := 0 |}
                 {[ AUTO_SAVE_KEY := RecordText earlier ]}
  = Resolved {[ AUTO_SAVE_KEY := RecordText earlier ]}.
Proof. reflexivity. Qed.

(** The guard misses in the other direction too: a history whose current
    snapshot holds an image, behind a first snapshot that is empty, is not
    persisted. *)
Example getSerializableState_first_empty :
  getSerializableState [initialState; opened] 1 = Resolved None.
Proof. reflexivity. Qed.

(** *** C6 *)

(** Witness of C6. *)
Lemma handleLoadProject_fail_fast_witness :
  localStorage editing !! PHOTO_PROJECT_KEY = Some (RecordText corrupted) ∧
  Exists (decode_fails DataUrl.fetch_blob) (p_history corrupted) ∧
  store (handleLoadProject editing) = store editing ∧
  alerts (handleLoadProject editing)
    = ["Could not load the saved project. The data may be corrupted."].
Proof.
  assert (Hget : localStorage editing !! PHOTO_PROJECT_KEY
                 = Some (RecordText corrupted)) by reflexivity.
  assert (Hbad : Exists (decode_fails DataUrl.fetch_blob) (p_history corrupted)).
  { apply Exists_cons_tl, Exists_cons_hd. eexists _, _.
    split; reflexivity. }
  split; [exact Hget |]. split; [exact Hbad |].
  destruct (handleLoadProject_fail_fast DataUrl.fetch_blob editing corrupted
              Hget Hbad) as (Hstore & _ & _ & Halerts & _).
  split; [exact Hstore | exact Halerts].
Defined.

(** *** C7 *)

(** Counterexample to C7 as stated, in three histories with a valid
    cursor.  For the history of the empty project the serialize path
    returns no record, so that there is nothing to deserialize: saving it
    and loading again finds no saved project.  For the history of one
    opened image the round trip gives a snapshot that carries the
    placeholder of its file, which the snapshot before did not: its other
    fields are not all identical, and its JSON text is another one.  For a
    snapshot without a file that carries a placeholder left over, the
    round trip gives a snapshot with a file. *)
Lemma round_trip_empty_project_counterexample :
  UseHistory.valid (UseHistory.init initialState) ∧
  getSerializableState [initialState] 0 = Resolved None ∧
  (∀ r, getSerializableState [initialState] 0 ≠ Resolved (Some r)) ∧
  (let e := {| store := UseHistory.init initialState; localStorage := ∅;
               alerts := []; console_errors := [] |} in
   localStorage
     (handleSaveProject DataUrl.readAsDataURL DataUrl.unlimited e) = ∅ ∧
   alerts (handleLoadProject
             (handleSaveProject DataUrl.readAsDataURL DataUrl.unlimited e))
     = ["There is nothing to save."; "No saved project found."]) ∧
  (∃ r st',
     getSerializableState [opened] 0 = Resolved (Some r) ∧
     reconstruct DataUrl.fetch_blob (p_history r) = Resolved [st'] ∧
     originalFileData opened = None ∧
     originalFileData st' =
       Some {| dataUrl := "data:image/png;base64,iVBORw0="; name := "cat.png" |} ∧
     JSON_stringify st' ≠ JSON_stringify opened) ∧
  (∃ r st',
     getSerializableState [stale] 0 = Resolved (Some r) ∧
     reconstruct DataUrl.fetch_blob (p_history r) = Resolved [st'] ∧
     originalFile stale = None ∧
     originalFile st' = Some png).
Proof.
  split; [unfold UseHistory.valid, len; simpl; lia |].
  split; [reflexivity |]. split; [discriminate |].
  split; [split; reflexivity |]. split.
  - eexists _, _. split; [reflexivity |]. split; [reflexivity |].
    split; [reflexivity |]. split; [reflexivity |].
    vm_compute. discriminate.
  - eexists _, _. split; [reflexivity |]. split; [reflexivity |].
    split; reflexivity.
Qed.

Lemma codec_round_trips_opened :
  codec_round_trips DataUrl.readAsDataURL DataUrl.fetch_blob opened.
Proof. eexists _, _. repeat split. Qed.

Lemma codec_round_trips_sepia :
  codec_round_trips DataUrl.readAsDataURL DataUrl.fetch_blob sepia.
Proof. eexists _, _. repeat split. Qed.

(** Witness of C7 (amended): two snapshots, the second with a file of
    zero length. *)
Lemma save_load_round_trip_witness :
  getSerializableState [opened; sepia] 1 ≠ Resolved None ∧
  0 ≤ 1 < len [opened; sepia] ∧
  Forall (codec_round_trips DataUrl.readAsDataURL DataUrl.fetch_blob)
         [opened; sepia] ∧
  Forall no_leftover [opened; sepia] ∧
  ∃ r h',
    getSerializableState [opened; sepia] 1 = Resolved (Some r) ∧
    reconstruct DataUrl.fetch_blob (p_history r) = Resolved h' ∧
    UseHistory.loadHistory (Some h') (p_currentIndex r)
                           (UseHistory.init initialState)
      = {| UseHistory.history := h'; UseHistory.currentIndex := 1 |} ∧
    Forall2 (same_content DataUrl.readAsDataURL DataUrl.fetch_blob)
            [opened; sepia] h'.
Proof.
  assert (Hrecord : getSerializableState [opened; sepia] 1 ≠ Resolved None)
    by (vm_compute; discriminate).
  assert (Hidx : 0 ≤ 1 < len [opened; sepia]) by (unfold len; simpl; lia).
  assert (Hcodec : Forall (codec_round_trips DataUrl.readAsDataURL
                             DataUrl.fetch_blob) [opened; sepia]).
  { repeat constructor;
      [apply codec_round_trips_opened | apply codec_round_trips_sepia]. }
  assert (Hclean : Forall no_leftover [opened; sepia])
    by (repeat constructor; discriminate).
  split; [exact Hrecord |]. split; [exact Hidx |]. split; [exact Hcodec |].
  split; [exact Hclean |].
  destruct (save_load_round_trip DataUrl.readAsDataURL DataUrl.fetch_blob
              [opened; sepia] 1 (UseHistory.init initialState)
              Hrecord Hidx Hcodec Hclean)
    as (r & h' & Hser & _ & Hrec & Hload & _ & Hsame).
  exists r, h'. split; [exact Hser |]. split; [exact Hrec |].
  split; [exact Hload | exact Hsame].
Defined.

(** What the load installs in that example. *)
Example reconstruct_opened_sepia :
  (r ← getSerializableState [opened; sepia] 1;
   match r with
   | Some r => reconstruct DataUrl.fetch_blob (p_history r)
   | None => Rejected "nothing to persist"
   end)
  = Resolved
      [{| originalFile := Some png; imageSrc := Some "blob:cat";
          editedImageSrc := None; activeFilter := EmptyString;
          originalFileData :=
            Some {| dataUrl := "data:image/png;base64,iVBORw0=";
                    name := "cat.png" |} |};
       {| originalFile := Some blank; imageSrc := Some "blob:cat";
          editedImageSrc := None; activeFilter := "sepia(1)";
          originalFileData :=
            Some {| dataUrl := "data:image/png;base64,";
                    name := "blank.png" |} |}].
Proof. reflexivity. Qed.

(** *** The protocol on base64 data URLs, for all files *)

(** The data URL codec round-trips every snapshot whose file has a media
    type without a comma. *)
Lemma data_url_round_trips (st : PhotoEditorState) :
  match originalFile st with
  | Some f => DataUrl.comma_free (file_type f) = true
  | None => True
  end →
  codec_round_trips DataUrl.readAsDataURL DataUrl.fetch_blob st.
Proof.
  unfold codec_round_trips. destruct (originalFile st) as [f|]; [| done].
  apply DataUrlFacts.fetch_readAsDataURL.
Qed.

(** With that codec, saving and loading reproduces every such history that
    the guard lets through, with no assumption left on the codec. *)
Lemma data_url_save_load (h : list PhotoEditorState) (idx : Z)
    (s : UseHistory.Store PhotoEditorState) (first : PhotoEditorState)
    (rest : list PhotoEditorState) :
  h = first :: rest →
  falsy (imageSrc first) = false →
  0 ≤ idx < len h →
  Forall (λ st, match originalFile st with
                | Some f => DataUrl.comma_free (file_type f) = true
                | None => originalFileData st = None
                end) h →
  ∃ r h',
    getSerializableState h idx = Resolved (Some r) ∧
    reconstruct DataUrl.fetch_blob (p_history r) = Resolved h' ∧
    UseHistory.loadHistory (Some h') (p_currentIndex r) s =
      {| UseHistory.history := h'; UseHistory.currentIndex := idx |} ∧
    Forall2 (same_content DataUrl.readAsDataURL DataUrl.fetch_blob) h h'.
Proof.
  intros Hh Hfirst Hidx Hwf.
  assert (Hcodec : Forall (codec_round_trips DataUrl.readAsDataURL
                             DataUrl.fetch_blob) h).
  { eapply Forall_impl; [exact Hwf |]. intros st Hst. simpl in Hst.
    apply data_url_round_trips. by destruct (originalFile st). }
  assert (Hclean : Forall no_leftover h).
  { eapply Forall_impl; [exact Hwf |]. intros st Hst Hnone. simpl in Hst.
    by rewrite Hnone in Hst. }
  destruct (serialize_then_reconstruct DataUrl.readAsDataURL DataUrl.fetch_blob
              h Hcodec Hclean) as (saved & h' & Hsaved & Hh' & Hsame).
  pose proof (Forall2_length _ _ _ Hsame) as Hlen.
  exists {| p_history := saved; p_currentIndex := idx |}, h'.
  split; [by apply (getSerializableState_record _ h idx first rest) |].
  split; [exact Hh' |]. split; [| exact Hsame].
  simpl. apply loadHistory_accepts. unfold len in *. lia.
Qed.

End PhotoEditorExamples.

(** ** The autosave scheduler *)

Module AutoSaveFacts.
Import UseAutoSave.

Section facts.
Context {D W : Type}.
Variable onSave : D → W → promise W.
Variable interval : Z.

Local Abbreviation Hook := (Hook D W).
Local Abbreviation Event := (Event D).
Local Abbreviation settle := (settle onSave).
Local Abbreviation tick := (tick interval).
Local Abbreviation step := (step onSave interval).
Local Abbreviation steps := (steps onSave interval).
Local Abbreviation mount := (mount interval).
Local Abbreviation fire_intervals := (fire_intervals interval).

Implicit Types (h : Hook) (es : list Event) (d : D).

(** *** [performSave] and [settle] leave the timers alone *)

(** Both are record updates behind a test of [alive]. *)
Ltac by_alive h :=
  unfold performSave, setLastSaved, setStatus; simpl;
  destruct (alive h); reflexivity.

Ltac settle_cases id h :=
  unfold UseAutoSave.settle;
  destruct (lookup_save id (inFlight h)); [| reflexivity];
  destruct (onSave _ _); by_alive h.

Lemma performSave_view (t : Trigger) h :
  timer_view (performSave t h) = timer_view h.
Proof. by_alive h. Qed.

Lemma performSave_intervals (t : Trigger) h :
  intervals (performSave t h) = intervals h.
Proof. by_alive h. Qed.

Lemma performSave_started (t : Trigger) h :
  started (performSave t h) =
    started h ++ [{| start_id := nextSave h; start_trigger := t;
                     start_at := clock h; start_data := dataRef h |}].
Proof. by_alive h. Qed.

Lemma performSave_inFlight (t : Trigger) h :
  inFlight (performSave t h) = inFlight h ++ [(nextSave h, dataRef h)].
Proof. by_alive h. Qed.

Lemma performSave_nextSave (t : Trigger) h :
  nextSave (performSave t h) = S (nextSave h).
Proof. by_alive h. Qed.

Lemma performSave_status (t : Trigger) h :
  status (performSave t h) = if alive h then saving else status h.
Proof. by_alive h. Qed.

Lemma performSave_world (t : Trigger) h :
  world (performSave t h) = world h.
Proof. by_alive h. Qed.

Lemma debounce_log_performSave_Debounce h :
  debounce_log (performSave Debounce h) =
    debounce_log h ++ [(clock h, dataRef h)].
Proof.
  unfold debounce_log, debounce_saves. rewrite performSave_started.
  rewrite filter_app, fmap_app. f_equal.
Qed.

Lemma debounce_log_performSave_Interval h :
  debounce_log (performSave Interval h) = debounce_log h.
Proof.
  unfold debounce_log, debounce_saves. rewrite performSave_started.
  rewrite filter_app, fmap_app. simpl. apply app_nil_r.
Qed.

Lemma settle_view (id : nat) h : timer_view (settle id h) = timer_view h.
Proof. settle_cases id h. Qed.

Lemma settle_started (id : nat) h : started (settle id h) = started h.
Proof. settle_cases id h. Qed.

Lemma settle_intervals (id : nat) h : intervals (settle id h) = intervals h.
Proof. settle_cases id h. Qed.

Lemma settle_debounce_log (id : nat) h :
  debounce_log (settle id h) = debounce_log h.
Proof. unfold debounce_log, debounce_saves. by rewrite settle_started. Qed.

(** *** The interval timers in one tick *)

Lemma interval_saves_view {X} (l : list X) h :
  timer_view (foldl (λ h _, performSave Interval h) h l) = timer_view h.
Proof.
  revert h. induction l as [|x l IH]; intros h; [done |].
  simpl. by rewrite IH, performSave_view.
Qed.

Lemma interval_saves_debounce_log {X} (l : list X) h :
  debounce_log (foldl (λ h _, performSave Interval h) h l) = debounce_log h.
Proof.
  revert h. induction l as [|x l IH]; intros h; [done |].
  simpl. by rewrite IH, debounce_log_performSave_Interval.
Qed.

Lemma fire_intervals_view h : timer_view (fire_intervals h) = timer_view h.
Proof. unfold UseAutoSave.fire_intervals. by rewrite interval_saves_view. Qed.

Lemma fire_intervals_debounce_log h :
  debounce_log (fire_intervals h) = debounce_log h.
Proof.
  unfold UseAutoSave.fire_intervals. by rewrite interval_saves_debounce_log.
Qed.

(** *** The debounce timer in one tick *)

Lemma tick_idle h :
  timeouts h = [] →
  timer_view (tick h) =
    (isMounted h, nextTimer h, [], debounceTimeoutRef h, clock h + 1, dataRef h)
  ∧ debounce_log (tick h) = debounce_log h.
Proof.
  intros Hno. unfold UseAutoSave.tick.
  rewrite fire_intervals_view, fire_intervals_debounce_log.
  unfold fire_timeouts. simpl. rewrite Hno. done.
Qed.

Lemma tick_wait h (id : nat) (at_ : Z) :
  timeouts h = [(id, at_)] → clock h + 1 < at_ →
  timer_view (tick h) =
    (isMounted h, nextTimer h, [(id, at_)], debounceTimeoutRef h,
     clock h + 1, dataRef h)
  ∧ debounce_log (tick h) = debounce_log h.
Proof.
  intros Hone Hlt. unfold UseAutoSave.tick.
  rewrite fire_intervals_view, fire_intervals_debounce_log.
  unfold fire_timeouts. simpl. rewrite Hone.
  assert (Hdue : due (clock h + 1) (id, at_) = false).
  { unfold due. simpl. apply Z.leb_gt. lia. }
  rewrite !filter_cons, !filter_nil.
  destruct (decide (due (clock h + 1) (id, at_) = true)) as [E|_];
    [congruence |].
  destruct (decide (due (clock h + 1) (id, at_) = false)) as [_|E];
    [| congruence].
  done.
Qed.

Lemma tick_fire h (id : nat) (at_ : Z) :
  timeouts h = [(id, at_)] → at_ ≤ clock h + 1 →
  timer_view (tick h) =
    (isMounted h, nextTimer h, [], debounceTimeoutRef h, clock h + 1, dataRef h)
  ∧ debounce_log (tick h) = debounce_log h ++ [(clock h + 1, dataRef h)].
Proof.
  intros Hone Hle. unfold UseAutoSave.tick.
  rewrite fire_intervals_view, fire_intervals_debounce_log.
  unfold fire_timeouts. simpl. rewrite Hone.
  assert (Hdue : due (clock h + 1) (id, at_) = true).
  { unfold due. simpl. apply Z.leb_le. lia. }
  rewrite !filter_cons, !filter_nil.
  destruct (decide (due (clock h + 1) (id, at_) = true)) as [_|E];
    [| congruence].
  destruct (decide (due (clock h + 1) (id, at_) = false)) as [E|_];
    [congruence |].
  simpl. rewrite performSave_view, debounce_log_performSave_Debounce.
  done.
Qed.


(** *** Quiet stretches *)

Lemma ticks_nonneg es : 0 ≤ ticks es.
Proof.
  induction es as [|e es IH]; simpl; [lia |]. destruct e; lia.
Qed.

Lemma steps_cons h (e : Event) es : steps h (e :: es) = steps (step h e) es.
Proof. reflexivity. Qed.

Lemma steps_app h es1 es2 : steps h (es1 ++ es2) = steps (steps h es1) es2.
Proof. apply foldl_app. Qed.

(** With no debounce timer pending, a quiet stretch starts no debounced
    save. *)
Lemma quiet_idle es h :
  forallb quiet es = true → timeouts h = [] →
  timeouts (steps h es) = [] ∧
  debounce_log (steps h es) = debounce_log h ∧
  clock (steps h es) = clock h + ticks es ∧
  dataRef (steps h es) = dataRef h.
Proof.
  revert h. induction es as [|e es IH]; intros h Hq Hno.
  - simpl. repeat split; [done | lia].
  - simpl in Hq. apply andb_prop in Hq as [He Hq]. rewrite steps_cons.
    destruct e as [d| |id|]; try discriminate; simpl.
    + destruct (tick_idle h Hno) as [Hview Hlog].
      unfold timer_view in Hview. injection Hview as _ _ Ht _ Hc Hd.
      destruct (IH (tick h) Hq Ht) as (H1 & H2 & H3 & H4).
      rewrite H1, H2, H3, H4, Hlog, Hc, Hd. repeat split; try done. lia.
    + pose proof (settle_view id h) as Hview.
      unfold timer_view in Hview. injection Hview as _ _ Ht _ Hc Hd.
      rewrite Hno in Ht.
      destruct (IH (settle id h) Hq Ht) as (H1 & H2 & H3 & H4).
      rewrite H1, H2, H3, H4, settle_debounce_log, Hc, Hd. done.
Qed.

(** With one debounce timer pending, a quiet stretch starts one debounced
    save, at the time the timer is due and with the data of that moment,
    if it lasts that long, and none if it does not. *)
Lemma quiet_pending es h (id : nat) (at_ : Z) :
  forallb quiet es = true → timeouts h = [(id, at_)] → clock h < at_ →
  debounce_log (steps h es) =
    debounce_log h ++
    (if at_ <=? clock h + ticks es then [(at_, dataRef h)] else []) ∧
  clock (steps h es) = clock h + ticks es.
Proof.
  revert h. induction es as [|e es IH]; intros h Hq Hone Hlt.
  - simpl. rewrite Z.add_0_r.
    destruct (Z.leb_spec at_ (clock h)); [lia |].
    by rewrite app_nil_r.
  - simpl in Hq. apply andb_prop in Hq as [He Hq]. rewrite steps_cons.
    pose proof (ticks_nonneg es) as Hn.
    destruct e as [d| |id'|]; try discriminate; simpl.
    + destruct (Z.lt_ge_cases (clock h + 1) at_) as [Hwait|Hfire].
      * destruct (tick_wait h id at_ Hone Hwait) as [Hview Hlog].
        unfold timer_view in Hview. injection Hview as _ _ Ht _ Hc Hd.
        destruct (IH (tick h) Hq Ht ltac:(lia)) as [H1 H2].
        rewrite H1, H2, Hlog, Hc, Hd. split; [| lia].
        by replace (clock h + 1 + ticks es) with (clock h + (1 + ticks es))
          by lia.
      * destruct (tick_fire h id at_ Hone Hfire) as [Hview Hlog].
        unfold timer_view in Hview. injection Hview as _ _ Ht _ Hc Hd.
        destruct (quiet_idle es (tick h) Hq Ht) as (_ & H2 & H3 & _).
        rewrite H2, H3, Hlog, Hc. split; [| lia].
        destruct (Z.leb_spec at_ (clock h + (1 + ticks es))); [| lia].
        by replace (clock h + 1) with at_ by lia.
    + pose proof (settle_view id' h) as Hview.
      unfold timer_view in Hview. injection Hview as _ _ Ht _ Hc Hd.
      rewrite Hone in Ht.
      destruct (IH (settle id' h) Hq Ht ltac:(lia)) as [H1 H2].
      rewrite H1, H2, settle_debounce_log, Hc, Hd. done.
Qed.

(** *** A change of the data *)

Lemma filter_other_id (id : nat) (at_ : Z) :
  filter (λ p : nat * Z, p.1 ≠ id) [(id, at_)] = [].
Proof.
  rewrite filter_cons, filter_nil. simpl.
  destruct (decide (id ≠ id)); [congruence | done].
Qed.

(** The debounced effect with its cleanup: whatever timer was pending is
    cleared and a new one is set, due 2500 ms from now. *)
Lemma change_view d h :
  wf h →
  timer_view (change d h) =
    (true, S (nextTimer h), [(nextTimer h, clock h + DEBOUNCE_MS)],
     Some (nextTimer h), clock h, d)
  ∧ debounce_log (change d h) = debounce_log h.
Proof.
  intros (Hm & Hn & [Hno | (id & at_ & Hone & Href & Hid & Hlt)]);
    destruct h as [st ls ref dr im al ck to iv nt inf ns sta wo];
    simpl in *; subst.
  - unfold change, debounce_effect, clear_debounce, clearTimeout, update_refs.
    simpl. by destruct ref as [[|id]|].
  - unfold change, debounce_effect, clear_debounce, clearTimeout, update_refs.
    simpl. destruct id as [|id]; [lia |]. simpl.
    by rewrite filter_other_id.
Qed.

(** *** The invariant of the timers *)

Lemma wf_of_view h h' :
  timer_view h' = timer_view h → wf h → wf h'.
Proof.
  unfold timer_view. intros [= Hm Hn Ht Hr Hc _] (Wm & Wn & Wt).
  unfold wf. rewrite Hm, Hn, Ht, Hr, Hc. done.
Qed.

Lemma wf_mount d (now : Z) (w : W) : wf (mount d now w).
Proof. unfold wf. simpl. split; [done |]. split; [lia | by left]. Qed.

Lemma wf_step h (e : Event) : wf h → wf (step h e).
Proof.
  intros Hwf. destruct e as [d| |id|]; simpl.
  - destruct (change_view d h Hwf) as [Hview _].
    unfold timer_view in Hview. injection Hview as Hm Hn Ht Hr Hc _.
    destruct Hwf as (_ & Wn & _).
    unfold wf. rewrite Hm, Hn, Ht, Hr, Hc. split; [done |]. split; [lia |].
    right. exists (nextTimer h), (clock h + DEBOUNCE_MS).
    unfold DEBOUNCE_MS. repeat split; [done | lia].
  - destruct Hwf as (Wm & Wn & [Hno | (id & at_ & Hone & Href & Hid & Hlt)]).
    + destruct (tick_idle h Hno) as [Hview _].
      unfold timer_view in Hview. injection Hview as Hm Hn Ht Hr Hc _.
      unfold wf. rewrite Hm, Hn, Ht. split; [done |]. split; [done | by left].
    + destruct (Z.lt_ge_cases (clock h + 1) at_) as [Hwait|Hfire].
      * destruct (tick_wait h id at_ Hone Hwait) as [Hview _].
        unfold timer_view in Hview. injection Hview as Hm Hn Ht Hr Hc _.
        unfold wf. rewrite Hm, Hn, Ht, Hr, Hc. split; [done |].
        split; [done |]. right. by exists id, at_.
      * destruct (tick_fire h id at_ Hone Hfire) as [Hview _].
        unfold timer_view in Hview. injection Hview as Hm Hn Ht Hr Hc _.
        unfold wf. rewrite Hm, Hn, Ht. split; [done |]. split; [done | by left].
  - apply (wf_of_view h); [apply settle_view | exact Hwf].
  - destruct Hwf as (Wm & Wn & [Hno | (id & at_ & Hone & Href & Hid & Hlt)]).
    + unfold wf, unmount, clear_debounce, clearTimeout.
      destruct (debounceTimeoutRef h) as [[|id]|]; simpl; rewrite ?Hno;
        (split; [done |]; split; [done | by left]).
    + unfold wf, unmount, clear_debounce, clearTimeout. rewrite Href.
      destruct id as [|id]; [lia |]. simpl. rewrite Hone, filter_other_id.
      split; [done |]. split; [done | by left].
Qed.

Lemma wf_steps es h : wf h → wf (steps h es).
Proof.
  revert h. induction es as [|e es IH]; intros h Hwf; [done |].
  rewrite steps_cons. by apply IH, wf_step.
Qed.

(** A change on a well-formed hook, then a quiet stretch: one debounced
    save 2500 ms after the change if the stretch lasts that long, none
    otherwise; the save reads the data of the change. *)
Lemma change_then_quiet d h es :
  wf h → forallb quiet es = true →
  debounce_log (steps (change d h) es) =
    debounce_log h ++
    (if DEBOUNCE_MS <=? ticks es then [(clock h + DEBOUNCE_MS, d)] else []) ∧
  clock (steps (change d h) es) = clock h + ticks es.
Proof.
  intros Hwf Hq. destruct (change_view d h Hwf) as [Hview Hlog].
  unfold timer_view in Hview. injection Hview as _ _ Ht _ Hc Hd.
  destruct (quiet_pending es (change d h) (nextTimer h)
              (clock h + DEBOUNCE_MS) Hq Ht) as [H1 H2].
  { rewrite Hc. unfold DEBOUNCE_MS. lia. }
  rewrite H1, H2, Hlog, Hc, Hd. split; [| done]. f_equal.
  destruct (Z.leb_spec (clock h + DEBOUNCE_MS) (clock h + ticks es));
    destruct (Z.leb_spec DEBOUNCE_MS (ticks es)); try done; lia.
Qed.


(** *** The interval timer *)

Lemma saves_view {X} (t : Trigger) (l : list X) h :
  timer_view (foldl (λ h _, performSave t h) h l) = timer_view h.
Proof.
  revert h. induction l as [|x l IH]; intros h; [done |].
  simpl. by rewrite IH, performSave_view.
Qed.

Lemma saves_intervals {X} (t : Trigger) (l : list X) h :
  intervals (foldl (λ h _, performSave t h) h l) = intervals h.
Proof.
  revert h. induction l as [|x l IH]; intros h; [done |].
  simpl. by rewrite IH, performSave_intervals.
Qed.

Lemma interval_saves_performSave_Debounce h :
  interval_saves (performSave Debounce h) = interval_saves h.
Proof.
  unfold interval_saves. rewrite performSave_started, filter_app.
  simpl. apply app_nil_r.
Qed.

Lemma debounce_saves_interval_saves {X} (l : list X) h :
  interval_saves (foldl (λ h _, performSave Debounce h) h l) = interval_saves h.
Proof.
  revert h. induction l as [|x l IH]; intros h; [done |].
  simpl. by rewrite IH, interval_saves_performSave_Debounce.
Qed.

Lemma tick_clock h : clock (tick h) = clock h + 1.
Proof.
  unfold UseAutoSave.tick.
  pose proof (fire_intervals_view
    (fire_timeouts {| status := status h; lastSaved := lastSaved h;
       debounceTimeoutRef := debounceTimeoutRef h; dataRef := dataRef h;
       isMounted := isMounted h; alive := alive h; clock := clock h + 1;
       timeouts := timeouts h; intervals := intervals h;
       nextTimer := nextTimer h; inFlight := inFlight h;
       nextSave := nextSave h; started := started h; world := world h |}))
    as Hview.
  unfold fire_timeouts in Hview at 2. rewrite saves_view in Hview.
  unfold timer_view in Hview. by injection Hview as _ _ _ _ Hc _.
Qed.

Lemma none_due (now : Z) (l : list (nat * Z)) :
  Forall (λ p, now < p.2) l →
  filter (λ p, due now p = true) l = [] ∧
  map (λ p, if due now p then (p.1, p.2 + period interval) else p) l = l.
Proof.
  induction 1 as [|p l Hp _ [IH1 IH2]]; [done |].
  assert (Hdue : due now p = false) by (unfold due; apply Z.leb_gt; lia).
  rewrite filter_cons. simpl. rewrite Hdue, IH1, IH2.
  by destruct (decide (false = true)).
Qed.

(** While no interval timer is due, a tick starts no interval save. *)
Lemma tick_no_interval h :
  Forall (λ p, clock h + 1 < p.2) (intervals h) →
  interval_saves (tick h) = interval_saves h ∧
  intervals (tick h) = intervals h.
Proof.
  intros Hlate. unfold UseAutoSave.tick, UseAutoSave.fire_intervals.
  set (h1 := fire_timeouts _).
  assert (Hiv : intervals h1 = intervals h)
    by (unfold h1, fire_timeouts; by rewrite saves_intervals).
  assert (Hck : clock h1 = clock h + 1).
  { pose proof (saves_view Debounce
      (filter (λ p, due (clock h + 1) p = true) (timeouts h))) as Hview.
    unfold h1, fire_timeouts. simpl.
    match goal with |- clock (foldl _ ?x _) = _ =>
      specialize (Hview x); unfold timer_view in Hview;
      by injection Hview as _ _ _ _ Hc _ end. }
  assert (Hsv : interval_saves h1 = interval_saves h)
    by (unfold h1, fire_timeouts; by rewrite debounce_saves_interval_saves).
  rewrite Hiv, Hck.
  destruct (none_due (clock h + 1) (intervals h) Hlate) as [Hnone Hsame].
  rewrite Hnone, Hsame. simpl. split; [| done].
  unfold interval_saves in *. simpl. exact Hsv.
Qed.

Lemma quiet_no_interval es h :
  forallb quiet es = true →
  Forall (λ p, clock h + ticks es < p.2) (intervals h) →
  interval_saves (steps h es) = interval_saves h.
Proof.
  revert h. induction es as [|e es IH]; intros h Hq Hlate; [done |].
  simpl in Hq. apply andb_prop in Hq as [He Hq]. rewrite steps_cons.
  pose proof (ticks_nonneg es) as Hn.
  destruct e as [d| |id|]; try discriminate; simpl in *.
  - destruct (tick_no_interval h) as [Hs Hi].
    { eapply Forall_impl; [exact Hlate |]. simpl. intros. lia. }
    rewrite IH, Hs; [done | done |].
    rewrite Hi, tick_clock.
    eapply Forall_impl; [exact Hlate |]. simpl. intros. lia.
  - rewrite IH; [| done |].
    + unfold interval_saves. by rewrite settle_started.
    + rewrite settle_intervals.
      pose proof (settle_view id h) as Hview.
      unfold timer_view in Hview. injection Hview as _ _ _ _ Hc _.
      by rewrite Hc.
Qed.

(** Every call of [performSave] is made by one of the two timers. *)
Lemma started_length h :
  length (started h) =
    (length (debounce_saves h) + length (interval_saves h))%nat.
Proof.
  unfold debounce_saves, interval_saves.
  induction (started h) as [|s l IH]; [done |].
  rewrite !filter_cons. destruct (start_trigger s) eqn:E.
  - destruct (decide (Debounce = Debounce)); [| done].
    destruct (decide (Debounce = Interval)); [done |]. simpl. lia.
  - destruct (decide (Interval = Debounce)); [done |].
    destruct (decide (Interval = Interval)); [| done]. simpl. lia.
Qed.

Lemma debounce_log_length h :
  length (debounce_log h) = length (debounce_saves h).
Proof. unfold debounce_log. apply length_fmap. Qed.

(** *** C8: the debounce trigger *)

(** C8.  The first render sets no debounce timer and starts no save, and
    as long as the data does not change no debounced save is ever started.
    After a change of the data, a stretch in which only time passes and
    saves settle starts exactly one debounced save if it lasts 2500 ms, at
    2500 ms after the change and with the data of the change, and none
    before; counting the interval timer too, that is the only save as long
    as the interval has not elapsed.  A second change before the 2500 ms
    are over restarts the timer: the save comes 2500 ms after the second
    change, and it is still the only one. *)
Theorem debounce_spec d (now : Z) (w : W) :
  timeouts (mount d now w) = [] ∧
  started (mount d now w) = [] ∧
  (∀ es, forallb quiet es = true →
     debounce_log (steps (mount d now w) es) = []) ∧
  (∀ before d' es,
     let h := steps (mount d now w) before in
     forallb quiet es = true →
     debounce_log (steps (change d' h) es) =
       debounce_log h ++
       (if 2500 <=? ticks es then [(clock h + 2500, d')] else [])) ∧
  (∀ d' es,
     forallb quiet es = true → ticks es < period interval →
     length (started (steps (change d' (mount d now w)) es)) =
       if 2500 <=? ticks es then 1%nat else 0%nat) ∧
  (∀ before d1 es1 d2 es2,
     let h := steps (mount d now w) before in
     forallb quiet es1 = true → ticks es1 < 2500 →
     forallb quiet es2 = true →
     debounce_log (steps (change d2 (steps (change d1 h) es1)) es2) =
       debounce_log h ++
       (if 2500 <=? ticks es2
        then [(clock h + ticks es1 + 2500, d2)] else [])).
Proof.
  split; [reflexivity |]. split; [reflexivity |]. split; [| split; [| split]].
  - intros es Hq.
    by destruct (quiet_idle es (mount d now w) Hq eq_refl) as (_ & -> & _).
  - intros before d' es h Hq.
    assert (Hwf : wf h) by apply wf_steps, wf_mount.
    by destruct (change_then_quiet d' h es Hwf Hq) as [-> _].
  - intros d' es Hq Hlt.
    pose proof (wf_mount d now w) as Hwf.
    destruct (change_then_quiet d' (mount d now w) es Hwf Hq) as [Hlog _].
    rewrite started_length, <- debounce_log_length, Hlog.
    rewrite (quiet_no_interval es (change d' (mount d now w)) Hq).
    + simpl. unfold DEBOUNCE_MS.
      by destruct (2500 <=? ticks es).
    + simpl. repeat constructor. simpl. lia.
  - intros before d1 es1 d2 es2 h Hq1 Hlt Hq2.
    assert (Hwf : wf h) by apply wf_steps, wf_mount.
    destruct (change_then_quiet d1 h es1 Hwf Hq1) as [Hlog1 Hck1].
    assert (Hwf1 : wf (steps (change d1 h) es1)).
    { apply wf_steps. apply (wf_step h (Change d1) Hwf). }
    destruct (change_then_quiet d2 _ es2 Hwf1 Hq2) as [Hlog2 _].
    rewrite Hlog2, Hlog1, Hck1. unfold DEBOUNCE_MS.
    destruct (Z.leb_spec 2500 (ticks es1)); [lia |].
    by rewrite app_nil_r.
Qed.

(** *** C9: no single-flight guard *)

Lemma lookup_save_remove (id : nat) (l : list (nat * D)) :
  lookup_save id (remove_save id l) = None.
Proof.
  unfold remove_save. induction l as [|[i x] l IH]; [done |].
  rewrite filter_cons. simpl. destruct (decide (i ≠ id)) as [Hne|Heq].
  - simpl. destruct (Nat.eqb_spec i id); [done | exact IH].
  - exact IH.
Qed.

(** C9 (amended).  [performSave] has no guard: whatever is in flight, a
    trigger starts one more save with the data of that moment.  When the
    debounce timer and the interval timer are due in the same tick, both
    start a save, and both are then in flight.  A save that settles writes
    its result whatever else is in flight, and sets the status, so that the
    world and the status are those of the save that settles last. *)
Theorem performSave_unguarded h (t : Trigger) :
  inFlight (performSave t h) = inFlight h ++ [(nextSave h, dataRef h)] ∧
  length (inFlight (performSave t h)) = S (length (inFlight h)) ∧
  (∀ id1 id2,
     timeouts h = [(id1, clock h + 1)] →
     intervals h = [(id2, clock h + 1)] →
     inFlight (tick h) =
       inFlight h ++ [(nextSave h, dataRef h); (S (nextSave h), dataRef h)]) ∧
  (∀ id x w',
     lookup_save id (inFlight h) = Some x →
     onSave x (world h) = Resolved w' →
     world (settle id h) = w' ∧
     status (settle id h) = (if alive h then saved else status h) ∧
     inFlight (settle id h) = remove_save id (inFlight h)).
Proof.
  split; [apply performSave_inFlight |]. split.
  { rewrite performSave_inFlight, length_app. simpl. lia. }
  split.
  - intros id1 id2 Hto Hiv.
    destruct h as [st ls ref dr im al ck to iv nt inf ns sta wo].
    simpl in *. subst.
    destruct al;
      unfold UseAutoSave.tick, fire_timeouts, UseAutoSave.fire_intervals,
        performSave, setStatus, due; simpl;
      do 2 (rewrite ?filter_cons, ?filter_nil; simpl; rewrite ?Z.leb_refl;
            repeat (destruct (decide _); try done); simpl);
      by rewrite <- app_assoc.
  - intros id x w' Hid Hok. unfold UseAutoSave.settle. rewrite Hid, Hok.
    unfold setLastSaved, setStatus. simpl. by destruct (alive h).
Qed.

End facts.
End AutoSaveFacts.

(** ** The scheduler on a store of one key *)

(** The data is a string, the world is the text under the one durable key,
    and a save writes the data it was started with. *)
Module AutoSaveExamples.
Import UseAutoSave AutoSaveFacts Samples.

Local Abbreviation mount := (@mount string (option string) every).
Local Abbreviation advance := (@advance string (option string) every).
Local Abbreviation steps := (@steps string (option string) write every).
Local Abbreviation settle := (@settle string (option string) write).

(** The scenario of the specification: a change at [t = 0] and nothing
    else; no save before 2500 ms, one save at 2500 ms. *)
Example one_change :
  started (advance 2499 (change "v1" (mount "v0" 0 None))) = [] ∧
  started (advance 2500 (change "v1" (mount "v0" 0 None)))
    = [{| start_id := 0; start_trigger := Debounce;
          start_at := 2500; start_data := "v1" |}] ∧
  started (advance 5000 (change "v1" (mount "v0" 0 None)))
    = [{| start_id := 0; start_trigger := Debounce;
          start_at := 2500; start_data := "v1" |}].
Proof. repeat split; vm_compute; reflexivity. Qed.

(** Without any change, the only saves are those of the interval timer. *)
Example interval_only :
  started (advance (Z.to_nat 120000) (mount "v0" 0 None))
    = [{| start_id := 0; start_trigger := Interval;
          start_at := 120000; start_data := "v0" |}].
Proof. vm_compute. reflexivity. Qed.

(** Witness of C8. *)
Lemma debounce_spec_witness :
  forallb (@quiet string) (replicate 2500 Tick) = true ∧
  debounce_log (steps (change "v1" (mount "v0" 0 None)) (replicate 2500 Tick))
    = [(2500, "v1")].
Proof.
  assert (Hq : forallb (@quiet string) (replicate 2500 Tick) = true)
    by (vm_compute; reflexivity).
  split; [exact Hq |].
  destruct (debounce_spec write every "v0" 0 None) as (_ & _ & _ & Hchange & _).
  etransitivity; [exact (Hchange [] "v1" (replicate 2500 Tick) Hq) |].
  vm_compute. reflexivity.
Defined.

(** Counterexample to C9 as stated: with the default interval, a change at
    117500 ms makes the debounce timer and the interval timer due in the
    same tick, at 120000 ms.  Each starts a save; neither is skipped, held
    back or merged, and the two are in flight together. *)
Lemma concurrent_saves_counterexample :
  let h := advance 2500
             (change "v1" (advance (Z.to_nat 117500) (mount "v0" 0 None))) in
  started h
    = [{| start_id := 0; start_trigger := Debounce;
          start_at := 120000; start_data := "v1" |};
       {| start_id := 1; start_trigger := Interval;
          start_at := 120000; start_data := "v1" |}] ∧
  inFlight h = [(0%nat, "v1"); (1%nat, "v1")] ∧
  (2 ≤ length (inFlight h))%nat.
Proof. vm_compute. repeat split; lia. Qed.

(** Two saves in flight with different data: the one that settles last
    wins, here the older one. *)
Example last_settle_wins :
  let h := change "v2" (advance 2500 (change "v1" (mount "v0" 0 None))) in
  let h := advance 2500 h in
  inFlight h = [(0%nat, "v1"); (1%nat, "v2")] ∧
  world (settle 0 (settle 1 h)) = Some "v1" ∧
  status (settle 0 (settle 1 h)) = saved ∧
  inFlight (settle 0 (settle 1 h)) = [].
Proof. vm_compute. repeat split. Qed.

(** Witness of C9 (amended). *)
Lemma performSave_unguarded_witness :
  timeouts both_due = [(2%nat, clock both_due + 1)] ∧
  intervals both_due = [(1%nat, clock both_due + 1)] ∧
  inFlight (tick every both_due) = [(0%nat, "v1"); (1%nat, "v1")].
Proof.
  assert (Hto : timeouts both_due = [(2%nat, clock both_due + 1)])
    by (vm_compute; reflexivity).
  assert (Hiv : intervals both_due = [(1%nat, clock both_due + 1)])
    by (vm_compute; reflexivity).
  split; [exact Hto |]. split; [exact Hiv |].
  destruct (performSave_unguarded write every both_due Debounce)
    as (_ & _ & Hboth & _).
  rewrite (Hboth 2%nat 1%nat Hto Hiv). vm_compute. reflexivity.
Defined.

End AutoSaveExamples.

(** ** The scheduler with the save callback of the photo editor *)

Module EditorAutoSaveFacts.
Import UseAutoSave PhotoEditor PhotoEditorFacts.

Section editor.
Variable readAsDataURL : File → promise string.
Variable storage_accepts : string → text → bool.
Variable interval : Z.

Local Abbreviation onSave := (handleAutoSave readAsDataURL storage_accepts).

(** A save in flight whose history has nothing to persist settles as
    saved, and the durable store is as before. *)
Lemma settle_nothing_to_persist (h : Hook SaveData (gmap string text))
    (id : nat) (d : SaveData) :
  lookup_save id (inFlight h) = Some d →
  getSerializableState readAsDataURL (d_history d) (d_currentIndex d)
    = Resolved None →
  world (settle onSave id h) = world h ∧
  status (settle onSave id h) = (if alive h then saved else status h).
Proof.
  intros Hid Hnone. unfold settle. rewrite Hid.
  rewrite (handleAutoSave_nothing readAsDataURL storage_accepts d _ Hnone).
  unfold setLastSaved, setStatus. simpl. by destruct (alive h).
Qed.

(** A save whose callback fails leaves the durable store as before and
    sets the status to error. *)
Lemma settle_rejected (h : Hook SaveData (gmap string text))
    (id : nat) (d : SaveData) (reason : string) :
  lookup_save id (inFlight h) = Some d →
  onSave d (world h) = Rejected reason →
  world (settle onSave id h) = world h ∧
  status (settle onSave id h) = (if alive h then error else status h).
Proof.
  intros Hid Hrej. unfold settle. rewrite Hid, Hrej.
  unfold setStatus. simpl. by destruct (alive h).
Qed.

End editor.
End EditorAutoSaveFacts.

(** ** More on the history store *)

(** How the operations of [useHistory] compose, what the derived flags
    [canUndo] and [canRedo] say, and what the hook does with a limit below
    one. *)
Module HistoryMore.
Import JsArray JsArrayFacts UseHistory HistoryFacts.

Section more.
Context {T : Type}.
Variable JSON_stringify : T → string.

Local Abbreviation Store := (Store T).
Local Abbreviation commit := (commit JSON_stringify).
Local Abbreviation same_json := (same_json JSON_stringify).

Implicit Types (s : Store) (L : num) (next cur : T) (h : list T).

(** *** Undo and redo undo each other *)

Lemma store_eq s (c : Z) :
  c = currentIndex s → {| history := history s; currentIndex := c |} = s.
Proof. intros ->. by destruct s. Qed.

(** On a store with its cursor inside the sequence: where [canUndo]
    holds, [redo] takes back an [undo]; where [canRedo] holds, [undo]
    takes back a [redo]; and each flag is off exactly when its operation
    leaves the store as it is. *)
Theorem undo_redo_inverse s :
  valid s →
  (canUndo s = true → redo (undo s) = s) ∧
  (canRedo s = true → undo (redo s) = s) ∧
  (canUndo s = false ↔ undo s = s) ∧
  (canRedo s = false ↔ redo s = s).
Proof.
  intros [Hlen Hc]. unfold canUndo, canRedo, undo, redo.
  split; [| split; [| split]].
  - intros Hu. rewrite Hu. simpl.
    destruct (Z.ltb_spec (currentIndex s - 1) (len (history s) - 1)); [| lia].
    apply store_eq. lia.
  - intros Hr. rewrite Hr. simpl.
    destruct (Z.ltb_spec 0 (currentIndex s + 1)); [| lia].
    apply store_eq. lia.
  - destruct (Z.ltb_spec 0 (currentIndex s)) as [Hpos|Hle].
    + split; [discriminate |]. intros E.
      apply (f_equal currentIndex) in E. simpl in E. lia.
    + done.
  - destruct (Z.ltb_spec (currentIndex s) (len (history s) - 1)) as [Hlt|Hge].
    + split; [discriminate |]. intros E.
      apply (f_equal currentIndex) in E. simpl in E. lia.
    + done.
Qed.

(** *** The state after a commit *)

Lemma index_drop_last h (k : nat) next :
  (k ≤ length h)%nat →
  index (drop k (h ++ [next])) (len (drop k (h ++ [next])) - 1) = Some next.
Proof.
  intros Hk. rewrite drop_app_le by done.
  rewrite len_app.
  replace (len (drop k h) + len [next] - 1) with (len (drop k h))
    by (unfold len; simpl; lia).
  apply index_last.
Qed.

Lemma excess_le_prefix L (n : nat) :
  limit_ok L → (excess L (S n) ≤ n)%nat.
Proof. destruct L as [l|]; simpl; lia. Qed.

(** A commit of a state with another JSON text makes that state the
    current one, at the last index. *)
Lemma commit_distinct_state L s next :
  limit_ok L → same_json next (state s) = false →
  ∃ s', commit L next s = Some s' ∧
        state s' = Some next ∧ currentIndex s' = len (history s') - 1.
Proof.
  intros HL E. eexists. split.
  { apply commit_distinct; [destruct L; simpl in *; lia | exact E]. }
  cbn zeta. split; [| reflexivity].
  unfold state. cbn [history currentIndex]. apply index_drop_last.
  rewrite length_app. simpl. rewrite Nat.add_1_r.
  by apply excess_le_prefix.
Qed.

Lemma commit_current L s next :
  limit_ok L → valid s →
  ∃ s', commit L next s = Some s' ∧
    JSON_stringify <$> state s' = Some (JSON_stringify next) ∧
    (same_json next (state s) = false →
       state s' = Some next ∧
       currentIndex s' = len (history s') - 1 ∧
       canRedo s' = false).
Proof.
  intros HL Hv. destruct (same_json next (state s)) eqn:E.
  - exists s. split; [by apply commit_same |]. split; [| discriminate].
    destruct (valid_state s Hv) as (cur & Hcur).
    apply (same_json_true JSON_stringify next s cur Hcur) in E.
    rewrite Hcur. simpl. by rewrite E.
  - destruct (commit_distinct_state L s next HL E) as (s' & Hs' & Hst & Hidx).
    exists s'. split; [exact Hs' |]. rewrite Hst. split; [reflexivity |].
    intros _. split; [reflexivity |]. split; [exact Hidx |].
    unfold canRedo. rewrite Hidx. apply Z.ltb_irrefl.
Qed.

(** With a limit [L ≥ 1], after [commit(next)] on a store with its cursor
    inside the sequence the current state has the JSON text of [next].
    When the text differs from that of the state before, the current state
    is [next] itself, it is the last entry, and there is nothing to
    redo. *)
Theorem commit_makes_current L s next :
  limit_ok L → valid s →
  ∃ s', commit L next s = Some s' ∧
    JSON_stringify <$> state s' = Some (JSON_stringify next) ∧
    (same_json next (state s) = false →
       state s' = Some next ∧
       currentIndex s' = len (history s') - 1 ∧
       canRedo s' = false).
Proof. apply commit_current. Qed.

(** *** One undo after a commit *)

Lemma undo_commit L s next cur :
  match L with Fin l => 2 ≤ l | Infinity => True end →
  valid s → state s = Some cur →
  JSON_stringify next ≠ JSON_stringify cur →
  ∃ s', commit L next s = Some s' ∧
        state (undo s') = Some cur ∧
        currentIndex (undo s') = currentIndex s' - 1.
Proof.
  intros HL Hv Hcur Hne.
  apply (same_json_false JSON_stringify next s cur Hcur) in Hne.
  eexists. split.
  { apply commit_distinct; [destruct L; simpl in *; lia | exact Hne]. }
  cbn zeta. pose proof (len_take_cursor s Hv) as Htake.
  destruct Hv as [Hlen Hc]. rewrite slice0_nonneg by lia.
  set (pre := take (Z.to_nat (currentIndex s + 1)) (history s)) in *.
  set (k := excess L (length (pre ++ [next]))).
  assert (Hpre : length pre = Z.to_nat (currentIndex s + 1))
    by (unfold len in Htake; lia).
  assert (Hk : (k ≤ Z.to_nat (currentIndex s))%nat).
  { unfold k. rewrite length_app, Hpre. simpl.
    destruct L as [l|]; simpl in *; lia. }
  assert (Hkept : len (drop k (pre ++ [next])) = currentIndex s + 2 - Z.of_nat k).
  { unfold len. rewrite length_drop, length_app, Hpre. simpl. lia. }
  unfold undo. cbn [history currentIndex]. rewrite Hkept.
  destruct (Z.ltb_spec 0 (currentIndex s + 2 - Z.of_nat k - 1)); [| lia].
  cbn [currentIndex]. split; [| reflexivity].
  unfold state, index. cbn [history currentIndex].
  destruct (Z.ltb_spec (currentIndex s + 2 - Z.of_nat k - 1 - 1) 0); [lia |].
  rewrite lookup_drop.
  replace (k + Z.to_nat (currentIndex s + 2 - Z.of_nat k - 1 - 1))%nat
    with (Z.to_nat (currentIndex s)) by lia.
  rewrite lookup_app_l by lia. unfold pre.
  rewrite lookup_take_lt by lia.
  unfold state, index in Hcur.
  destruct (Z.ltb_spec (currentIndex s) 0); [lia | exact Hcur].
Qed.

(** With a limit [L ≥ 2], [undo] after a commit of a distinct state gives
    back the state that was current before the commit, also when the
    commit evicted entries at the front. *)
Theorem undo_after_commit L s next cur :
  match L with Fin l => 2 ≤ l | Infinity => True end →
  valid s → state s = Some cur →
  JSON_stringify next ≠ JSON_stringify cur →
  ∃ s', commit L next s = Some s' ∧
        state (undo s') = Some cur ∧
        currentIndex (undo s') = currentIndex s' - 1.
Proof. apply undo_commit. Qed.

(** *** The bound on the length *)

Lemma length_bound L s next :
  limit_ok L → same_json next (state s) = false →
  ∃ s', commit L next s = Some s' ∧ fits L (len (history s')).
Proof.
  intros HL E. eexists. split.
  { apply commit_distinct; [destruct L; simpl in *; lia | exact E]. }
  cbn zeta. cbn [history]. unfold len. rewrite length_drop.
  destruct L as [l|]; simpl in *; [lia | done].
Qed.

(** With a limit [L ≥ 1]: a commit of a distinct state leaves at most [L]
    entries whatever the length before; undo, redo and reset keep a store
    within the limit within it; [loadHistory] installs its sequence as it
    is, so that the store is within the limit afterwards when the loaded
    sequence is. *)
Theorem length_within_limit L s (o : Op T) :
  limit_ok L →
  (∀ next, same_json next (state s) = false →
     ∃ s', commit L next s = Some s' ∧ fits L (len (history s'))) ∧
  (fits L (len (history s)) →
   match o with
   | OpLoadHistory (Some h) _ => fits L (len h)
   | _ => True
   end →
   ∃ s', run JSON_stringify L o s = Some s' ∧ fits L (len (history s'))).
Proof.
  intros HL.
  assert (Hcommit : ∀ next, same_json next (state s) = false →
            ∃ s', commit L next s = Some s' ∧ fits L (len (history s'))).
  { intros next E. by apply length_bound. }
  split; [exact Hcommit |].
  intros Hfit Ho. destruct o as [a| | |x|[h|] i]; simpl.
  - set (next := resolve a s).
    destruct (same_json next (state s)) eqn:E.
    + exists s. split; [| exact Hfit].
      assert (Hs : UseHistory.setState JSON_stringify L a s = commit L next s)
        by (by destruct a).
      rewrite Hs. by apply commit_same.
    + destruct (Hcommit next E) as (s' & Hs' & Hfit').
      exists s'. split; [| exact Hfit']. by destruct a.
  - eexists. split; [reflexivity |]. by rewrite undo_history.
  - eexists. split; [reflexivity |]. by rewrite redo_history.
  - eexists. split; [reflexivity |]. unfold len. simpl.
    destruct L; simpl in *; [lia | done].
  - eexists. split; [reflexivity |]. unfold loadHistory.
    destruct ((0 <? len h) && (0 <=? i) && (i <? len h)); [exact Ho | exact Hfit].
  - eexists. split; [reflexivity | exact Hfit].
Qed.

(** *** A limit below one *)

(** The hook takes any number as [limit].  With limit 0 a commit of a
    distinct state empties the sequence and leaves the cursor at -1, where
    there is no current state; from there every commit gives the same
    store again, and undo and redo do nothing.  With a negative limit the
    eviction loop of such a commit does not end. *)
Theorem limit_below_one s next :
  same_json next (state s) = false →
  commit (Fin 0) next s = Some {| history := []; currentIndex := -1 |} ∧
  (∀ l, l < 0 → commit (Fin l) next s = None) ∧
  (let e := {| history := []; currentIndex := -1 |} in
   state e = None ∧
   (∀ x, commit (Fin 0) x e = Some e) ∧
   undo e = e ∧ redo e = e).
Proof.
  intros E. split; [| split].
  - rewrite commit_distinct by (simpl; lia || done). cbn zeta.
    set (appended := slice0 _ _ ++ [next]).
    assert (Hall : drop (excess (Fin 0) (length appended)) appended = [])
      by (apply drop_ge; simpl; lia).
    by rewrite Hall.
  - intros l Hl. unfold UseHistory.commit, UseHistory.setState. simpl.
    rewrite E. by rewrite (evict_negative l _ Hl).
  - repeat split.
Qed.

End more.
End HistoryMore.

(** ** More on the autosave scheduler *)

(** The interval trigger, the data that a save reads, the status, and the
    teardown. *)
Module AutoSaveMore.
Import UseAutoSave AutoSaveFacts AutoSaveTraces.

Section more.
Context {D W : Type}.
Variable onSave : D → W → promise W.
Variable interval : Z.

Local Abbreviation Hook := (Hook D W).
Local Abbreviation Event := (Event D).
Local Abbreviation settle := (settle onSave).
Local Abbreviation tick := (tick interval).
Local Abbreviation step := (step onSave interval).
Local Abbreviation steps := (steps onSave interval).
Local Abbreviation mount := (mount interval).
Local Abbreviation fire_intervals := (fire_intervals interval).
Local Abbreviation P := (period interval).

Implicit Types (h : Hook) (es : list Event) (d : D).

Ltac by_alive h :=
  unfold performSave, setLastSaved, setStatus;
  destruct (alive h) eqn:?; simpl; congruence.

(** *** What a run of [performSave] appends to the log *)

Lemma performSave_alive (t : Trigger) h : alive (performSave t h) = alive h.
Proof. by_alive h. Qed.

Lemma performSave_clock (t : Trigger) h : clock (performSave t h) = clock h.
Proof. by_alive h. Qed.

Lemma performSave_dataRef (t : Trigger) h :
  dataRef (performSave t h) = dataRef h.
Proof. by_alive h. Qed.

Lemma saves_started {X} (t : Trigger) (l : list X) h :
  ∃ new,
    started (foldl (λ h _, performSave t h) h l) = started h ++ new ∧
    length new = length l ∧
    Forall (λ s, start_trigger s = t ∧ start_at s = clock h ∧
                 start_data s = dataRef h) new.
Proof.
  revert h. induction l as [|x l IH]; intros h.
  - exists []. by rewrite app_nil_r.
  - simpl. destruct (IH (performSave t h)) as (new & Hs & Hl & Hall).
    eexists (_ :: new). rewrite Hs, performSave_started, <- app_assoc.
    split; [reflexivity |]. split; [simpl; by rewrite Hl |].
    constructor; [done |].
    eapply Forall_impl; [exact Hall |].
    intros s (-> & -> & ->).
    by rewrite performSave_clock, performSave_dataRef.
Qed.

(** One millisecond: the saves that a tick starts are appended to the
    log, and each reads the data ref as it is at that tick. *)
Lemma tick_started h :
  ∃ new,
    started (tick h) = started h ++ new ∧
    Forall (λ s, start_at s = clock h + 1 ∧ start_data s = dataRef h) new.
Proof.
  unfold UseAutoSave.tick, UseAutoSave.fire_intervals.
  set (h2 := fire_timeouts _).
  assert (H2 : ∃ new, started h2 = started h ++ new ∧
                timer_view h2 =
                  (isMounted h, nextTimer h,
                   filter (λ p, due (clock h + 1) p = false) (timeouts h),
                   debounceTimeoutRef h, clock h + 1, dataRef h) ∧
                Forall (λ s, start_at s = clock h + 1 ∧
                             start_data s = dataRef h) new).
  { unfold h2, fire_timeouts. simpl.
    match goal with |- context [foldl _ ?x ?l] =>
      destruct (saves_started Debounce l x) as (new & Hs & _ & Hall);
      exists new; rewrite Hs, saves_view end.
    split; [reflexivity |]. split; [reflexivity |].
    eapply Forall_impl; [exact Hall |]. by intros s (_ & ? & ?). }
  destruct H2 as (new2 & Hs2 & Hview2 & Hall2).
  unfold timer_view in Hview2. injection Hview2 as ? ? ? ? Hc2 Hd2.
  match goal with |- context [foldl _ ?x ?l] =>
    destruct (saves_started Interval l x) as (new3 & Hs3 & _ & Hall3) end.
  exists (new2 ++ new3). rewrite Hs3. simpl. rewrite Hs2, <- app_assoc.
  split; [reflexivity |]. apply Forall_app. split; [exact Hall2 |].
  eapply Forall_impl; [exact Hall3 |].
  intros s (_ & -> & ->). by rewrite Hc2, Hd2.
Qed.

(** *** The parts of a step *)

Lemma change_save_view d h :
  save_view (change d h) = save_view h ∧
  clock (change d h) = clock h ∧
  dataRef (change d h) = d.
Proof.
  unfold change, debounce_effect, update_refs, clear_debounce, clearTimeout.
  destruct h as [st ls [[|n]|] dr [|] al ck ts ivs nt fl ns sd wd]; done.
Qed.

Lemma unmount_save_view h :
  status (unmount h) = status h ∧ lastSaved (unmount h) = lastSaved h ∧
  inFlight (unmount h) = inFlight h ∧ started (unmount h) = started h ∧
  world (unmount h) = world h ∧ clock (unmount h) = clock h ∧
  dataRef (unmount h) = dataRef h ∧
  alive (unmount h) = false ∧ intervals (unmount h) = [].
Proof.
  unfold unmount, clear_debounce, clearTimeout.
  destruct h as [st ls [[|n]|] dr im al ck ts ivs nt fl ns sd wd]; done.
Qed.

Lemma settle_clock (id : nat) h : clock (settle id h) = clock h.
Proof.
  pose proof (settle_view onSave id h) as Hview.
  unfold timer_view in Hview. by injection Hview as ? ? ? ? Hc ?.
Qed.

Lemma settle_dataRef (id : nat) h : dataRef (settle id h) = dataRef h.
Proof.
  pose proof (settle_view onSave id h) as Hview.
  unfold timer_view in Hview. by injection Hview as ? ? ? ? ? Hd.
Qed.

Lemma tick_dataRef h : dataRef (tick h) = dataRef h.
Proof.
  unfold UseAutoSave.tick.
  match goal with |- dataRef (UseAutoSave.fire_intervals _ ?x) = _ =>
    pose proof (fire_intervals_view interval x) as Hview end.
  unfold fire_timeouts in Hview at 2. rewrite saves_view in Hview.
  unfold timer_view in Hview. by injection Hview as ? ? ? ? ? Hd.
Qed.

Lemma step_clock h (e : Event) :
  clock (step h e) = clock h + ticks [e].
Proof.
  destruct e as [d | | id |]; cbn [UseAutoSave.step ticks].
  - destruct (change_save_view d h) as (_ & -> & _). lia.
  - rewrite (tick_clock interval). lia.
  - rewrite settle_clock. lia.
  - destruct (unmount_save_view h) as (_ & _ & _ & _ & _ & -> & _). lia.
Qed.

Lemma ticks_app es1 es2 : ticks (es1 ++ es2) = ticks es1 + ticks es2.
Proof.
  induction es1 as [|e es1 IH]; [done |].
  destruct e; simpl; rewrite IH; lia.
Qed.

(** The clock counts the ticks, whatever else happens. *)
Lemma steps_clock es h : clock (steps h es) = clock h + ticks es.
Proof.
  revert h. induction es as [|e es IH]; intros h; [simpl; lia |].
  rewrite (steps_cons onSave interval), IH, step_clock.
  change (e :: es) with ([e] ++ es). rewrite ticks_app. lia.
Qed.

(** The data ref holds the data of the last render. *)
Lemma steps_dataRef es h : dataRef (steps h es) = latest (dataRef h) es.
Proof.
  revert h. induction es as [|e es IH]; intros h; [done |].
  rewrite (steps_cons onSave interval), IH.
  destruct e as [d | | id |]; cbn [UseAutoSave.step latest].
  - by destruct (change_save_view d h) as (_ & _ & ->).
  - by rewrite tick_dataRef.
  - by rewrite settle_dataRef.
  - by destruct (unmount_save_view h) as (_ & _ & _ & _ & _ & _ & -> & _).
Qed.

Lemma save_view_parts h h' :
  save_view h' = save_view h →
  status h' = status h ∧ lastSaved h' = lastSaved h ∧ alive h' = alive h ∧
  intervals h' = intervals h ∧ inFlight h' = inFlight h ∧
  started h' = started h ∧ world h' = world h.
Proof. unfold save_view. by intros [= -> -> -> -> -> _ -> ->]. Qed.

Lemma fire_timeouts_keeps h :
  intervals (fire_timeouts h) = intervals h ∧
  clock (fire_timeouts h) = clock h ∧
  interval_saves (fire_timeouts h) = interval_saves h.
Proof.
  unfold fire_timeouts. rewrite saves_intervals, debounce_saves_interval_saves.
  split; [done |]. split; [| done].
  match goal with |- clock (foldl _ ?x ?l) = _ =>
    pose proof (saves_view Debounce l x) as Hview end.
  unfold timer_view in Hview. by injection Hview as ? ? ? ? Hc ?.
Qed.

Lemma interval_saves_performSave_Interval h :
  interval_saves (performSave Interval h) =
    interval_saves h ++
    [{| start_id := nextSave h; start_trigger := Interval;
        start_at := clock h; start_data := dataRef h |}].
Proof.
  unfold interval_saves. by rewrite performSave_started, filter_app.
Qed.

(** *** The interval timer *)

(** The millisecond at which the interval timer is due: one save, and the
    timer is set one period later. *)
Lemma tick_beat h (id : nat) :
  intervals h = [(id, clock h + 1)] →
  interval_log (tick h) = interval_log h ++ [clock h + 1] ∧
  intervals (tick h) = [(id, clock h + 1 + P)].
Proof.
  intros Hiv0. unfold UseAutoSave.tick, UseAutoSave.fire_intervals.
  set (h1 := fire_timeouts _).
  destruct (fire_timeouts_keeps
    {| status := status h; lastSaved := lastSaved h;
       debounceTimeoutRef := debounceTimeoutRef h; dataRef := dataRef h;
       isMounted := isMounted h; alive := alive h; clock := clock h + 1;
       timeouts := timeouts h; intervals := intervals h;
       nextTimer := nextTimer h; inFlight := inFlight h;
       nextSave := nextSave h; started := started h; world := world h |})
    as (Hiv & Hck & Hsv).
  fold h1 in Hiv, Hck, Hsv. simpl in Hiv, Hck.
  unfold interval_saves in Hsv at 2. simpl in Hsv. fold (interval_saves h) in Hsv.
  rewrite Hiv, Hck, Hiv0, filter_cons, filter_nil. simpl.
  unfold due at 1 2. simpl.
  destruct (decide _) as [_ | Hn]; [| by rewrite Z.leb_refl in Hn].
  rewrite Z.leb_refl. simpl. split.
  - unfold interval_log. rewrite interval_saves_performSave_Interval.
    rewrite fmap_app. simpl. unfold interval_saves at 1. simpl.
    fold (interval_saves h1). by rewrite Hsv.
  - unfold setStatus, due. simpl. rewrite Z.leb_refl.
    by destruct (alive h1).
Qed.

Lemma beats_S (now p : Z) (k : nat) :
  beats now p (S k) = beats now p k ++ [now + (Z.of_nat k + 1) * p].
Proof.
  unfold beats. rewrite seq_S, fmap_app. simpl. do 2 f_equal. lia.
Qed.

Lemma period_pos : 1 ≤ P.
Proof. unfold period. lia. Qed.

Lemma on_beat_mount d (now : Z) (w : W) : on_beat interval now 0 (mount d now w).
Proof.
  pose proof period_pos.
  unfold on_beat. simpl. split; [exists 1%nat; do 2 f_equal; lia |].
  split; [done |]. lia.
Qed.

Lemma on_beat_step (now : Z) (k : nat) h (e : Event) :
  e ≠ Unmount → on_beat interval now k h →
  ∃ k', on_beat interval now k' (step h e).
Proof.
  intros He ([id Hiv] & Hlog & Hlo & Hhi).
  destruct e as [d | | sid |]; cbn [UseAutoSave.step]; [| | | done].
  - exists k. destruct (change_save_view d h) as (Hview & Hck & _).
    apply save_view_parts in Hview as (_ & _ & _ & Hiv' & _ & Hsd & _).
    unfold on_beat, interval_log, interval_saves.
    rewrite Hiv', Hsd, Hck. split; [by exists id |]. done.
  - destruct (decide (clock h + 1 < now + (Z.of_nat k + 1) * P)) as [Hlt | Hge].
    + exists k.
      destruct (tick_no_interval interval h) as [Hsv Hiv'].
      { rewrite Hiv. by constructor. }
      unfold on_beat, interval_log.
      rewrite Hiv', Hsv, (tick_clock interval). split; [by exists id |].
      split; [done |]. lia.
    + exists (S k).
      assert (Hat : now + (Z.of_nat k + 1) * P = clock h + 1) by lia.
      rewrite Hat in Hiv. destruct (tick_beat h id Hiv) as [Hlog' Hiv'].
      pose proof period_pos.
      unfold on_beat. rewrite Hiv', Hlog', Hlog, beats_S, (tick_clock interval).
      split; [exists id; do 2 f_equal; lia |].
      split; [do 2 f_equal; lia |]. lia.
  - exists k. unfold on_beat, interval_log, interval_saves.
    rewrite (settle_intervals onSave), (settle_started onSave), settle_clock.
    split; [by exists id |]. done.
Qed.

Lemma on_beat_steps (now : Z) es (k : nat) h :
  mounted es = true → on_beat interval now k h →
  ∃ k', on_beat interval now k' (steps h es).
Proof.
  revert k h. induction es as [|e es IH]; intros k h Hes Hbeat; [by exists k |].
  simpl in Hes. apply andb_prop in Hes as [He Hes].
  destruct (on_beat_step now k h e) as [k' Hbeat']; [by destruct e | done |].
  rewrite (steps_cons onSave interval). by apply (IH k').
Qed.

Lemma on_beat_count (now : Z) (k : nat) h :
  on_beat interval now k h → k = Z.to_nat ((clock h - now) / P).
Proof.
  intros (_ & _ & Hlo & Hhi). pose proof period_pos.
  assert ((clock h - now) / P = Z.of_nat k); [| lia].
  symmetry. apply (Z.div_unique_pos _ _ _ (clock h - now - Z.of_nat k * P)); lia.
Qed.

(** While the component is mounted the interval timer calls [performSave]
    at the multiples of the period after the mount and at no other
    time, whatever the renders and the saves do in between. *)
Theorem interval_spec d (now : Z) (w : W) es :
  mounted es = true →
  interval_log (steps (mount d now w) es) =
    beats now (period interval) (Z.to_nat (ticks es / period interval)).
Proof.
  intros Hes.
  destruct (on_beat_steps now es 0 (mount d now w) Hes (on_beat_mount d now w))
    as [k Hbeat].
  pose proof (on_beat_count now k _ Hbeat) as Hk.
  rewrite steps_clock in Hk.
  replace (clock (mount d now w) + ticks es - now) with (ticks es) in Hk
    by (simpl; lia).
  destruct Hbeat as (_ & -> & _). by rewrite Hk.
Qed.

(** *** The status *)

Lemma saves_told {X} (t : Trigger) (l : list X) h :
  alive h = true →
  alive (foldl (λ h _, performSave t h) h l) = true ∧
  lastSaved (foldl (λ h _, performSave t h) h l) = lastSaved h ∧
  (l = [] ∨
   status (foldl (λ h _, performSave t h) h l) = saving ∧
   started (foldl (λ h _, performSave t h) h l) ≠ []).
Proof.
  revert h. induction l as [|x l IH]; intros h Hal; [by auto |].
  simpl. destruct (IH (performSave t h)) as (Hal' & Hls & Hcase).
  { by rewrite performSave_alive. }
  split; [done |]. split.
  { rewrite Hls. unfold performSave, setStatus. by rewrite Hal. }
  right. destruct Hcase as [-> | Hcase]; [| done]. cbn [foldl].
  rewrite performSave_status, performSave_started, Hal.
  split; [done |]. by destruct (started h).
Qed.

Lemma fire_timeouts_cases h :
  alive h = true →
  alive (fire_timeouts h) = true ∧
  (status (fire_timeouts h) = status h ∧
   lastSaved (fire_timeouts h) = lastSaved h ∧
   inFlight (fire_timeouts h) = inFlight h ∧
   started (fire_timeouts h) = started h
   ∨ status (fire_timeouts h) = saving ∧ started (fire_timeouts h) ≠ []).
Proof.
  intros Hal. unfold fire_timeouts.
  match goal with |- context [foldl _ ?x ?l] =>
    destruct (saves_told Debounce l x Hal) as (Hal' & _ & [Hl | Hcase]) end.
  - split; [done |]. left. by rewrite Hl.
  - split; [done |]. by right.
Qed.

Lemma fire_intervals_cases h :
  alive h = true →
  alive (fire_intervals h) = true ∧
  (status (fire_intervals h) = status h ∧
   lastSaved (fire_intervals h) = lastSaved h ∧
   inFlight (fire_intervals h) = inFlight h ∧
   started (fire_intervals h) = started h
   ∨ status (fire_intervals h) = saving ∧ started (fire_intervals h) ≠ []).
Proof.
  intros Hal. unfold UseAutoSave.fire_intervals.
  match goal with |- context [foldl _ ?x ?l] =>
    destruct (saves_told Interval l x Hal) as (Hal' & _ & [Hl | Hcase]) end.
  - split; [done |]. left. by rewrite Hl.
  - split; [done |]. by right.
Qed.

(** A tick either starts no save and leaves what the saves act on as it
    is, or leaves the status at [saving]. *)
Lemma tick_cases h :
  alive h = true →
  alive (tick h) = true ∧
  (status (tick h) = status h ∧ lastSaved (tick h) = lastSaved h ∧
   inFlight (tick h) = inFlight h ∧ started (tick h) = started h
   ∨ status (tick h) = saving ∧ started (tick h) ≠ []).
Proof.
  intros Hal. unfold UseAutoSave.tick.
  match goal with |- context [fire_timeouts ?x] =>
    destruct (fire_timeouts_cases x Hal) as (Hal1 & Hcase1);
    set (h1 := fire_timeouts x) in * end.
  destruct (fire_intervals_cases h1 Hal1) as (Hal2 & Hcase2).
  split; [done |].
  destruct Hcase2 as [(Hst & Hls & Hfl & Hsd) | Hcase2]; [| by right].
  rewrite Hst, Hls, Hfl, Hsd.
  destruct Hcase1 as [Hcase1 | Hcase1]; [by left | by right].
Qed.

Lemma told_mount d (now : Z) (w : W) : told (mount d now w).
Proof. by unfold told. Qed.

Lemma lookup_save_nil (id : nat) : lookup_save (D := D) id [] = None.
Proof. done. Qed.

Lemma told_step h (e : Event) : e ≠ Unmount → told h → told (step h e).
Proof.
  intros He (Hal & Hnone & Hsome).
  destruct e as [d | | sid |]; cbn [UseAutoSave.step]; [| | | done].
  - destruct (change_save_view d h) as (Hview & _).
    apply save_view_parts in Hview as (Hst & Hls & Hal' & _ & Hfl & Hsd & _).
    unfold told. by rewrite Hst, Hls, Hal', Hfl, Hsd.
  - destruct (tick_cases h Hal) as (Hal' & [(Hst & Hls & Hfl & Hsd) | (Hst & Hsd)]).
    + unfold told. by rewrite Hst, Hls, Hal', Hfl, Hsd.
    + unfold told. rewrite Hst. split; [done |]. split; done.
  - unfold UseAutoSave.settle.
    destruct (lookup_save sid (inFlight h)) as [x|] eqn:Hx; [| done].
    assert (Hsd : started h ≠ []).
    { intros Hsd. destruct (Hnone Hsd) as (_ & _ & Hfl).
      by rewrite Hfl in Hx. }
    unfold told, setLastSaved, setStatus.
    destruct (onSave x (world h)); simpl; rewrite Hal; simpl; rewrite ?Hal;
      simpl; split; done.
Qed.

Lemma told_steps es h : mounted es = true → told h → told (steps h es).
Proof.
  revert h. induction es as [|e es IH]; intros h Hes Htold; [done |].
  simpl in Hes. apply andb_prop in Hes as [He Hes].
  rewrite (steps_cons onSave interval). apply IH; [done |].
  apply told_step; [by destruct e | done].
Qed.

(** While the component is mounted the status is [idle] exactly as long
    as no save was ever started; until then nothing was saved and
    nothing is in flight. *)
Theorem status_idle_spec d (now : Z) (w : W) es :
  mounted es = true →
  let h := steps (mount d now w) es in
  (status h = idle ↔ started h = []) ∧
  (started h = [] → lastSaved h = None ∧ inFlight h = []).
Proof.
  intros Hes h.
  destruct (told_steps es (mount d now w) Hes (told_mount d now w))
    as (_ & Hnone & Hsome).
  fold h in Hnone, Hsome. split; [split |].
  - intros Hst. destruct (started h) eqn:Hsd; [done |].
    by destruct Hsome.
  - intros Hsd. by destruct (Hnone Hsd).
  - intros Hsd. by destruct (Hnone Hsd) as (_ & ? & ?).
Qed.

(** *** After the component is gone *)

Lemma stopped_unmount h : wf h → stopped (unmount h).
Proof.
  intros (_ & _ & Hts). unfold stopped, unmount, clear_debounce, clearTimeout.
  destruct Hts as [Hts | (id & at_ & Hts & Href & Hid & _)].
  - destruct (debounceTimeoutRef h) as [[|n]|]; simpl; by rewrite ?Hts.
  - rewrite Href. destruct id as [|n]; [lia |]. simpl.
    by rewrite Hts, filter_other_id.
Qed.

Lemma stopped_step h (e : Event) :
  (if e is Change _ then False else True) → stopped h →
  stopped (step h e) ∧ started (step h e) = started h ∧
  status (step h e) = status h ∧ lastSaved (step h e) = lastSaved h.
Proof.
  intros He (Hal & Hts & Hiv).
  destruct e as [d | | sid |]; cbn [UseAutoSave.step]; [done | | |].
  - unfold stopped, UseAutoSave.tick, UseAutoSave.fire_intervals, fire_timeouts.
    simpl. rewrite Hts. simpl. by rewrite Hiv.
  - unfold stopped, UseAutoSave.settle, setLastSaved, setStatus.
    destruct (lookup_save sid (inFlight h)) as [x|]; [| done].
    destruct (onSave x (world h)); simpl; by rewrite Hal.
  - unfold stopped, unmount, clear_debounce, clearTimeout.
    destruct (debounceTimeoutRef h) as [[|n]|]; simpl; by rewrite ?Hts.
Qed.

Lemma stopped_steps es h :
  unchanged es = true → stopped h →
  started (steps h es) = started h ∧
  status (steps h es) = status h ∧ lastSaved (steps h es) = lastSaved h.
Proof.
  revert h. induction es as [|e es IH]; intros h Hes Hstop; [done |].
  simpl in Hes. apply andb_prop in Hes as [He Hes].
  destruct (stopped_step h e) as (Hstop' & Hsd & Hst & Hls);
    [by destruct e | done |].
  rewrite (steps_cons onSave interval).
  destruct (IH _ Hes Hstop') as (-> & -> & ->). done.
Qed.

(** Once the component is gone no timer of the hook is left: no save is
    started any more, and the status and the time of the last save stay
    as they were.  A save that was in flight still writes when it
    settles. *)
Theorem unmount_spec d (now : Z) (w : W) before es :
  unchanged es = true →
  let h := steps (mount d now w) before in
  started (steps (unmount h) es) = started h ∧
  status (steps (unmount h) es) = status h ∧
  lastSaved (steps (unmount h) es) = lastSaved h ∧
  (∀ id x w',
     lookup_save id (inFlight h) = Some x →
     onSave x (world h) = Resolved w' →
     world (settle id (unmount h)) = w').
Proof.
  intros Hes h.
  assert (Hwf : wf h) by apply (wf_steps onSave interval), wf_mount.
  destruct (stopped_steps es (unmount h) Hes (stopped_unmount h Hwf))
    as (-> & -> & ->).
  destruct (unmount_save_view h) as (Hst & Hls & Hfl & Hsd & Hw & _).
  split; [done |]. split; [done |]. split; [done |].
  intros id x w' Hx Hw'. unfold UseAutoSave.settle.
  rewrite Hfl, Hx, Hw, Hw'. unfold setLastSaved, setStatus. simpl.
  by destruct (alive (unmount h)).
Qed.

(** *** The data of a save *)

(** Every call of [performSave] is made by a timer, and reads the data
    of the last render before it, not the data of the render that set the
    timer. *)
Theorem saves_read_latest d (now : Z) (w : W) es (e : Event) :
  dataRef (steps (mount d now w) es) = latest d es ∧
  ∃ new,
    started (steps (mount d now w) (es ++ [e])) =
      started (steps (mount d now w) es) ++ new ∧
    (e ≠ Tick → new = []) ∧
    Forall (λ s, start_at s = now + ticks es + 1 ∧
                 start_data s = latest d es) new.
Proof.
  assert (Hd : dataRef (steps (mount d now w) es) = latest d es)
    by (by rewrite steps_dataRef).
  split; [done |]. rewrite (steps_app onSave interval). simpl.
  set (h := steps (mount d now w) es) in *.
  destruct e as [d' | | sid |]; cbn [UseAutoSave.step].
  - exists []. destruct (change_save_view d' h) as (Hview & _).
    apply save_view_parts in Hview as (_ & _ & _ & _ & _ & -> & _).
    by rewrite app_nil_r.
  - destruct (tick_started h) as (new & Hs & Hall). exists new.
    split; [done |]. split; [done |].
    eapply Forall_impl; [exact Hall |]. intros s [-> ->].
    unfold h at 1. rewrite steps_clock. by rewrite Hd.
  - exists []. by rewrite (settle_started onSave), app_nil_r.
  - exists []. destruct (unmount_save_view h) as (_ & _ & _ & -> & _).
    by rewrite app_nil_r.
Qed.

End more.
End AutoSaveMore.

(** ** More on the photo editor *)

(** What the save and load paths leave alone, how they fail, and the
    handlers that replace or extend the history. *)
Module PhotoEditorMore.
Import JsArray JsArrayFacts PromiseFacts PhotoEditor PhotoEditorFacts.
Import PhotoEditorUi.

Lemma limit_ok_limit : UseHistory.limit_ok limit.
Proof. unfold limit. simpl. lia. Qed.

Section protocol.

Variable readAsDataURL : File → promise string.
Variable fetch_blob : string → promise Blob.
Variable storage_accepts : string → text → bool.
Variable createObjectURL : File → string.

Local Abbreviation getSerializableState := (getSerializableState readAsDataURL).
Local Abbreviation handleAutoSave :=
  (handleAutoSave readAsDataURL storage_accepts).
Local Abbreviation handleSaveProject :=
  (handleSaveProject readAsDataURL storage_accepts).
Local Abbreviation serialize_state := (serialize_state readAsDataURL).
Local Abbreviation reconstruct := (reconstruct fetch_blob).
Local Abbreviation handleLoadProject := (handleLoadProject fetch_blob).
Local Abbreviation restoreAutoSave := (restoreAutoSave fetch_blob).
Local Abbreviation setItem := (setItem storage_accepts).
Local Abbreviation codec_round_trips :=
  (codec_round_trips readAsDataURL fetch_blob).
Local Abbreviation same_content := (same_content readAsDataURL fetch_blob).
Local Abbreviation handleFileChange := (handleFileChange createObjectURL).

(** *** What the save paths leave alone *)

Lemma setItem_frame (key : string) (value : text) (ls ls' : gmap string text) :
  setItem key value ls = Resolved ls' →
  ls' = <[key := value]> ls ∧ ∀ k, k ≠ key → ls' !! k = ls !! k.
Proof.
  unfold PhotoEditor.setItem. destruct (storage_accepts key value); [| done].
  intros [= <-]. split; [done |]. intros k Hk. by rewrite lookup_insert_ne.
Qed.

(** The manual save never touches the history, writes under its own key
    only and always tells the user how it ended; the automatic save
    writes under its own key only.  Neither can overwrite the record of the
    other. *)
Theorem save_paths_frame (e : Editor) (d : SaveData) (ls ls' : gmap string text) :
  store (handleSaveProject e) = store e ∧
  (∀ k, k ≠ PHOTO_PROJECT_KEY →
     localStorage (handleSaveProject e) !! k = localStorage e !! k) ∧
  (∃ msg, alerts (handleSaveProject e) = alerts e ++ [msg]) ∧
  (handleAutoSave d ls = Resolved ls' →
   ∀ k, k ≠ AUTO_SAVE_KEY → ls' !! k = ls !! k).
Proof.
  split; [| split; [| split]].
  - unfold PhotoEditor.handleSaveProject.
    destruct (falsy _); [done |].
    destruct (getSerializableState _ _) as [[r|]|reason]; simpl; try done.
    by destruct (setItem _ _ _).
  - intros k Hk. unfold PhotoEditor.handleSaveProject.
    destruct (falsy _); [done |].
    destruct (getSerializableState _ _) as [[r|]|reason]; simpl; try done.
    destruct (setItem _ _ _) as [ls0|] eqn:Hset; [| done].
    simpl. by apply (setItem_frame _ _ _ _ Hset).
  - unfold PhotoEditor.handleSaveProject.
    destruct (falsy _); [by eexists |].
    destruct (getSerializableState _ _) as [[r|]|reason]; simpl;
      try (by eexists).
    destruct (setItem _ _ _); by eexists.
  - unfold PhotoEditor.handleAutoSave.
    destruct (getSerializableState _ _) as [[r|]|reason]; simpl.
    + intros Hset. by apply (setItem_frame _ _ _ _ Hset).
    + by intros [= <-].
    + done.
Qed.

(** *** A manual save that fails *)

Lemma getSerializableState_rejected (h : list PhotoEditorState) (idx : Z) :
  Exists (λ st, ∃ f reason, originalFile st = Some f ∧
                            readAsDataURL f = Rejected reason) h →
  getSerializableState h idx = Resolved None ∨
  ∃ reason, getSerializableState h idx = Rejected reason.
Proof.
  intros Hbad. unfold PhotoEditor.getSerializableState.
  destruct h as [|first rest]; [by left |].
  destruct (falsy (imageSrc first)); [by left |]. right.
  destruct (all_map_rejected serialize_state _ (first :: rest) Hbad)
    as (reason & Hrej).
  { intros st (f & reason & Hf & Hrej).
    unfold PhotoEditor.serialize_state. rewrite Hf, Hrej. by eexists. }
  exists reason. by rewrite Hrej.
Qed.

(** A manual save of a project whose current snapshot holds an image
    fails when the first snapshot of the history holds none, when a file of
    the history cannot be read, or when the store refuses the text.  It
    then leaves the durable store and the history as they were; it logs the
    failure and tells the user. *)
Theorem handleSaveProject_failure (e : Editor) :
  falsy (imageSrc (photoState e)) = false →
  (∃ first rest, UseHistory.history (store e) = first :: rest ∧
                 falsy (imageSrc first) = true) ∨
  Exists (λ st, ∃ f reason, originalFile st = Some f ∧
                            readAsDataURL f = Rejected reason)
         (UseHistory.history (store e)) ∨
  (∀ t, storage_accepts PHOTO_PROJECT_KEY t = false) →
  store (handleSaveProject e) = store e ∧
  localStorage (handleSaveProject e) = localStorage e ∧
  alerts (handleSaveProject e) =
    alerts e ++ ["Could not save the project. The image might be too large."] ∧
  console_errors (handleSaveProject e) =
    console_errors e ++ ["Failed to save project:"].
Proof.
  intros Hcur Hwhy. unfold PhotoEditor.handleSaveProject. rewrite Hcur.
  set (attempt := _ ≫= _).
  assert (Hrej : ∃ reason, attempt = Rejected reason).
  { unfold attempt. destruct Hwhy as [(first & rest & Hh & Hfirst) | [Hbad | Hfull]].
    - assert (Hnone : getSerializableState (UseHistory.history (store e))
                        (UseHistory.currentIndex (store e)) = Resolved None).
      { apply getSerializableState_nothing. right. by exists first, rest. }
      rewrite Hnone. by eexists.
    - destruct (getSerializableState_rejected _
                  (UseHistory.currentIndex (store e)) Hbad)
        as [Hnone | (reason & Hrej)].
      + rewrite Hnone. by eexists.
      + rewrite Hrej. by eexists.
    - destruct (getSerializableState _ _) as [[r|]|reason]; simpl;
        try (by eexists).
      unfold PhotoEditor.setItem. rewrite Hfull. by eexists. }
  destruct Hrej as (reason & ->). done.
Qed.

(** *** A load that installs nothing and reports success *)

Lemma loadHistory_rejects (h' : list PhotoEditorState) (idx : Z)
    (s : UseHistory.Store PhotoEditorState) :
  ¬ (0 ≤ idx < len h') → UseHistory.loadHistory (Some h') idx s = s.
Proof.
  intros Hout. unfold UseHistory.loadHistory.
  destruct (Z.ltb_spec 0 (len h')); simpl; [| done].
  destruct (Z.leb_spec 0 idx); simpl; [| done].
  destruct (Z.ltb_spec idx (len h')); [lia | done].
Qed.

(** When the saved record decodes but its index is outside its history
    (an empty history included), [loadHistory] rejects it without a
    word: the project on screen stays, the record stays in the store, and
    the user is told that the project was loaded. *)
Theorem handleLoadProject_rejected_index (e : Editor) (r : PersistedRecord)
    (h : list PhotoEditorState) :
  localStorage e !! PHOTO_PROJECT_KEY = Some (RecordText r) →
  reconstruct (p_history r) = Resolved h →
  ¬ (0 ≤ p_currentIndex r < len h) →
  store (handleLoadProject e) = store e ∧
  localStorage (handleLoadProject e) = localStorage e ∧
  alerts (handleLoadProject e) = alerts e ++ ["Project loaded successfully!"] ∧
  console_errors (handleLoadProject e) = console_errors e.
Proof.
  intros Hget Hrec Hout. unfold PhotoEditor.handleLoadProject. rewrite Hget.
  cbn -[UseHistory.loadHistory PhotoEditor.reconstruct]. rewrite Hrec.
  cbn -[UseHistory.loadHistory]. by rewrite loadHistory_rejects.
Qed.

(** *** The automatic save and the restore *)

(** What the automatic save writes for a history that the guard lets
    through is what the restore offered on the next mount installs: an
    editor that starts on that durable store and whose user accepts gets a
    history of the same length, with the same cursor and snapshots of the
    same content, and no message. *)
Theorem autosave_restore_round_trip (e : Editor) (first : PhotoEditorState)
    (rest : list PhotoEditorState) :
  UseHistory.history (store e) = first :: rest →
  falsy (imageSrc first) = false →
  UseHistory.valid (store e) →
  Forall codec_round_trips (UseHistory.history (store e)) →
  Forall no_leftover (UseHistory.history (store e)) →
  (∀ r, storage_accepts AUTO_SAVE_KEY (RecordText r) = true) →
  ∃ ls,
    handleAutoSave {| d_history := UseHistory.history (store e);
                      d_currentIndex := UseHistory.currentIndex (store e) |}
                   (localStorage e) = Resolved ls ∧
    ∀ e0, localStorage e0 = ls →
      length (UseHistory.history (store (restoreAutoSave true e0))) =
        length (UseHistory.history (store e)) ∧
      UseHistory.currentIndex (store (restoreAutoSave true e0)) =
        UseHistory.currentIndex (store e) ∧
      Forall2 same_content (UseHistory.history (store e))
              (UseHistory.history (store (restoreAutoSave true e0))) ∧
      alerts (restoreAutoSave true e0) = alerts e0 ∧
      restoreAutoSave false e0 = e0.
Proof.
  intros Hh Hfirst [_ Hidx] Hcodec Hclean Hroom.
  destruct (serialize_then_reconstruct _ _ _ Hcodec Hclean)
    as (saved & h' & Hsaved & Hrec & Hsame).
  pose proof (Forall2_length _ _ _ Hsame) as Hlen.
  eexists. split.
  { rewrite (handleAutoSave_record _ _ _ _
               {| p_history := saved;
                  p_currentIndex := UseHistory.currentIndex (store e) |}).
    - by rewrite Hroom.
    - simpl. by apply (getSerializableState_record _ _ _ first rest). }
  intros e0 He0. unfold PhotoEditor.restoreAutoSave. rewrite He0.
  rewrite lookup_insert_eq.
  cbn -[UseHistory.loadHistory PhotoEditor.reconstruct]. rewrite Hrec.
  rewrite loadHistory_accepts by (unfold len in *; lia). simpl.
  repeat split; try done.
Qed.

(** *** Clearing the project *)


(** *** Applying a filter *)

Lemma applyFilter_commit (filterStyle : string) (c : Component) :
  applyFilter filterStyle c =
    s ← UseHistory.commit JSON_stringify limit
          {| originalFile := originalFile (photoState (editor c));
             imageSrc := imageSrc (photoState (editor c));
             editedImageSrc := None;
             activeFilter := filterStyle;
             originalFileData := originalFileData (photoState (editor c)) |}
          (store (editor c));
    Some (with_editor (with_store s (editor c)) c).
Proof. reflexivity. Qed.

(** Applying a filter returns, and applying the same filter again changes
    nothing: the second call finds the JSON text of the current snapshot
    unchanged and adds no entry to the history. *)
Theorem applyFilter_idempotent (filterStyle : string) (c : Component) :
  UseHistory.valid (store (editor c)) →
  ∃ c', applyFilter filterStyle c = Some c' ∧
        applyFilter filterStyle c' = Some c' ∧
        UseHistory.valid (store (editor c')) ∧
        len (UseHistory.history (store (editor c'))) ≤ 
          Z.max 10 (len (UseHistory.history (store (editor c)))) ∧
        localStorage (editor c') = localStorage (editor c) ∧
        ui c' = ui c.
Proof.
  intros Hv. rewrite applyFilter_commit.
  set (next := {| originalFile := _ |}).
  destruct (UseHistory.same_json JSON_stringify next
              (UseHistory.state (store (editor c)))) eqn:E.
  - rewrite (HistoryFacts.commit_same _ _ _ _ E). simpl. eexists.
    split; [reflexivity |]. rewrite applyFilter_commit. simpl.
    fold next. rewrite (HistoryFacts.commit_same _ _ _ _ E). simpl.
    split; [done |]. split; [done |]. split; [lia | done].
  - destruct (HistoryMore.commit_distinct_state JSON_stringify limit _ next
                limit_ok_limit E) as (s' & Hs' & Hst & Hidx).
    destruct (HistoryFacts.valid_commit JSON_stringify limit _ next
                limit_ok_limit Hv) as (s2 & Hs2 & Hv').
    rewrite Hs' in Hs2. injection Hs2 as <-.
    destruct (HistoryMore.length_bound JSON_stringify limit
                (store (editor c)) next limit_ok_limit E) as (s3 & Hs3 & Hfit).
    rewrite Hs' in Hs3. injection Hs3 as <-.
    rewrite Hs'. simpl. eexists. split; [reflexivity |].
    rewrite applyFilter_commit. simpl. unfold photoState. simpl.
    rewrite Hst. simpl. fold next.
    rewrite (HistoryFacts.commit_same JSON_stringify limit s' next).
    + simpl. split; [done |]. split; [done |]. split; [| done].
      unfold limit in Hfit. simpl in Hfit. lia.
    + rewrite Hst. unfold UseHistory.same_json.
      apply bool_decide_eq_true. reflexivity.
Qed.

(** *** The guard of the serializer on the histories of the editor *)

Lemma index_elem_of {A} (a : list A) (i : Z) (x : A) :
  index a i = Some x → x ∈ a.
Proof.
  unfold index. destruct (i <? 0); [done |]. apply list_elem_of_lookup_2.
Qed.

Lemma uniform_commit (s s' : UseHistory.Store PhotoEditorState)
    (next cur : PhotoEditorState) :
  UseHistory.valid s → UseHistory.state s = Some cur →
  falsy (imageSrc next) = falsy (imageSrc cur) →
  UseHistory.commit JSON_stringify limit next s = Some s' →
  uniform (UseHistory.history s) → uniform (UseHistory.history s').
Proof.
  intros Hv Hcur Hsame Hs' Huni.
  destruct (UseHistory.same_json JSON_stringify next (UseHistory.state s)) eqn:E.
  { rewrite (HistoryFacts.commit_same _ _ _ _ E) in Hs'. by injection Hs' as <-. }
  rewrite (HistoryFacts.commit_distinct JSON_stringify limit s next) in Hs';
    [| unfold limit; simpl; lia | exact E].
  injection Hs' as <-. cbn [UseHistory.history].
  apply index_elem_of in Hcur. destruct Hv as [_ Hidx].
  rewrite slice0_nonneg by lia.
  destruct Huni as [Hall | Hnone]; [left | right].
  - apply Forall_drop, Forall_app. split; [by apply Forall_take |].
    constructor; [| done]. rewrite Hsame.
    by apply (proj1 (Forall_forall _ _) Hall).
  - apply Forall_drop, Forall_app. split; [by apply Forall_take |].
    constructor; [| done]. rewrite Hsame.
    by apply (proj1 (Forall_forall _ _) Hnone).
Qed.

(** The serializer tests the first snapshot of the history where the
    manual save tests the current one.  On the histories that the handlers
    of the editor build the two tests agree: opening a file and clearing
    the project leave one snapshot, a filter keeps the image of the current
    snapshot, and undo and redo keep the history; so the snapshots either
    all hold an image or none does, and then the serializer returns
    [null] exactly when the current snapshot holds no image. *)
Theorem editor_keeps_guard (c : Component) (file : option File)
    (filterStyle : string) (confirmed : bool) :
  uniform (UseHistory.history (store (editor c))) →
  UseHistory.valid (store (editor c)) →
  uniform (UseHistory.history (store (editor (handleFileChange file c)))) ∧
  uniform (UseHistory.history
             (store (editor (handleClearProject confirmed c)))) ∧
  (∃ c', applyFilter filterStyle c = Some c' ∧
         uniform (UseHistory.history (store (editor c')))) ∧
  uniform (UseHistory.history (UseHistory.undo (store (editor c)))) ∧
  uniform (UseHistory.history (UseHistory.redo (store (editor c)))) ∧
  (getSerializableState (UseHistory.history (store (editor c)))
                        (UseHistory.currentIndex (store (editor c)))
     = Resolved None
   ↔ falsy (imageSrc (photoState (editor c))) = true).
Proof.
  intros Huni Hv.
  assert (Hone : ∀ st : PhotoEditorState, uniform [st]).
  { intros st. unfold uniform.
    destruct (falsy (imageSrc st)) eqn:E; [right | left]; by constructor. }
  destruct (HistoryFacts.valid_state _ Hv) as (cur & Hcur).
  split; [| split; [| split; [| split; [| split]]]].
  - unfold PhotoEditorUi.handleFileChange.
    destruct file as [f|]; [| exact Huni].
    destruct (String.prefix _ _); [apply Hone | exact Huni].
  - unfold handleClearProject. destruct confirmed; [apply Hone | exact Huni].
  - rewrite applyFilter_commit.
    set (next := {| originalFile := _ |}).
    destruct (HistoryFacts.valid_commit JSON_stringify limit _ next
                limit_ok_limit Hv) as (s' & Hs' & _).
    rewrite Hs'. simpl. eexists. split; [reflexivity |]. simpl.
    apply (uniform_commit (store (editor c)) s' next cur Hv Hcur); [| done..].
    unfold next, photoState. by rewrite Hcur.
  - by rewrite HistoryFacts.undo_history.
  - by rewrite HistoryFacts.redo_history.
  - rewrite getSerializableState_nothing. unfold photoState. rewrite Hcur. simpl.
    pose proof (index_elem_of _ _ _ Hcur) as Hin.
    destruct (UseHistory.history (store (editor c))) as [|first rest] eqn:Hh.
    { by apply elem_of_nil in Hin. }
    assert (Hfirst : first ∈ first :: rest) by apply list_elem_of_here.
    split.
    + intros [Hnil | (first' & rest' & [= <- <-] & Hfalsy)]; [done |].
      destruct Huni as [Hall | Hnone].
      * rewrite Forall_forall in Hall. rewrite (Hall _ Hfirst) in Hfalsy. done.
      * rewrite Forall_forall in Hnone. by apply Hnone.
    + intros Hfalsy. right. exists first, rest. split; [done |].
      destruct Huni as [Hall | Hnone].
      * rewrite Forall_forall in Hall. rewrite (Hall _ Hin) in Hfalsy. done.
      * rewrite Forall_forall in Hnone. by apply Hnone.
Qed.

End protocol.
End PhotoEditorMore.

(** ** The states that the photo editor goes through *)

Module PhotoEditorSession.
Import JsArray JsArrayFacts PromiseFacts PhotoEditor PhotoEditorFacts.
Import PhotoEditorUi.

Lemma Forall2_transfer {A B} (R : A → B → Prop) (P : A → Prop)
    (Q : B → Prop) (l : list A) (k : list B) :
  Forall2 R l k → (∀ x y, R x y → P x → Q y) → Forall P l → Forall Q k.
Proof.
  intros HR Hstep. induction HR as [|x y l k Hxy _ IH]; intros HP.
  - constructor.
  - inversion HP as [|? ? Hx Hl]; subst. constructor; eauto.
Qed.

(** *** Commits *)

Lemma commit_Forall (P : PhotoEditorState → Prop)
    (s s' : UseHistory.Store PhotoEditorState) (next : PhotoEditorState) :
  UseHistory.valid s → P next → Forall P (UseHistory.history s) →
  UseHistory.commit JSON_stringify limit next s = Some s' →
  Forall P (UseHistory.history s').
Proof.
  intros Hv Hnext Hall Hs'.
  destruct (UseHistory.same_json JSON_stringify next (UseHistory.state s)) eqn:E.
  { rewrite (HistoryFacts.commit_same _ _ _ _ E) in Hs'. by injection Hs' as <-. }
  rewrite (HistoryFacts.commit_distinct JSON_stringify limit s next) in Hs';
    [| unfold limit; simpl; lia | exact E].
  injection Hs' as <-. cbn [UseHistory.history].
  destruct Hv as [_ Hidx]. rewrite slice0_nonneg by lia.
  apply Forall_drop, Forall_app. split; [by apply Forall_take |].
  by constructor.
Qed.

Lemma settled_one (st : PhotoEditorState) :
  originalFile st ≠ None ∨ bare st → settled [st].
Proof. intros [H | H]; [left | right]; by constructor. Qed.

Lemma settled_commit (s s' : UseHistory.Store PhotoEditorState)
    (next cur : PhotoEditorState) :
  UseHistory.valid s → UseHistory.state s = Some cur →
  (originalFile cur ≠ None → originalFile next ≠ None) →
  (bare cur → bare next) →
  UseHistory.commit JSON_stringify limit next s = Some s' →
  settled (UseHistory.history s) → settled (UseHistory.history s').
Proof.
  intros Hv Hcur Hfile Hbare Hs' Hset.
  apply PhotoEditorMore.index_elem_of in Hcur.
  destruct Hset as [Hall | Hnone]; [left | right].
  - apply (commit_Forall _ s s' next Hv); [| done..].
    apply Hfile. by apply (proj1 (Forall_forall _ _) Hall).
  - apply (commit_Forall _ s s' next Hv); [| done..].
    apply Hbare. by apply (proj1 (Forall_forall _ _) Hnone).
Qed.

(** A settled history whose current snapshot has no file is bare
    throughout. *)
Lemma settled_bare (s : UseHistory.Store PhotoEditorState)
    (cur : PhotoEditorState) :
  settled (UseHistory.history s) → UseHistory.state s = Some cur →
  originalFile cur = None → Forall bare (UseHistory.history s).
Proof.
  intros [Hall | Hnone] Hcur Hno; [| done].
  apply PhotoEditorMore.index_elem_of in Hcur.
  by destruct (proj1 (Forall_forall _ _) Hall cur Hcur).
Qed.

Section session.

Variable readAsDataURL : File → promise string.
Variable fetch_blob : string → promise Blob.
Variable storage_accepts : string → text → bool.
Variable createObjectURL : File → string.

Local Abbreviation getSerializableState := (getSerializableState readAsDataURL).
Local Abbreviation handleAutoSave :=
  (handleAutoSave readAsDataURL storage_accepts).
Local Abbreviation handleSaveProject :=
  (handleSaveProject readAsDataURL storage_accepts).
Local Abbreviation serialize_state := (serialize_state readAsDataURL).
Local Abbreviation reconstruct_state := (reconstruct_state fetch_blob).
Local Abbreviation reconstruct := (reconstruct fetch_blob).
Local Abbreviation handleLoadProject := (handleLoadProject fetch_blob).
Local Abbreviation restoreAutoSave := (restoreAutoSave fetch_blob).
Local Abbreviation handleFileChange := (handleFileChange createObjectURL).
Local Abbreviation handleGenerateImage := (handleGenerateImage fetch_blob).
Local Abbreviation handleAiEdit := (handleAiEdit readAsDataURL fetch_blob).
Local Abbreviation handle3DEffect := (handle3DEffect readAsDataURL fetch_blob).
Local Abbreviation handleUpscale := (handleUpscale readAsDataURL fetch_blob).
Local Abbreviation editedImage := (editedImage readAsDataURL fetch_blob).
Local Abbreviation reachable :=
  (reachable readAsDataURL fetch_blob storage_accepts createObjectURL).

(** *** Records written and read *)

Lemma serialize_state_settled (st : PhotoEditorState) (hState : SerializedState) :
  serialize_state st = Resolved hState →
  (originalFile st ≠ None → s_originalFileData hState ≠ None) ∧
  (bare st → s_originalFileData hState = None ∧
             falsy (s_imageSrc hState) = true).
Proof.
  unfold PhotoEditor.serialize_state. destruct (originalFile st) as [f|] eqn:Hf.
  - destruct (readAsDataURL f) as [url|]; simpl; [| discriminate].
    intros [= <-]. split; [done |]. intros (Hno & _). congruence.
  - simpl. intros [= <-]. split; [done |]. simpl. by intros (_ & ? & ?).
Qed.

Lemma getSerializableState_settled (h : list PhotoEditorState) (idx : Z)
    (r : PersistedRecord) :
  settled h → getSerializableState h idx = Resolved (Some r) →
  settled_saved (p_history r).
Proof.
  intros Hset. unfold PhotoEditor.getSerializableState.
  destruct h as [|first rest]; [discriminate |].
  destruct (falsy (imageSrc first)); [discriminate |].
  destruct (Promise.all (map serialize_state (first :: rest)))
    as [saved|] eqn:Hall; [| discriminate].
  simpl. intros [= <-]. simpl. apply all_map_inv in Hall.
  destruct Hset as [Hfile | Hbare]; [left | right].
  - eapply Forall2_transfer; [exact Hall | | exact Hfile].
    intros st hState Hs. by apply serialize_state_settled.
  - eapply Forall2_transfer; [exact Hall | | exact Hbare].
    intros st hState Hs. by apply serialize_state_settled.
Qed.

Lemma reconstruct_state_settled (hState : SerializedState)
    (st : PhotoEditorState) :
  reconstruct_state hState = Resolved st →
  (s_originalFileData hState ≠ None → originalFile st ≠ None) ∧
  (s_originalFileData hState = None ∧ falsy (s_imageSrc hState) = true →
   bare st).
Proof.
  unfold PhotoEditor.reconstruct_state, dataUrlToFile.
  destruct (s_originalFileData hState) as [d|] eqn:Hd.
  - destruct (fetch_blob (dataUrl d)); simpl; [| discriminate].
    intros [= <-]. split; [done |]. by intros (? & _).
  - simpl. intros [= <-]. split; [done |]. intros (_ & Hf).
    by repeat split.
Qed.

Lemma reconstruct_settled (saved : list SerializedState)
    (h : list PhotoEditorState) :
  settled_saved saved → reconstruct saved = Resolved h → settled h.
Proof.
  intros Hset Hall. apply all_map_inv in Hall.
  destruct Hset as [Hfile | Hbare]; [left | right].
  - eapply Forall2_transfer; [exact Hall | | exact Hfile].
    intros hState st Hs. by apply reconstruct_state_settled.
  - eapply Forall2_transfer; [exact Hall | | exact Hbare].
    intros hState st Hs. by apply reconstruct_state_settled.
Qed.

Lemma loadHistory_settled (s : UseHistory.Store PhotoEditorState)
    (h : list PhotoEditorState) (idx : Z) :
  settled (UseHistory.history s) → settled h →
  settled (UseHistory.history (UseHistory.loadHistory (Some h) idx s)).
Proof.
  intros Hs Hh. unfold UseHistory.loadHistory.
  by destruct (_ && _).
Qed.

(** *** The steps of the editor *)

Lemma consistent_editor (c c' : Component) :
  editor c' = editor c → consistent c → consistent c'.
Proof. unfold consistent. by intros ->. Qed.

Lemma consistent_parts (c c' : Component) :
  store (editor c') = store (editor c) →
  localStorage (editor c') = localStorage (editor c) →
  consistent c → consistent c'.
Proof. unfold consistent. by intros -> ->. Qed.

Lemma consistent_notes (c : Component) (e : Editor) :
  store e = store (editor c) → localStorage e = localStorage (editor c) →
  consistent c → consistent (with_editor e c).
Proof. unfold consistent. simpl. by intros -> ->. Qed.

Lemma consistent_resetAll (c : Component) (st : PhotoEditorState) :
  originalFile st ≠ None ∨ bare st → consistent c →
  consistent (resetAll st c).
Proof.
  intros Hst (_ & _ & Hp & Ha). unfold consistent. simpl.
  split; [apply HistoryFacts.valid_reset |].
  split; [by apply settled_one | done].
Qed.

Lemma consistent_setPhotoState (c c' : Component) (next : PhotoEditorState) :
  (originalFile (photoState (editor c)) ≠ None → originalFile next ≠ None) →
  (bare (photoState (editor c)) → bare next) →
  setPhotoState next c = Some c' → consistent c → consistent c'.
Proof.
  intros Hfile Hbare Hset (Hv & Hs & Hp & Ha).
  unfold setPhotoState in Hset.
  change (UseHistory.setState JSON_stringify limit (UseHistory.Value next)
            (store (editor c)))
    with (UseHistory.commit JSON_stringify limit next (store (editor c)))
    in Hset.
  destruct (HistoryFacts.valid_commit JSON_stringify limit _ next
              PhotoEditorMore.limit_ok_limit Hv) as (s' & Hs' & Hv').
  rewrite Hs' in Hset. simpl in Hset. injection Hset as <-.
  destruct (HistoryFacts.valid_state _ Hv) as (cur & Hcur).
  unfold photoState in Hfile, Hbare. rewrite Hcur in Hfile, Hbare.
  unfold consistent. simpl. split; [done |]. split; [| done].
  by apply (settled_commit (store (editor c)) s' next cur).
Qed.

Lemma consistent_loadHistory (c : Component) (e : Editor)
    (h : list PhotoEditorState) (idx : Z) :
  store e = store (editor c) → localStorage e = localStorage (editor c) →
  settled h → consistent c →
  consistent
    (with_editor (with_store (UseHistory.loadHistory (Some h) idx (store e)) e) c).
Proof.
  intros He Hl Hh (Hv & Hs & Hp & Ha). unfold consistent.
  cbn -[UseHistory.loadHistory].
  rewrite He, Hl. split; [by apply HistoryFacts.valid_loadHistory |].
  split; [by apply loadHistory_settled | done].
Qed.

Lemma kept_insert (ls : gmap string text) (key other : string)
    (r : PersistedRecord) :
  settled_saved (p_history r) → kept ls other →
  kept (<[key := RecordText r]> ls) other.
Proof.
  intros Hr Hk. unfold kept. destruct (decide (key = other)) as [-> | Hne].
  - by rewrite lookup_insert_eq.
  - by rewrite lookup_insert_ne.
Qed.

Lemma kept_delete (ls : gmap string text) (key other : string) :
  kept ls other → kept (delete key ls) other.
Proof.
  intros Hk. unfold kept. destruct (decide (key = other)) as [-> | Hne].
  - by rewrite lookup_delete_eq.
  - by rewrite lookup_delete_ne.
Qed.

Lemma consistent_edited (c c' : Component) (file newFile : File)
    (dataUrl : string) :
  originalFile (photoState (editor c)) = Some file →
  setPhotoState (edited (photoState (editor c)) newFile dataUrl) c = Some c' →
  consistent c → consistent c'.
Proof.
  intros Hfile. apply consistent_setPhotoState.
  - done.
  - intros (Hno & _). congruence.
Qed.

(** Every state of the editor is consistent. *)
Lemma reachable_consistent (c : Component) : reachable c → consistent c.
Proof.
  induction 1 as
    [ ls Hp Ha | c _ IH | c u _ IH | c confirmed _ IH | c file _ IH
    | c answer _ IH | c confirmed _ IH | c answer c' _ IH Hstep
    | c answer c' _ IH Hstep | c answer c' _ IH Hstep
    | c filterStyle c' _ IH Hstep | c _ IH | c _ IH | c _ IH | c _ IH
    | c ls _ IH Hstep | c msg _ IH | c msg _ IH
    | c0 c file newFile dataUrl s _ IH0 _ IH Hfile Hnew Hstep
    | c0 c key r _ IH0 _ IH Hkey Hr Hok
    | c0 c key r h _ IH0 _ IH Hkey Hget Hh
    | c key _ IH Hkey ].
  - unfold consistent, kept. simpl. rewrite Hp, Ha.
    split; [unfold UseHistory.valid, len; simpl; lia |].
    split; [| done]. apply settled_one. by right.
  - destruct IH as (_ & _ & Hp & Ha). unfold consistent. simpl.
    split; [unfold UseHistory.valid, len; simpl; lia |].
    split; [| done]. apply settled_one. by right.
  - exact IH.
  - unfold PhotoEditor.restoreAutoSave.
    pose proof IH as (_ & _ & _ & Ha). unfold kept in Ha.
    destruct (localStorage (editor c) !! AUTO_SAVE_KEY) as [[| |r]|] eqn:Hget;
      try done; try (by apply (consistent_editor c)).
    destruct confirmed; [| by apply (consistent_editor c)].
    simpl. destruct (reconstruct (p_history r)) as [h|] eqn:Hh;
      [| by apply (consistent_editor c)].
    apply consistent_loadHistory; try done.
    by apply (reconstruct_settled (p_history r)).
  - unfold PhotoEditorUi.handleFileChange.
    destruct file as [f|]; [| by apply consistent_notes].
    destruct (String.prefix _ _); [| by apply consistent_notes].
    apply consistent_resetAll; [by left | done].
  - unfold PhotoEditorUi.handleGenerateImage.
    destruct (falsy (Some _)); [by apply (consistent_editor c) |].
    destruct answer as [newImageData|]; simpl;
      [| by apply (consistent_editor c)].
    destruct (falsy newImageData); [by apply (consistent_editor c) |].
    destruct (fetch_blob _); simpl; [| by apply (consistent_editor c)].
    apply consistent_resetAll; [by left |]. by apply (consistent_editor c).
  - unfold handleClearProject. destruct confirmed; [| exact IH].
    pose proof (consistent_resetAll c initialState) as Hreset.
    destruct Hreset as (Hv & Hs & Hp & Ha); [by right | done |].
    unfold consistent. simpl. split; [done |]. split; [done |].
    unfold removeItem. split; by do 2 apply kept_delete.
  - unfold PhotoEditorUi.handleAiEdit in Hstep.
    destruct (originalFile (photoState (editor c))) as [file|] eqn:Hfile;
      [| injection Hstep as <-; by apply (consistent_editor c)].
    destruct (falsy (Some _));
      [injection Hstep as <-; by apply (consistent_editor c) |].
    destruct (editedImage _ _ _ _ _ _) as [[newFile dataUrl]|];
      [| injection Hstep as <-; by apply (consistent_editor c)].
    destruct (setPhotoState _ _) as [c2|] eqn:Hset; [| discriminate].
    simpl in Hstep. injection Hstep as <-.
    apply (consistent_editor c2); [done |].
    eapply (consistent_edited (setEditError None c)); [exact Hfile | exact Hset |].
    by apply (consistent_editor c).
  - unfold PhotoEditorUi.handle3DEffect in Hstep.
    destruct (originalFile (photoState (editor c))) as [file|] eqn:Hfile;
      [| injection Hstep as <-; by apply (consistent_editor c)].
    destruct (editedImage _ _ _ _ _ _) as [[newFile dataUrl]|];
      [| injection Hstep as <-; by apply (consistent_editor c)].
    eapply (consistent_edited (setEditError None c)); [exact Hfile | exact Hstep |].
    by apply (consistent_editor c).
  - unfold PhotoEditorUi.handleUpscale in Hstep.
    destruct (originalFile (photoState (editor c))) as [file|] eqn:Hfile;
      [| injection Hstep as <-; by apply (consistent_editor c)].
    destruct (editedImage _ _ _ _ _ _) as [[newFile dataUrl]|];
      [| injection Hstep as <-; by apply (consistent_editor c)].
    eapply (consistent_edited (setEditError None c)); [exact Hfile | exact Hstep |].
    by apply (consistent_editor c).
  - revert Hstep IH. apply consistent_setPhotoState.
    + done.
    + by intros (? & ? & ?).
  - destruct IH as (Hv & Hs & Hp & Ha). unfold consistent. simpl.
    rewrite HistoryFacts.undo_history.
    split; [by apply HistoryFacts.valid_undo | done].
  - destruct IH as (Hv & Hs & Hp & Ha). unfold consistent. simpl.
    rewrite HistoryFacts.redo_history.
    split; [by apply HistoryFacts.valid_redo | done].
  - unfold PhotoEditor.handleSaveProject.
    destruct (falsy _); [by apply consistent_notes |].
    destruct (getSerializableState _ _) as [[r|]|] eqn:Hr; simpl;
      try (by apply consistent_notes).
    unfold setItem. destruct (storage_accepts _ _);
      [| by apply consistent_notes].
    pose proof IH as (Hv & Hs & Hp & Ha).
    apply (getSerializableState_settled _ _ _ Hs) in Hr.
    unfold consistent. simpl. split; [done |]. split; [done |].
    split; by apply kept_insert.
  - unfold PhotoEditor.handleLoadProject.
    pose proof IH as (Hv & Hs & Hp & Ha).
    pose proof Hp as Hr. unfold kept in Hr.
    destruct (localStorage (editor c) !! PHOTO_PROJECT_KEY) as [[| |r]|]
      eqn:Hget; try done; try (by apply consistent_notes).
    simpl. destruct (reconstruct (p_history r)) as [h|] eqn:Hh; simpl.
    + apply (consistent_parts
               (with_editor
                  (with_store
                     (UseHistory.loadHistory (Some h) (p_currentIndex r)
                        (store (editor c))) (editor c)) c)); [done | done |].
      apply consistent_loadHistory; try done.
      by apply (reconstruct_settled (p_history r)).
    + unfold consistent. simpl. split; [done |]. split; [done |].
      unfold removeItem. split; by apply kept_delete.
  - unfold PhotoEditor.handleAutoSave in Hstep.
    pose proof IH as (Hv & Hs & Hp & Ha).
    destruct (PhotoEditor.getSerializableState _ _ _) as [[r|]|] eqn:Hr;
      simpl in Hstep; [| | discriminate].
    + unfold setItem in Hstep. destruct (storage_accepts _ _); [| discriminate].
      injection Hstep as <-.
      apply (getSerializableState_settled _ _ _ Hs) in Hr.
      unfold consistent. simpl. split; [done |]. split; [done |].
      split; by apply kept_insert.
    + injection Hstep as <-. by apply consistent_notes.
  - by apply consistent_notes.
  - by apply consistent_notes.
  - destruct IH0 as (Hv0 & Hs0 & _). destruct IH as (_ & _ & Hp & Ha).
    change (UseHistory.setState JSON_stringify limit
              (UseHistory.Value (edited (photoState (editor c0)) newFile dataUrl))
              (store (editor c0)))
      with (UseHistory.commit JSON_stringify limit
              (edited (photoState (editor c0)) newFile dataUrl)
              (store (editor c0))) in Hstep.
    destruct (HistoryFacts.valid_commit JSON_stringify limit _
                (edited (photoState (editor c0)) newFile dataUrl)
                PhotoEditorMore.limit_ok_limit Hv0) as (s' & Hs' & Hv').
    rewrite Hs' in Hstep. injection Hstep as <-.
    destruct (HistoryFacts.valid_state _ Hv0) as (cur & Hcur).
    unfold consistent. simpl. split; [done |]. split; [| done].
    apply (settled_commit (store (editor c0)) s'
             (edited (photoState (editor c0)) newFile dataUrl) cur);
      try done.
    unfold photoState in Hfile. rewrite Hcur in Hfile. simpl in Hfile.
    intros (Hno & _). congruence.
  - destruct IH0 as (_ & Hs0 & _). destruct IH as (Hv & Hs & Hp & Ha).
    apply (getSerializableState_settled _ _ _ Hs0) in Hr.
    unfold consistent. simpl. split; [done |]. split; [done |].
    split; by apply kept_insert.
  - destruct IH0 as (_ & _ & Hp0 & Ha0).
    apply consistent_loadHistory; try done.
    apply (reconstruct_settled (p_history r)); [| done].
    unfold kept in Hp0, Ha0. destruct Hkey as [-> | ->].
    + by rewrite Hget in Hp0.
    + by rewrite Hget in Ha0.
  - destruct IH as (Hv & Hs & Hp & Ha).
    unfold consistent. simpl. split; [done |]. split; [done |].
    unfold removeItem. split; by apply kept_delete.
Qed.

(** C5.  In every state that the editor goes through, a current snapshot
    that carries no file is the snapshot of an empty project, without an
    image; the serialize path then returns "nothing to persist" for the
    history of the editor, and the automatic save succeeds without writing:
    it leaves the durable store, and so any record saved earlier, as it
    is. *)
Theorem empty_project_not_persisted (c : Component) :
  reachable c →
  originalFile (photoState (editor c)) = None →
  falsy (imageSrc (photoState (editor c))) = true ∧
  getSerializableState (UseHistory.history (store (editor c)))
                       (UseHistory.currentIndex (store (editor c)))
    = Resolved None ∧
  ∀ ls : gmap string text, handleAutoSave (saveData c) ls = Resolved ls.
Proof.
  intros Hreach Hno.
  destruct (reachable_consistent c Hreach) as (Hv & Hs & _).
  destruct (HistoryFacts.valid_state _ Hv) as (cur & Hcur).
  unfold photoState in *. rewrite Hcur in *. simpl in Hno. simpl.
  pose proof (settled_bare _ cur Hs Hcur Hno) as Hbare.
  pose proof (PhotoEditorMore.index_elem_of _ _ _ Hcur) as Hin.
  assert (Hnothing :
    getSerializableState (UseHistory.history (store (editor c)))
      (UseHistory.currentIndex (store (editor c))) = Resolved None).
  { apply getSerializableState_nothing.
    destruct (UseHistory.history (store (editor c))) as [|first rest];
      [by left | right].
    exists first, rest. split; [done |].
    by inversion Hbare as [|? ? (_ & ? & _) _]. }
  split; [| split; [exact Hnothing |]].
  - by destruct (proj1 (Forall_forall _ _) Hbare cur Hin) as (_ & ? & _).
  - intros ls. by apply handleAutoSave_nothing.
Qed.

End session.
End PhotoEditorSession.

(** ** The video editor *)

(** The project of the video editor: what a save keeps, what a load
    installs, how the video is attached again, and the presets. *)
Module VideoEditorFacts.
Import JsArray JsArrayFacts VideoEditor.

Lemma limit_ok_video : UseHistory.limit_ok limit.
Proof. unfold limit. simpl. lia. Qed.

(** The JSON text of a snapshot tells whether it has a video source. *)
Lemma JSON_stringify_videoSrc (a b : VideoEditorState) :
  JSON_stringify a = JSON_stringify b →
  (videoSrc a = None ↔ videoSrc b = None).
Proof.
  destruct a as [[u|] fa], b as [[v|] fb]; unfold JSON_stringify; simpl;
    intros H; split; try done; intros _; exfalso;
    cbv in H; discriminate H.
Qed.

Section browser.

Variable storage_accepts : string → text → bool.
Variable createObjectURL : File → string.
Variable toLowerCase : string → string.
Variable trim : string → string.

Local Abbreviation setItem := (setItem storage_accepts).
Local Abbreviation handleAutoSave := (handleAutoSave storage_accepts).
Local Abbreviation handleSaveProject := (handleSaveProject storage_accepts).
Local Abbreviation handleFileChange := (handleFileChange createObjectURL).
Local Abbreviation handleSavePreset := (handleSavePreset toLowerCase trim).
Local Abbreviation put_preset := (put_preset toLowerCase).
Local Abbreviation same_name := (same_name toLowerCase).
Local Abbreviation distinct_names := (distinct_names toLowerCase).
Local Abbreviation storePresets := (storePresets storage_accepts).

(** *** What a save keeps *)

Lemma index_Some_inside {A} (a : list A) (i : Z) (x : A) :
  index a i = Some x → 0 ≤ i < len a.
Proof.
  unfold index, len. destruct (Z.ltb_spec i 0); [done |].
  intros Hx. apply lookup_lt_Some in Hx. lia.
Qed.

Lemma index_fmap {A B} (f : A → B) (a : list A) (i : Z) :
  index (f <$> a) i = f <$> index a i.
Proof. unfold index. destruct (i <? 0); [done |]. apply list_lookup_fmap. Qed.

Lemma strip_history (h : list VideoEditorState) :
  length (strip <$> h) = length h ∧
  Forall (λ st, videoSrc st = None) (strip <$> h) ∧
  activeFilter <$> (strip <$> h) = activeFilter <$> h.
Proof.
  split; [apply length_fmap |]. split.
  - apply Forall_fmap, Forall_true. done.
  - by rewrite <- list_fmap_compose.
Qed.

(** When the automatic save resolves it has either written nothing or
    stored, under its own key, the history without any video source: as
    many snapshots, with the same filters, and the cursor, which is then a
    position of the history. *)
Theorem video_handleAutoSave_spec (loaded : bool) (d : SaveData)
    (ls ls' : gmap string text) :
  handleAutoSave loaded d ls = Resolved ls' →
  ls' = ls ∨
  0 ≤ d_currentIndex d < len (d_history d) ∧
  ∃ h,
    ls' = <[AUTO_SAVE_KEY :=
              ProjectText {| sd_history := Some h;
                             sd_currentIndex := Some (d_currentIndex d) |}]> ls ∧
    length h = length (d_history d) ∧
    Forall (λ st, videoSrc st = None) h ∧
    activeFilter <$> h = activeFilter <$> d_history d.
Proof.
  unfold VideoEditor.handleAutoSave.
  destruct (d_history d) as [|x l] eqn:Hh; [intros [= <-]; by left |].
  destruct (index (x :: l) (d_currentIndex d)) as [cur|] eqn:Hcur; [| done].
  destruct (falsy (videoSrc cur) && negb loaded); [intros [= <-]; by left |].
  unfold VideoEditor.setItem. destruct (storage_accepts _ _); [| done].
  intros [= <-]. right. split; [by apply (index_Some_inside _ _ cur) |].
  exists (strip <$> (x :: l)). split; [done |]. apply strip_history.
Qed.

(** *** Save, load, and the video attached again *)

Lemma loadHistory_inside {T} (h : list T) (i : Z) (s : UseHistory.Store T) :
  0 ≤ i < len h →
  UseHistory.loadHistory (Some h) i s =
    {| UseHistory.history := h; UseHistory.currentIndex := i |}.
Proof.
  intros [H0 H1]. unfold UseHistory.loadHistory.
  destruct (Z.ltb_spec 0 (len h)); [| lia].
  destruct (Z.leb_spec 0 i); [| lia].
  destruct (Z.ltb_spec i (len h)); [done | lia].
Qed.

Lemma loadHistory_outside {T} (h : list T) (i : Z) (s : UseHistory.Store T) :
  ¬ (0 ≤ i < len h) → UseHistory.loadHistory (Some h) i s = s.
Proof.
  intros Hout. unfold UseHistory.loadHistory.
  destruct (Z.ltb_spec 0 (len h)); simpl; [| done].
  destruct (Z.leb_spec 0 i); simpl; [| done].
  destruct (Z.ltb_spec i (len h)); [lia | done].
Qed.

(** A project saved by hand and loaded again has the same cursor and the
    same filters, and no video: every snapshot of the loaded history has
    lost its source, the current one included, and the editor asks for
    the file. *)
Theorem video_save_load (e : Editor) :
  UseHistory.valid (store e) →
  falsy (videoSrc (videoState e)) = false →
  (∀ t, storage_accepts VIDEO_PROJECT_KEY t = true) →
  ∃ e1, handleSaveProject e = Some e1 ∧
    UseHistory.history (store (handleLoadProject e1)) =
      strip <$> UseHistory.history (store e) ∧
    UseHistory.currentIndex (store (handleLoadProject e1)) =
      UseHistory.currentIndex (store e) ∧
    videoState (handleLoadProject e1) = strip (videoState e) ∧
    isProjectLoaded (handleLoadProject e1) = true ∧
    promptUserForFile (generationState (handleLoadProject e1)) = true ∧
    length (alerts (handleLoadProject e1)) = S (length (alerts e)).
Proof.
  intros Hv Hcur Hroom. unfold VideoEditor.handleSaveProject.
  rewrite Hcur. unfold VideoEditor.setItem. rewrite Hroom.
  eexists. split; [reflexivity |].
  set (e1 := alert _ _). destruct Hv as [Hlen Hidx].
  assert (Hload : handleLoadProject e1 =
    with_loaded true
      {| active := true;
         message := "Project loaded. Please select your original video file to apply edits.";
         promptUserForFile := true |}
      (with_store
         {| UseHistory.history := strip <$> UseHistory.history (store e);
            UseHistory.currentIndex := UseHistory.currentIndex (store e) |}
         e1)).
  { unfold handleLoadProject, absent, e1, JSON_stringify_project.
    cbn -[UseHistory.loadHistory]. rewrite lookup_insert_eq.
    cbn -[UseHistory.loadHistory]. unfold VideoEditor.loaded.
    by rewrite loadHistory_inside
      by (unfold len in *; rewrite length_fmap; lia). }
  rewrite Hload. simpl.
  split; [done |]. split; [done |]. split; [| split; [done |]].
  - unfold videoState, UseHistory.state. simpl. rewrite index_fmap.
    destruct (index_inside (UseHistory.history (store e))
                (UseHistory.currentIndex (store e)) Hidx) as (cur & ->).
    done.
  - split; [done |]. rewrite length_app. simpl. lia.
Qed.

(** In a loaded project, whose current snapshot has no video, selecting
    the video file adds a snapshot with the object URL of the file and the
    filter of the loaded snapshot, and ends the prompt.  The snapshot
    before it is still the loaded one: one undo shows the project without
    its video again. *)
Theorem video_attach_after_load (e : Editor) (f : File) (cur : VideoEditorState) :
  UseHistory.valid (store e) →
  isProjectLoaded e = true →
  String.prefix "video/" (file_type f) = true →
  UseHistory.state (store e) = Some cur →
  videoSrc cur = None →
  ∃ e', handleFileChange (Some f) e = Some e' ∧
    UseHistory.state (store e') =
      Some {| videoSrc := Some (createObjectURL f);
              activeFilter := activeFilter cur |} ∧
    isProjectLoaded e' = false ∧
    generationState e' = no_generation ∧
    UseHistory.canUndo (store e') = true ∧
    UseHistory.state (UseHistory.undo (store e')) = Some cur ∧
    localStorage e' = localStorage e.
Proof.
  intros Hv Hloaded Htype Hcur Hnone.
  unfold VideoEditor.handleFileChange. rewrite Htype, Hloaded.
  unfold setVideoState, videoState. rewrite Hcur. simpl.
  set (next := {| videoSrc := Some (createObjectURL f);
                  activeFilter := activeFilter cur |}).
  assert (Hne : JSON_stringify next ≠ JSON_stringify cur).
  { intros Heq. apply JSON_stringify_videoSrc in Heq.
    by apply Heq in Hnone. }
  assert (HL : match limit with UseHistory.Fin l => 2 ≤ l
                              | UseHistory.Infinity => True end)
    by (unfold limit; simpl; lia).
  destruct (HistoryMore.undo_commit JSON_stringify limit (store e) next cur
              HL Hv Hcur Hne) as (s' & Hs' & Hundo & Hidx).
  destruct (HistoryMore.commit_distinct_state JSON_stringify limit (store e) next
              limit_ok_video) as (s2 & Hs2 & Hst & _).
  { by apply (HistoryFacts.same_json_false JSON_stringify next _ cur Hcur). }
  rewrite Hs' in Hs2. injection Hs2 as <-.
  change (UseHistory.setState JSON_stringify limit (UseHistory.Value next) (store e))
    with (UseHistory.commit JSON_stringify limit next (store e)).
  rewrite Hs'. simpl. eexists. split; [reflexivity |]. simpl.
  split; [exact Hst |]. split; [done |]. split; [done |].
  split; [| split; [exact Hundo | done]].
  unfold UseHistory.canUndo. unfold UseHistory.undo in Hidx.
  destruct (0 <? UseHistory.currentIndex s'); [done |]. simpl in Hidx. lia.
Qed.

(** *** A load that installs nothing *)

(** A stored text that does not parse, or that has no history or no
    numeric cursor, is logged, reported and removed; the editor stays as
    it was.  A record whose cursor is outside its history is not
    installed either, but there the editor says that the project was
    loaded and asks for the video file. *)
Theorem video_handleLoadProject_nothing (e : Editor) (t : text) :
  localStorage e !! VIDEO_PROJECT_KEY = Some t →
  (t = Malformed ∨ (∃ l, t = PresetsText l) ∨
   (∃ d, t = ProjectText d ∧ (sd_history d = None ∨ sd_currentIndex d = None)) →
   store (handleLoadProject e) = store e ∧
   isProjectLoaded (handleLoadProject e) = isProjectLoaded e ∧
   generationState (handleLoadProject e) = generationState e ∧
   localStorage (handleLoadProject e) = delete VIDEO_PROJECT_KEY (localStorage e) ∧
   alerts (handleLoadProject e) =
     alerts e ++ ["Could not load the saved project. The data may be corrupted."] ∧
   console_errors (handleLoadProject e) =
     console_errors e ++ ["Failed to load project:"]) ∧
  (∀ h i, t = ProjectText {| sd_history := Some h; sd_currentIndex := Some i |} →
     ¬ (0 ≤ i < len h) →
     store (handleLoadProject e) = store e ∧
     isProjectLoaded (handleLoadProject e) = true ∧
     promptUserForFile (generationState (handleLoadProject e)) = true ∧
     localStorage (handleLoadProject e) = localStorage e ∧
     alerts (handleLoadProject e) = alerts e).
Proof.
  intros Hget. split.
  - intros Hbad. unfold handleLoadProject, absent. rewrite Hget.
    destruct Hbad as [-> | [(l & ->) | (d & -> & Hd)]]; simpl; try done.
    destruct d as [[h|] [i|]]; simpl in *; destruct Hd; done.
  - intros h i -> Hout. unfold handleLoadProject, absent. rewrite Hget.
    cbn -[UseHistory.loadHistory]. unfold VideoEditor.loaded.
    by rewrite loadHistory_outside by done.
Qed.

(** *** The presets *)

Lemma findIndex_spec {A} (p : A → bool) (l : list A) :
  findIndex p l = -1 ∧ Forall (λ x, p x = false) l ∨
  ∃ x, 0 ≤ findIndex p l ∧ l !! Z.to_nat (findIndex p l) = Some x ∧ p x = true.
Proof.
  induction l as [|y l IH]; [left; by split |].
  cbn [findIndex]. destruct (p y) eqn:Hy; [right; by exists y |].
  destruct IH as [[Hnone Hall] | (x & Hi & Hx & Hpx)].
  - left. rewrite Hnone. simpl. split; [done |]. by constructor.
  - right. exists x. destruct (Z.ltb_spec (findIndex p l) 0); [lia |].
    split; [lia |]. split; [| done].
    replace (Z.to_nat (findIndex p l + 1)) with (S (Z.to_nat (findIndex p l)))
      by lia.
    done.
Qed.

Lemma put_preset_spec (newPreset : Preset) (prev : list Preset) :
  distinct_names prev →
  distinct_names (put_preset newPreset prev) ∧
  newPreset ∈ put_preset newPreset prev ∧
  (length prev ≤ length (put_preset newPreset prev) ≤ S (length prev))%nat.
Proof.
  intros Hd. unfold VideoEditor.put_preset, VideoEditor.distinct_names in *.
  destruct (findIndex_spec (same_name (name newPreset)) prev)
    as [[Hnone Hall] | (x & Hi & Hx & Hpx)].
  - rewrite Hnone. simpl. rewrite fmap_app, length_app. simpl.
    split; [| split; [| lia]].
    + apply NoDup_app. split; [done |]. split; [| apply NoDup_singleton].
      intros key Hkey Hnew. apply list_elem_of_singleton in Hnew. subst key.
      apply list_elem_of_fmap in Hkey as (p & Hp & Hin).
      rewrite Forall_forall in Hall. specialize (Hall p Hin).
      unfold VideoEditor.same_name in Hall. rewrite <- Hp in Hall.
      by rewrite String.eqb_refl in Hall.
    + apply elem_of_app. right. by apply list_elem_of_singleton.
  - destruct (Z.ltb_spec (-1) (findIndex (same_name (name newPreset)) prev));
      [| lia].
    rewrite length_insert. split; [| split; [| lia]].
    + rewrite list_fmap_insert, list_insert_id; [done |].
      rewrite list_lookup_fmap, Hx. simpl. f_equal.
      unfold VideoEditor.same_name in Hpx. by apply String.eqb_eq in Hpx.
    + apply (list_elem_of_lookup_2 _ (Z.to_nat (findIndex (same_name (name newPreset)) prev))).
      apply list_lookup_insert_eq. by apply lookup_lt_Some in Hx.
Qed.

(** Saving and deleting presets keeps their names distinct up to the case
    of the letters.  A save adds at most one preset; when it goes through,
    the preset with the trimmed name and the current filter is in the list
    and the name field is emptied.  A delete removes the presets of exactly
    that name and no other. *)
Theorem video_presets_distinct (e : Editor) (confirmed : bool)
    (presetNameToDelete : string) :
  distinct_names (presets e) →
  distinct_names (presets (handleSavePreset confirmed e)) ∧
  (length (presets e) ≤ length (presets (handleSavePreset confirmed e))
     ≤ S (length (presets e)))%nat ∧
  (handleSavePreset confirmed e = e ∨
   (∃ msg, handleSavePreset confirmed e = alert msg e) ∨
   {| name := trim (newPresetName e);
      filter := activeFilter (videoState e) |}
     ∈ presets (handleSavePreset confirmed e) ∧
   newPresetName (handleSavePreset confirmed e) = EmptyString) ∧
  distinct_names (presets (handleDeletePreset confirmed presetNameToDelete e)) ∧
  (∀ p, p ∈ presets (handleDeletePreset true presetNameToDelete e) ↔
        p ∈ presets e ∧ name p ≠ presetNameToDelete).
Proof.
  clear storage_accepts createObjectURL.
  intros Hd. split; [| split; [| split; [| split]]].
  - unfold VideoEditor.handleSavePreset.
    destruct (String.eqb _ _); [done |]. destruct (String.eqb _ _); [done |].
    destruct (_ && _); [done |]. simpl. by apply put_preset_spec.
  - unfold VideoEditor.handleSavePreset.
    destruct (String.eqb _ _); [simpl; lia |].
    destruct (String.eqb _ _); [simpl; lia |].
    destruct (_ && _); [lia |]. simpl. by apply put_preset_spec.
  - unfold VideoEditor.handleSavePreset.
    destruct (String.eqb _ _); [right; left; by eexists |].
    destruct (String.eqb _ _); [right; left; by eexists |].
    destruct (_ && _); [by left |]. right. right. simpl.
    split; [by apply put_preset_spec | done].
  - unfold handleDeletePreset, VideoEditor.distinct_names in *.
    destruct confirmed; [| done]. simpl.
    eapply sublist_NoDup; [exact Hd |]. apply fmap_sublist, sublist_filter.
  - intros p. unfold handleDeletePreset. simpl.
    rewrite list_elem_of_filter. tauto.
Qed.

(** What the effect stores when the presets changed is what the effect
    of the next mount loads.  The effect writes when there is a preset or
    when the key is already there: after the last preset is deleted the
    store holds the empty list, not nothing. *)
Theorem video_presets_round_trip (e : Editor) :
  (∀ t, storage_accepts PRESETS_STORAGE_KEY t = true) →
  presets e ≠ [] ∨ absent PRESETS_STORAGE_KEY (localStorage e) = false →
  ∃ e1, storePresets e = Resolved e1 ∧
    localStorage e1 !! PRESETS_STORAGE_KEY = Some (PresetsText (presets e)) ∧
    ∀ e0, localStorage e0 = localStorage e1 →
      ∃ e2, loadPresets e0 = Some e2 ∧ presets e2 = presets e.
Proof.
  intros Hroom Hwhy. unfold VideoEditor.storePresets.
  assert (Hcond : (0 <? len (presets e))
                  || negb (absent PRESETS_STORAGE_KEY (localStorage e)) = true).
  { destruct Hwhy as [Hne | ->]; [| by rewrite orb_true_r].
    destruct (presets e); [done |]. done. }
  rewrite Hcond. unfold VideoEditor.setItem. rewrite Hroom. simpl.
  eexists. split; [reflexivity |]. simpl. rewrite lookup_insert_eq.
  split; [done |]. intros e0 He0. unfold loadPresets. rewrite He0.
  rewrite lookup_insert_eq. by eexists.
Qed.

End browser.
End VideoEditorFacts.

(** ** [fileToBase64] *)

Module FileUtilsFacts.
Import JsArray FileUtils.

Lemma split_comma_free (s : string) :
  DataUrl.comma_free s = true → split ","%char s = [s].
Proof.
  induction s as [|c s IH]; [done |]. cbn [DataUrl.comma_free split].
  intros [Hc Hs]%andb_true_iff. apply negb_true_iff in Hc.
  rewrite Hc, (IH Hs). done.
Qed.

Lemma split_first_comma (header rest : string) :
  DataUrl.comma_free header = true →
  split ","%char (header +:+ "," +:+ rest) = header :: split ","%char rest.
Proof.
  induction header as [|c header IH].
  - intros _. reflexivity.
  - cbn [DataUrl.comma_free]. intros [Hc Hs]%andb_true_iff.
    apply negb_true_iff in Hc.
    change (String c header +:+ "," +:+ rest)
      with (String c (header +:+ "," +:+ rest)).
    cbn [split]. rewrite Hc, (IH Hs). done.
Qed.

(** [fileToBase64] rejects when the reader fails.  When the reader gives a
    data URL, a header without a comma followed by a comma and a payload
    without one, it resolves with the payload; when the reader gives a text
    without any comma it resolves with [undefined]. *)
Theorem fileToBase64_spec (readAsDataURL : File → promise string)
    (file : File) :
  (∀ reason, readAsDataURL file = Rejected reason →
     fileToBase64 readAsDataURL file = Rejected reason) ∧
  (∀ header payload,
     readAsDataURL file = Resolved (header +:+ "," +:+ payload) →
     DataUrl.comma_free header = true → DataUrl.comma_free payload = true →
     fileToBase64 readAsDataURL file = Resolved (Some payload)) ∧
  (∀ result,
     readAsDataURL file = Resolved result →
     DataUrl.comma_free result = true →
     fileToBase64 readAsDataURL file = Resolved None).
Proof.
  unfold fileToBase64. split; [| split].
  - by intros reason ->.
  - intros header payload -> Hheader Hpayload. cbn [mbind promise_bind].
    by rewrite split_first_comma, split_comma_free.
  - intros result -> Hfree. cbn [mbind promise_bind].
    by rewrite split_comma_free.
Qed.

End FileUtilsFacts.

(** ** WAV files *)

(** The writer never leaves its buffer, and what it returns is the
    canonical header followed by the samples in frames. *)
Module WavFacts.
Import JsArray JsArrayFacts Wav.

(** *** Bytes *)

Lemma to_N_byte_of_Z (z : Z) : Z.of_N (Byte.to_N (byte_of_Z z)) = z mod 256.
Proof.
  unfold byte_of_Z.
  pose proof (Z.mod_pos_bound z 256 ltac:(lia)) as Hb.
  destruct (Byte.of_N (Z.to_N (z mod 256))) as [b|] eqn:Hof.
  - apply Byte.to_of_N in Hof. simpl. rewrite Hof. lia.
  - apply Byte.of_N_None_iff in Hof. lia.
Qed.

Lemma le_value_le16 (v : Z) : le_value (le16 v) = v mod 65536.
Proof.
  unfold le16, le_value. rewrite !to_N_byte_of_Z.
  zify. Z.to_euclidean_division_equations. lia.
Qed.

Lemma le_value_le32 (v : Z) : le_value (le32 v) = v mod 4294967296.
Proof.
  unfold le32, le_value. rewrite !to_N_byte_of_Z.
  zify. Z.to_euclidean_division_equations. lia.
Qed.

(** *** Writes inside a prefix of the view *)

Lemma inside_app (pre post : list byte) (offset count : Z) :
  0 ≤ offset → offset + count ≤ len pre →
  inside (pre ++ post) offset count = true.
Proof.
  intros H0 H1. unfold inside. rewrite len_app.
  pose proof (len_nonneg post).
  destruct (Z.leb_spec 0 offset); [| lia].
  destruct (Z.leb_spec (offset + count) (len pre + len post)); [done | lia].
Qed.

Lemma setUint8_pre (pre post : list byte) (offset value : Z) :
  0 ≤ offset → offset + 1 ≤ len pre →
  setUint8 (pre ++ post) offset value =
    Some (<[Z.to_nat offset := byte_of_Z value]> pre ++ post).
Proof.
  intros H0 H1. unfold setUint8. rewrite inside_app by done.
  unfold len in H1. by rewrite insert_app_l by lia.
Qed.

Lemma setUint16_pre (pre post : list byte) (offset value : Z) :
  0 ≤ offset → offset + 2 ≤ len pre →
  setUint16 (pre ++ post) offset value =
    Some (<[Z.to_nat offset + 1 := byte_of_Z (value / 256)]>
            (<[Z.to_nat offset := byte_of_Z value]> pre) ++ post)%nat.
Proof.
  intros H0 H1. unfold setUint16. rewrite inside_app by done.
  unfold len in H1.
  rewrite (insert_app_l pre) by lia.
  by rewrite insert_app_l by (rewrite length_insert; lia).
Qed.

Lemma setUint32_pre (pre post : list byte) (offset value : Z) :
  0 ≤ offset → offset + 4 ≤ len pre →
  setUint32 (pre ++ post) offset value =
    Some (<[Z.to_nat offset + 3 := byte_of_Z (value / 16777216)]>
            (<[Z.to_nat offset + 2 := byte_of_Z (value / 65536)]>
               (<[Z.to_nat offset + 1 := byte_of_Z (value / 256)]>
                  (<[Z.to_nat offset := byte_of_Z value]> pre))) ++ post)%nat.
Proof.
  intros H0 H1. unfold setUint32. rewrite inside_app by done.
  unfold len in H1.
  rewrite (insert_app_l pre) by lia.
  rewrite insert_app_l by (rewrite length_insert; lia).
  rewrite insert_app_l by (rewrite !length_insert; lia).
  by rewrite insert_app_l by (rewrite !length_insert; lia).
Qed.

Lemma writeString_pre (s : string) (pre post : list byte) (offset : Z) :
  0 ≤ offset → offset + Z.of_nat (String.length s) ≤ len pre →
  ∃ pre', writeString (pre ++ post) offset s = Some (pre' ++ post) ∧
          Datatypes.length pre' = Datatypes.length pre ∧
          ∀ k, (k < Z.to_nat offset)%nat ∨
               (Z.to_nat offset + String.length s ≤ k)%nat →
               pre' !! k = pre !! k.
Proof.
  revert pre offset. induction s as [|c s IH]; intros pre offset H0 H1.
  - exists pre. by split.
  - cbn [writeString]. simpl String.length in H1.
    rewrite setUint8_pre by lia. cbn [mbind option_bind].
    destruct (IH (<[Z.to_nat offset := byte_of_Z (Z.of_nat (nat_of_ascii c))]> pre)
                 (offset + 1))
      as (pre' & Hw & Hlen & Hsame);
      [lia | unfold len in *; rewrite length_insert; lia |].
    exists pre'. split; [exact Hw |]. rewrite Hlen, length_insert.
    split; [done |]. intros k Hk. rewrite Hsame by (simpl in Hk; lia).
    apply list_lookup_insert_ne. simpl in Hk. lia.
Qed.

Lemma ArrayBuffer_44 (d : Z) :
  0 ≤ d →
  ArrayBuffer (44 + d) =
    Some (replicate 44 x00%byte ++ replicate (Z.to_nat d) x00%byte).
Proof.
  intros Hd. unfold ArrayBuffer. destruct (Z.ltb_spec (44 + d) 0); [lia |].
  replace (Z.to_nat (44 + d)) with (44 + Z.to_nat d)%nat by lia.
  by rewrite replicate_add.
Qed.

(** *** One sample, one frame, all frames *)

Lemma setInt16_at (a rest : list byte) (x : float) :
  (2 ≤ Datatypes.length rest)%nat →
  setInt16 (a ++ rest) (len a) x =
    Some (a ++ le16 (ToInt16 x) ++ drop 2 rest).
Proof.
  intros Hrest. destruct rest as [|b1 [|b2 rest]]; simpl in Hrest; try lia.
  unfold setInt16, setUint16, inside. rewrite len_app.
  pose proof (len_nonneg a).
  destruct (Z.leb_spec 0 (len a)); [| lia].
  destruct (Z.leb_spec (len a + 2) (len a + len (b1 :: b2 :: rest)));
    [| unfold len in *; simpl in *; lia].
  simpl. f_equal. unfold len. rewrite Nat2Z.id.
  rewrite (insert_app_r_alt a) by lia. rewrite Nat.sub_diag. simpl.
  rewrite insert_app_r_alt by lia.
  replace (Datatypes.length a + 1 - Datatypes.length a)%nat with 1%nat by lia.
  done.
Qed.

Lemma index_of_nat {A} (l : list A) (i : nat) : index l (Z.of_nat i) = l !! i.
Proof.
  unfold index. destruct (Z.ltb_spec (Z.of_nat i) 0); [lia |].
  by rewrite Nat2Z.id.
Qed.

Lemma mapM_index {A} (l : list A) (k n : nat) :
  (k + n ≤ Datatypes.length l)%nat →
  mapM (index l) (Z.of_nat <$> seq k n) = Some (take n (drop k l)).
Proof.
  revert k. induction n as [|n IH]; intros k Hk; [done |].
  cbn [seq fmap list_fmap mapM]. rewrite index_of_nat.
  destruct (lookup_lt_is_Some_2 l k) as [x Hx]; [lia |].
  rewrite Hx. cbn [mbind option_bind]. rewrite IH by lia.
  cbn [mbind option_bind mret option_ret]. f_equal.
  rewrite (drop_S l x k Hx). done.
Qed.

Lemma for_loop_S {S} (from : Z) (k : nat) (body : Z → S → option S) (s : S) :
  for_loop from (Datatypes.S k) body s =
    s' ← body from s; for_loop (from + 1) k body s'.
Proof. reflexivity. Qed.

Lemma inner_loop (channels : list (list float)) (i : nat) (n c0 : nat)
    (a rest : list byte) :
  (c0 + n ≤ Datatypes.length channels)%nat →
  (2 * n ≤ Datatypes.length rest)%nat →
  for_loop (Z.of_nat c0) n
    (λ (chan : Z) '(view, offset),
       sample ← sample_at channels chan (Z.of_nat i);
       view ← setInt16 view offset (scale sample);
       Some (view, offset + 2))
    (a ++ rest, len a)
  = Some (a ++ pcm (take n (drop c0 (frame channels i))) ++ drop (2 * n) rest,
          len a + 2 * Z.of_nat n).
Proof.
  revert c0 a rest. induction n as [|n IH]; intros c0 a rest Hc Hrest.
  - simpl. rewrite Z.add_0_r. done.
  - rewrite for_loop_S. cbv beta iota.
    unfold sample_at at 2. rewrite index_of_nat.
    destruct (lookup_lt_is_Some_2 channels c0) as [c Hcx]; [lia |].
    rewrite Hcx. cbn [mbind option_bind]. rewrite index_of_nat.
    rewrite setInt16_at by lia. cbn [mbind option_bind].
    replace (Z.of_nat c0 + 1) with (Z.of_nat (S c0)) by lia.
    replace (a ++ le16 (ToInt16 (scale (default NaN (c !! i)))) ++ drop 2 rest)
      with ((a ++ le16 (ToInt16 (scale (default NaN (c !! i))))) ++ drop 2 rest)
      by (by rewrite <- app_assoc).
    replace (len a + 2)
      with (len (a ++ le16 (ToInt16 (scale (default NaN (c !! i))))))
      by (rewrite len_app; unfold len; simpl; lia).
    rewrite IH by (rewrite ?length_drop; lia).
    f_equal. f_equal.
    + rewrite <- !app_assoc. f_equal.
      assert (Hf : frame channels i !! c0 = Some (default NaN (c !! i)))
        by (unfold frame; by rewrite list_lookup_fmap, Hcx).
      rewrite (drop_S _ _ c0 Hf). cbn [take]. unfold pcm.
      cbn [mbind list_bind]. rewrite <- app_assoc. f_equal. f_equal.
      rewrite drop_drop. f_equal. lia.
    + rewrite len_app. unfold len. simpl. lia.
Qed.

Lemma pcm_app (xs ys : list float) : pcm (xs ++ ys) = pcm xs ++ pcm ys.
Proof. unfold pcm. apply bind_app. Qed.

Lemma length_pcm (xs : list float) :
  Datatypes.length (pcm xs) = (2 * Datatypes.length xs)%nat.
Proof.
  induction xs as [|x xs IH]; [done |].
  change (x :: xs) with ([x] ++ xs). rewrite pcm_app, length_app, IH.
  simpl. lia.
Qed.

Lemma outer_loop (channels : list (list float)) (m i0 : nat)
    (a rest : list byte) :
  (2 * (m * Datatypes.length channels) ≤ Datatypes.length rest)%nat →
  for_loop (Z.of_nat i0) m
    (λ (i : Z) (st : list byte * Z),
       for_loop 0 (Z.to_nat (len channels))
         (λ (chan : Z) '(view, offset),
            sample ← sample_at channels chan i;
            view ← setInt16 view offset (scale sample);
            Some (view, offset + 2))
         st)
    (a ++ rest, len a)
  = Some (a ++ pcm (i ← seq i0 m; frame channels i)
            ++ drop (2 * (m * Datatypes.length channels)) rest,
          len a + 2 * Z.of_nat (m * Datatypes.length channels)).
Proof.
  assert (Hn : Z.to_nat (len channels) = Datatypes.length channels)
    by (unfold len; lia).
  rewrite Hn.
  revert i0 a rest. induction m as [|m IH]; intros i0 a rest Hrest.
  - simpl. rewrite Z.add_0_r. done.
  - rewrite for_loop_S. cbv beta.
    pose proof (inner_loop channels i0 (Datatypes.length channels) 0 a rest)
      as Hin.
    change (Z.of_nat 0) with 0 in Hin. rewrite Hin by (simpl in *; lia).
    cbn [mbind option_bind]. rewrite drop_0.
    assert (Hframe : Datatypes.length (frame channels i0)
                     = Datatypes.length channels)
      by (unfold frame; apply length_fmap).
    rewrite firstn_all2 by lia.
    set (row := pcm (frame channels i0)).
    assert (Hrow : Datatypes.length row = (2 * Datatypes.length channels)%nat)
      by (unfold row; rewrite length_pcm; lia).
    replace (a ++ row ++ drop (2 * Datatypes.length channels) rest)
      with ((a ++ row) ++ drop (2 * Datatypes.length channels) rest)
      by (by rewrite <- app_assoc).
    replace (len a + 2 * Z.of_nat (Datatypes.length channels))
      with (len (a ++ row)) by (rewrite len_app; unfold len; lia).
    replace (Z.of_nat i0 + 1) with (Z.of_nat (S i0)) by lia.
    rewrite IH by (rewrite length_drop; simpl in *; lia).
    f_equal. f_equal.
    + rewrite <- !app_assoc. f_equal. cbn [seq mbind list_bind].
      rewrite pcm_app. fold row. rewrite <- app_assoc. f_equal. f_equal.
      rewrite drop_drop. f_equal. simpl. lia.
    + rewrite len_app. unfold len. simpl. lia.
Qed.


(** *** The file *)

Ltac header_step :=
  first [ rewrite setUint8_pre
            by (unfold len; rewrite ?length_insert; simpl; lia)
        | rewrite setUint16_pre
            by (unfold len; rewrite ?length_insert; simpl; lia)
        | rewrite setUint32_pre
            by (unfold len; rewrite ?length_insert; simpl; lia) ];
  cbn [mbind option_bind writeString].

Lemma wav_bytes (buffer : AudioBuffer) :
  well_formed buffer →
  audioBufferToWavBlob buffer =
    Some {| blob_bytes :=
              riff_header (numberOfChannels buffer) (sampleRate buffer)
                (length buffer * numberOfChannels buffer * 2)
              ++ pcm (interleave buffer);
            blob_type := "audio/wav" |}.
Proof.
  intros (Hnc & Hlen & Hall). unfold audioBufferToWavBlob. cbn zeta.
  rewrite <- Hnc. pose proof (len_nonneg (channelData buffer)) as Hch.
  change (16 `div` 8) with 2.
  rewrite ArrayBuffer_44 by nia.
  cbn [mbind option_bind writeString].
  do 25 header_step.
  set (d := length buffer * len (channelData buffer) * 2).
  match goal with
  | |- context [?h ++ replicate (Z.to_nat d) x00%byte] =>
      change h with (riff_header (len (channelData buffer)) (sampleRate buffer) d)
  end.
  change (getChannelData buffer) with (index (channelData buffer)).
  assert (Hn : Z.to_nat (len (channelData buffer))
               = Datatypes.length (channelData buffer)) by (unfold len; lia).
  rewrite Hn at 1. rewrite mapM_index by lia.
  rewrite drop_0, firstn_all. cbn [mbind option_bind].
  set (header := riff_header (len (channelData buffer)) (sampleRate buffer) d).
  assert (Hheader : len header = 44) by reflexivity.
  change (0 + 4 + 4 + 4 + 4 + 4 + 2 + 2 + 4 + 4 + 2 + 2 + 4 + 4) with 44.
  rewrite <- Hheader.
  pose proof (outer_loop (channelData buffer) (Z.to_nat (length buffer)) 0
                header (replicate (Z.to_nat d) x00%byte)) as Hloop.
  change (Z.of_nat 0) with 0 in Hloop.
  rewrite Hloop by (rewrite length_replicate; unfold d, len; nia).
  cbn [mbind option_bind fst]. f_equal. f_equal. f_equal.
  rewrite drop_ge by (rewrite length_replicate; unfold d, len; nia).
  by rewrite app_nil_r.
Qed.


(** A well-formed buffer is written without an exception: the file is the
    canonical header of 44 bytes for its channels, its rate and its data
    size, followed by the samples frame by frame as 16-bit PCM, and
    nothing else. *)
Theorem audioBufferToWavBlob_spec (buffer : AudioBuffer) :
  well_formed buffer →
  ∃ blob,
    audioBufferToWavBlob buffer = Some blob ∧
    blob_type blob = "audio/wav" ∧
    blob_bytes blob =
      riff_header (numberOfChannels buffer) (sampleRate buffer)
        (length buffer * numberOfChannels buffer * 2)
      ++ pcm (interleave buffer) ∧
    len (blob_bytes blob) = 44 + length buffer * numberOfChannels buffer * 2.
Proof.
  intros Hwf. pose proof Hwf as (Hnc & Hlen & Hall).
  eexists. split; [by apply wav_bytes |]. split; [done |]. split; [done |].
  cbn [blob_bytes]. rewrite len_app.
  change (len (riff_header _ _ _)) with 44. f_equal.
  unfold len. rewrite length_pcm. unfold interleave.
  assert (Hrows : ∀ k n, Datatypes.length
                          (i ← seq k n; frame (channelData buffer) i)
                        = (n * Datatypes.length (channelData buffer))%nat).
  { intros k n. revert k. induction n as [|n IH]; intros k; [done |].
    cbn [seq mbind list_bind]. rewrite length_app, (IH (S k)).
    unfold frame. rewrite length_fmap. simpl. lia. }
  rewrite Hrows. unfold len in Hnc. nia.
Qed.

(** *** Samples *)

Lemma ToInt16_inside (x : float) :
  -32768 ≤ truncate x ≤ 32767 → ToInt16 x = truncate x.
Proof.
  intros H. unfold ToInt16. rewrite Z.mod_small by lia. lia.
Qed.

Lemma Qle_bool_spec (p q : QArith_base.Q) :
  QArith_base.Qle_bool p q =
    (QArith_base.Qnum p * Z.pos (QArith_base.Qden q)
       <=? QArith_base.Qnum q * Z.pos (QArith_base.Qden p)).
Proof. reflexivity. Qed.

(** What the writer stores for a sample: [0] for [NaN], the ends of the
    range for a sample outside of [-1, 1], and inside it the whole part of
    the sample times [0x7fff], or times [0x8000] when it is negative. *)
Theorem scale_spec (x : float) :
  -32768 ≤ ToInt16 (scale x) ≤ 32767 ∧
  (x = NaN → ToInt16 (scale x) = 0) ∧
  (x ≠ NaN → lt x (of_Z 1) = false → ToInt16 (scale x) = 32767) ∧
  (x ≠ NaN → lt (of_Z (-1)) x = false → ToInt16 (scale x) = -32768) ∧
  (lt x (of_Z 1) = true → lt (of_Z (-1)) x = true →
   ToInt16 (scale x) =
     truncate (times x (if lt x (of_Z 0) then 32768 else 32767))).
Proof.
  split.
  { unfold ToInt16.
    pose proof (Z.mod_pos_bound (truncate (scale x) + 32768) 65536). lia. }
  split; [by intros -> |].
  destruct x as [| [|] | [n d]]; try done.
  unfold scale, Math_min, Math_max, of_Z, lt, QArith_base.inject_Z.
  rewrite !Qle_bool_spec. cbn [QArith_base.Qnum QArith_base.Qden].
  split; [| split].
  - intros _ H1. apply negb_false_iff in H1. rewrite H1. cbn [negb].
    reflexivity.
  - intros _ H1. apply negb_false_iff in H1.
    apply Z.leb_le in H1.
    destruct (Z.leb_spec (1 * Z.pos d) (n * 1)); [lia |]. cbn [negb].
    rewrite !Qle_bool_spec. cbn [QArith_base.Qnum QArith_base.Qden].
    destruct (Z.leb_spec (n * 1) (-1 * Z.pos d)); [| lia]. cbn [negb].
    reflexivity.
  - intros H1 H2. rewrite H1.
    rewrite !Qle_bool_spec. cbn [QArith_base.Qnum QArith_base.Qden].
    rewrite H2.
    apply negb_true_iff, Z.leb_gt in H1.
    apply negb_true_iff, Z.leb_gt in H2.
    rewrite !Qle_bool_spec. cbn [QArith_base.Qnum QArith_base.Qden].
    destruct (Z.leb_spec (0 * Z.pos d) (n * 1)); cbn [negb];
      apply ToInt16_inside;
      unfold times, truncate, QArith_base.Qmult, QArith_base.inject_Z;
      cbn [QArith_base.Qnum QArith_base.Qden];
      rewrite Pos.mul_1_r;
      Z.to_euclidean_division_equations; nia.
Qed.

(** *** From PCM to a buffer and back to PCM *)

Lemma pairs_ind {A} (P : list A → Prop) :
  P [] → (∀ a, P [a]) → (∀ a b rest, P rest → P (a :: b :: rest)) →
  ∀ l, P l.
Proof.
  intros Hnil Hone Hstep l.
  assert (H : P l ∧ ∀ a, P (a :: l)); [| by destruct H].
  induction l as [|b l [IH1 IH2]]; [by split |].
  split; [apply IH2 |]. intros a. by apply Hstep.
Qed.

Lemma Int16Array_spec (data : list byte) :
  match Int16Array data with
  | Some samples =>
      Datatypes.length data = (2 * Datatypes.length samples)%nat ∧
      Forall (λ v, -32768 ≤ v ≤ 32767) samples
  | None => Nat.odd (Datatypes.length data) = true
  end.
Proof.
  induction data as [| a | lo hi rest IH] using pairs_ind; [done | done |].
  cbn [Int16Array]. destruct (Int16Array rest) as [tail|].
  - cbn [mbind option_bind]. destruct IH as [Hlen Hall].
    split; [simpl; lia |]. constructor; [| done].
    unfold le_value.
    pose proof (N2Z.is_nonneg (Byte.to_N lo)).
    pose proof (N2Z.is_nonneg (Byte.to_N hi)).
    pose proof (DataUrlFacts.to_N_lt lo). pose proof (DataUrlFacts.to_N_lt hi).
    destruct (Z.ltb_spec
                (Z.of_N (Byte.to_N lo) + 256 * (Z.of_N (Byte.to_N hi) + 256 * 0))
                32768); lia.
  - cbn [mbind option_bind]. exact IH.
Qed.

Lemma scale_decoded (v : Z) :
  -32768 ≤ v ≤ 32767 →
  ToInt16 (scale (Finite (QArith_base.Qmake v 32768))) = requantize v.
Proof.
  intros Hv. unfold requantize.
  unfold scale, Math_min, Math_max, of_Z, lt, QArith_base.inject_Z.
  rewrite !Qle_bool_spec. cbn [QArith_base.Qnum QArith_base.Qden].
  destruct (Z.leb_spec (1 * 32768) (v * 1)); [lia |]. cbn [negb].
  rewrite !Qle_bool_spec. cbn [QArith_base.Qnum QArith_base.Qden].
  destruct (Z.leb_spec (v * 1) (-1 * 32768)); cbn [negb].
  - assert (v = -32768) as -> by lia. reflexivity.
  - rewrite !Qle_bool_spec. cbn [QArith_base.Qnum QArith_base.Qden].
    destruct (Z.leb_spec (0 * 32768) (v * 1)); cbn [negb];
      (rewrite ToInt16_inside;
       unfold times, truncate, QArith_base.Qmult, QArith_base.inject_Z;
       cbn [QArith_base.Qnum QArith_base.Qden];
       change (Z.pos (32768 * 1)) with 32768;
       [ destruct (Z.ltb_spec 0 v) | ];
       Z.to_euclidean_division_equations; lia).
Qed.

Lemma fmap_seq_lookup {A B} (g : option A → B) (l : list A) :
  (λ i, g (l !! i)) <$> seq 0 (Datatypes.length l) = (λ x, g (Some x)) <$> l.
Proof.
  apply list_eq. intros i. rewrite !list_lookup_fmap.
  destruct (l !! i) as [x|] eqn:Hx.
  - rewrite lookup_seq_lt by (by eapply lookup_lt_Some). simpl. by rewrite Hx.
  - rewrite lookup_seq_ge by (by apply lookup_ge_None). done.
Qed.

Lemma bind_singleton_fmap {A B} (g : A → B) (l : list A) :
  (x ← l; [g x]) = g <$> l.
Proof.
  induction l as [|x l IH]; [done |]. cbn [mbind list_bind fmap list_fmap].
  cbn [mbind list_bind] in IH. by rewrite IH.
Qed.

Section context.

Variable supported : Z → Z → Z → bool.

Local Abbreviation decodeAudioData := (decodeAudioData supported).
Local Abbreviation speech_wav := (speech_wav supported).

(** Decoding PCM of one channel gives one channel with a sample for each
    pair of bytes, the 16-bit value over [32768]. *)
Lemma decodeAudioData_mono (data : list byte) (samples : list Z)
    (sampleRate : Z) :
  Int16Array data = Some samples → samples ≠ [] → 0 < sampleRate →
  supported 1 (len samples) sampleRate = true →
  decodeAudioData data sampleRate 1 =
    Resolved
      {| numberOfChannels := 1; sampleRate := sampleRate;
         length := len samples;
         channelData :=
           [(λ v, Finite (QArith_base.Qmake v 32768)) <$> samples] |}.
Proof.
  intros Hdata Hne Hrate Hok. unfold Wav.decodeAudioData, createBuffer.
  rewrite Hdata. cbn zeta. rewrite Z.div_1_r.
  assert (Hpos : 0 < len samples).
  { unfold len. destruct samples; [done | simpl; lia]. }
  destruct (Z.ltb_spec 0 (len samples)); [| lia].
  destruct (Z.ltb_spec 0 sampleRate); [| lia].
  rewrite Hok. cbn [andb Z.ltb Z.compare mbind promise_bind mret promise_ret
                    numberOfChannels Wav.sampleRate length].
  f_equal. f_equal. change (seq 0 (Z.to_nat 1)) with [0%nat].
  assert (Hone : ∀ f : nat → list float, f <$> [0%nat] = [f 0%nat]) by done.
  rewrite Hone. f_equal. unfold len. rewrite Nat2Z.id.
  rewrite <- (fmap_seq_lookup
                (λ o, match o with
                      | Some v => Finite (QArith_base.Qmake v 32768)
                      | None => NaN
                      end) samples).
  apply list_fmap_ext. intros i k _.
  by replace (k * Z.to_nat 1 + 0)%nat with k
    by (change (Z.to_nat 1) with 1%nat; lia).
Qed.

(** The pipeline of [handleGenerateSpeech] on PCM of an odd number of
    bytes, or of none, fails.  On [n > 0] samples it gives a WAV file
    of one channel at 24 kHz with [n] samples: each negative sample and
    each zero as it was, each positive sample one lower, since the reader
    divides by [32768] and the writer multiplies a positive sample by
    [32767]. *)
Theorem speech_wav_spec (data : list byte) :
  (Nat.odd (Datatypes.length data) = true →
   speech_wav data = Rejected "RangeError") ∧
  (data = [] → speech_wav data = Rejected "NotSupportedError") ∧
  (∀ samples,
     Int16Array data = Some samples → samples ≠ [] →
     supported 1 (len samples) 24000 = true →
     speech_wav data =
       Resolved
         {| blob_bytes :=
              riff_header 1 24000 (len samples * 2)
              ++ (v ← samples; le16 (requantize v));
            blob_type := "audio/wav" |}).
Proof.
  split; [| split].
  - intros Hodd. pose proof (Int16Array_spec data) as Hspec.
    unfold Wav.speech_wav, Wav.decodeAudioData.
    destruct (Int16Array data) as [samples|]; [| done].
    destruct Hspec as [Hlen _]. rewrite Hlen in Hodd.
    rewrite Nat.odd_mul in Hodd. done.
  - by intros ->.
  - intros samples Hdata Hne Hok. unfold Wav.speech_wav.
    rewrite (decodeAudioData_mono data samples 24000 Hdata Hne ltac:(lia) Hok).
    cbn [mbind promise_bind].
    pose proof (Int16Array_spec data) as Hspec. rewrite Hdata in Hspec.
    destruct Hspec as [_ Hrange].
    set (buffer := {| numberOfChannels := 1 |}).
    assert (Hwf : well_formed buffer).
    { unfold well_formed, buffer. cbn. split; [done |].
      split; [apply len_nonneg |]. constructor; [| done].
      unfold len. by rewrite length_fmap. }
    rewrite (wav_bytes buffer Hwf). f_equal. f_equal.
    change (length buffer * numberOfChannels buffer * 2)
      with (len samples * 1 * 2).
    rewrite Z.mul_1_r. f_equal.
    unfold interleave, frame, buffer. cbn [length channelData].
    unfold len. rewrite Nat2Z.id.
    assert (Hrow : ∀ i : nat,
              (λ c : list float, default NaN (c !! i)) <$>
                [(λ v, Finite (QArith_base.Qmake v 32768)) <$> samples]
              = [default NaN
                   (((λ v, Finite (QArith_base.Qmake v 32768)) <$> samples)
                      !! i)]) by done.
    erewrite list_bind_ext; [| intros i; apply Hrow | reflexivity].
    rewrite bind_singleton_fmap.
    rewrite <- (length_fmap (λ v, Finite (QArith_base.Qmake v 32768)) samples).
    rewrite (fmap_seq_lookup (default NaN)). cbn [default].
    rewrite list_fmap_id. clear -Hrange.
    induction Hrange as [|v samples Hv _ IH]; [done |].
    cbn [fmap list_fmap]. unfold pcm in *. cbn [mbind list_bind].
    rewrite scale_decoded by done. f_equal. exact IH.
Qed.

End context.
End WavFacts.

(** ** The history store and the scheduler on samples *)

Module HistoryMoreExamples.
Import JsArray UseHistory HistoryMore Samples.

Local Abbreviation commit := (commit Json.quote).

Lemma valid_samples : valid full ∧ valid rewound.
Proof. unfold valid, full, rewound, len. simpl. lia. Qed.

(** On the store [A, B, C]: at the end, redo takes back an undo; at the
    start, undo takes back a redo. *)
Lemma undo_redo_inverse_witness :
  valid full ∧ valid rewound ∧
  redo (undo full) = full ∧ undo (redo rewound) = rewound ∧
  undo rewound = rewound ∧ redo full = full.
Proof.
  destruct valid_samples as [Hfull Hrewound].
  destruct (undo_redo_inverse full Hfull) as (Hundo & _ & _ & Hredo_off).
  destruct (undo_redo_inverse rewound Hrewound) as (_ & Hredo & Hundo_off & _).
  split; [exact Hfull |]. split; [exact Hrewound |].
  split; [exact (Hundo eq_refl) |]. split; [exact (Hredo eq_refl) |].
  split; [apply Hundo_off; reflexivity | apply Hredo_off; reflexivity].
Defined.

(** A commit on the full store of limit 3. *)
Lemma commit_makes_current_witness :
  limit_ok (Fin 3) ∧ valid full ∧
  ∃ s', commit (Fin 3) "D" full = Some s' ∧
        state s' = Some "D" ∧ canRedo s' = false.
Proof.
  assert (HL : limit_ok (Fin 3)) by (simpl; lia).
  destruct valid_samples as [Hfull _].
  destruct (commit_makes_current Json.quote (Fin 3) full "D" HL Hfull)
    as (s' & Hs' & _ & Hnew).
  destruct (Hnew eq_refl) as (Hst & _ & Hredo).
  split; [exact HL |]. split; [exact Hfull |].
  exists s'. split; [exact Hs' |]. split; [exact Hst | exact Hredo].
Defined.

(** The commit evicts A, and one undo still gives C. *)
Lemma undo_after_commit_witness :
  valid full ∧ state full = Some "C" ∧ Json.quote "D" ≠ Json.quote "C" ∧
  ∃ s', commit (Fin 3) "D" full = Some s' ∧ state (undo s') = Some "C".
Proof.
  assert (HL : 2 ≤ 3) by lia.
  assert (Hne : Json.quote "D" ≠ Json.quote "C") by (vm_compute; discriminate).
  destruct valid_samples as [Hfull _].
  destruct (undo_after_commit Json.quote (Fin 3) full "D" "C" HL Hfull eq_refl Hne)
    as (s' & Hs' & Hst & _).
  split; [exact Hfull |]. split; [reflexivity |]. split; [exact Hne |].
  exists s'. split; [exact Hs' | exact Hst].
Defined.

Lemma length_within_limit_witness :
  limit_ok (Fin 3) ∧ fits (Fin 3) (len (history full)) ∧
  (∃ s', commit (Fin 3) "D" full = Some s' ∧ fits (Fin 3) (len (history s'))) ∧
  (∃ s', run Json.quote (Fin 3) OpUndo full = Some s' ∧
         fits (Fin 3) (len (history s'))).
Proof.
  assert (HL : limit_ok (Fin 3)) by (simpl; lia).
  assert (Hfit : fits (Fin 3) (len (history full)))
    by (unfold len; simpl; lia).
  destruct (length_within_limit Json.quote (Fin 3) full OpUndo HL)
    as [Hcommit Hrun].
  split; [exact HL |]. split; [exact Hfit |].
  split; [exact (Hcommit "D" eq_refl) | exact (Hrun Hfit I)].
Defined.

Lemma limit_below_one_witness :
  same_json Json.quote "B" (state (init "A")) = false ∧
  commit (Fin 0) "B" (init "A") = Some {| history := []; currentIndex := -1 |} ∧
  commit (Fin (-1)) "B" (init "A") = None.
Proof.
  destruct (limit_below_one Json.quote (init "A") "B" eq_refl)
    as (Hzero & Hneg & _).
  split; [reflexivity |]. split; [exact Hzero |]. apply Hneg. lia.
Defined.

End HistoryMoreExamples.

Module AutoSaveMoreExamples.
Import UseAutoSave AutoSaveTraces AutoSaveMore Samples.

(** A period of 3 ms, a hook mounted at 100 ms, 7 ms of events: the
    interval timer saves at 103 and 106. *)
Lemma interval_spec_witness :
  mounted (D := string)
    [Tick; Tick; Change "v1"; Tick; Settle 0; Tick; Tick; Tick; Tick] = true ∧
  interval_log
    (steps write 3 (mount 3 "v0" 100 None)
       [Tick; Tick; Change "v1"; Tick; Settle 0; Tick; Tick; Tick; Tick])
  = [103; 106].
Proof.
  split; [reflexivity |].
  exact (interval_spec write 3 "v0" 100 None
           [Tick; Tick; Change "v1"; Tick; Settle 0; Tick; Tick; Tick; Tick]
           eq_refl).
Defined.

Lemma status_idle_spec_witness :
  mounted (D := string) [Tick; Change "v1"; Tick] = true ∧
  (status (steps write every (mount every "v0" 0 None) [Tick; Change "v1"; Tick])
     = idle ↔
   started (steps write every (mount every "v0" 0 None) [Tick; Change "v1"; Tick])
     = []).
Proof.
  split; [reflexivity |].
  exact (proj1 (status_idle_spec write every "v0" 0 None
                  [Tick; Change "v1"; Tick] eq_refl)).
Defined.

(** A component that unmounts 1 ms after a change: the debounce timer
    never fires. *)
Lemma unmount_spec_witness :
  unchanged (D := string) (replicate 3000 Tick) = true ∧
  started
    (steps write every
       (unmount (steps write every (mount every "v0" 0 None) [Change "v1"; Tick]))
       (replicate 3000 Tick))
  = started (steps write every (mount every "v0" 0 None) [Change "v1"; Tick]).
Proof.
  assert (Hes : unchanged (D := string) (replicate 3000 Tick) = true)
    by (vm_compute; reflexivity).
  split; [exact Hes |].
  exact (proj1 (unmount_spec write every "v0" 0 None [Change "v1"; Tick]
                  (replicate 3000 Tick) Hes)).
Defined.

End AutoSaveMoreExamples.

Module PhotoEditorMoreExamples.
Import JsArray PhotoEditor PhotoEditorUi PhotoEditorMore Samples MoreSamples.

(** A store that is full: the save of [editing] fails and changes
    nothing. *)
Lemma handleSaveProject_failure_witness :
  falsy (imageSrc (photoState editing)) = false ∧
  localStorage (handleSaveProject DataUrl.readAsDataURL DataUrl.full_store editing)
    = localStorage editing ∧
  alerts (handleSaveProject DataUrl.readAsDataURL DataUrl.full_store editing)
    = ["Could not save the project. The image might be too large."].
Proof.
  destruct (handleSaveProject_failure DataUrl.readAsDataURL DataUrl.full_store
              editing eq_refl (or_intror (or_intror (λ t, eq_refl))))
    as (_ & Hls & Halerts & _).
  split; [reflexivity |]. split; [exact Hls | exact Halerts].
Defined.

(** A stored project without a snapshot. *)
Lemma handleLoadProject_rejected_index_witness :
  localStorage hollow !! PHOTO_PROJECT_KEY
    = Some (RecordText {| p_history := []; p_currentIndex := 0 |}) ∧
  ¬ (0 ≤ 0 < len (@nil PhotoEditorState)) ∧
  store (handleLoadProject DataUrl.fetch_blob hollow) = store hollow ∧
  alerts (handleLoadProject DataUrl.fetch_blob hollow)
    = ["Project loaded successfully!"].
Proof.
  assert (Hout : ¬ (0 ≤ 0 < len (@nil PhotoEditorState)))
    by (unfold len; simpl; lia).
  destruct (handleLoadProject_rejected_index DataUrl.fetch_blob hollow
              {| p_history := []; p_currentIndex := 0 |} [] eq_refl eq_refl Hout)
    as (Hstore & _ & Halerts & _).
  split; [reflexivity |]. split; [exact Hout |].
  split; [exact Hstore | exact Halerts].
Defined.

Lemma codec_editing :
  Forall (codec_round_trips DataUrl.readAsDataURL DataUrl.fetch_blob)
         (UseHistory.history (store editing)).
Proof. repeat constructor; eexists _, _; repeat split. Qed.

Lemma clean_editing :
  Forall no_leftover (UseHistory.history (store editing)).
Proof. repeat constructor; discriminate. Qed.

Lemma valid_editing : UseHistory.valid (store editing).
Proof. unfold UseHistory.valid, len. simpl. lia. Qed.

(** The automatic save of [editing], restored on a fresh page. *)
Lemma autosave_restore_round_trip_witness :
  UseHistory.valid (store editing) ∧
  ∃ ls,
    handleAutoSave DataUrl.readAsDataURL DataUrl.unlimited
      {| d_history := UseHistory.history (store editing);
         d_currentIndex := UseHistory.currentIndex (store editing) |}
      (localStorage editing) = Resolved ls ∧
    UseHistory.currentIndex
      (store (restoreAutoSave DataUrl.fetch_blob true (fresh ls))) = 1 ∧
    Forall2 (same_content DataUrl.readAsDataURL DataUrl.fetch_blob)
      [opened; sepia]
      (UseHistory.history
         (store (restoreAutoSave DataUrl.fetch_blob true (fresh ls)))).
Proof.
  split; [exact valid_editing |].
  destruct (autosave_restore_round_trip DataUrl.readAsDataURL DataUrl.fetch_blob
              DataUrl.unlimited editing opened [sepia] eq_refl eq_refl
              valid_editing codec_editing clean_editing (λ r, eq_refl))
    as (ls & Hsave & Hrestore).
  exists ls. split; [exact Hsave |].
  destruct (Hrestore (fresh ls) eq_refl) as (_ & Hidx & Hsame & _).
  split; [exact Hidx | exact Hsame].
Defined.

Lemma applyFilter_idempotent_witness :
  UseHistory.valid (store (editor studio)) ∧
  ∃ c', applyFilter "invert(1)" studio = Some c' ∧
        applyFilter "invert(1)" c' = Some c'.
Proof.
  split; [exact valid_editing |].
  destruct (applyFilter_idempotent "invert(1)" studio valid_editing)
    as (c' & Hfirst & Hsecond & _).
  exists c'. split; [exact Hfirst | exact Hsecond].
Defined.

Lemma uniform_editing : uniform (UseHistory.history (store (editor studio))).
Proof. left. by repeat constructor. Qed.

Lemma editor_keeps_guard_witness :
  uniform (UseHistory.history (store (editor studio))) ∧
  UseHistory.valid (store (editor studio)) ∧
  uniform (UseHistory.history
             (store (editor (handleFileChange VideoSamples.object_url
                               (Some png) studio)))) ∧
  (getSerializableState DataUrl.readAsDataURL
     (UseHistory.history (store (editor studio)))
     (UseHistory.currentIndex (store (editor studio))) = Resolved None
   ↔ falsy (imageSrc (photoState (editor studio))) = true).
Proof.
  destruct (editor_keeps_guard DataUrl.readAsDataURL VideoSamples.object_url
              studio (Some png) "invert(1)" true uniform_editing valid_editing)
    as (Hfile & _ & _ & _ & _ & Hguard).
  split; [exact uniform_editing |]. split; [exact valid_editing |].
  split; [exact Hfile | exact Hguard].
Defined.

End PhotoEditorMoreExamples.

Module PhotoEditorSessionExamples.
Import JsArray PhotoEditor PhotoEditorUi PhotoEditorSession Samples MoreSamples.

Lemma reachable_revisit :
  reachable DataUrl.readAsDataURL DataUrl.fetch_blob DataUrl.unlimited cat_url
    revisit.
Proof.
  apply next_visit.
  apply (after_handleAutoSave _ _ _ _ visit); [| reflexivity].
  apply after_handleFileChange, first_visit; apply lookup_empty.
Qed.

(** The page opened again after a visit that left an automatic save: the
    empty project is on the screen, nothing is persisted, and the record
    of the visit stays in the durable store. *)
Lemma empty_project_not_persisted_witness :
  reachable DataUrl.readAsDataURL DataUrl.fetch_blob DataUrl.unlimited cat_url
    revisit ∧
  originalFile (photoState (editor revisit)) = None ∧
  falsy (imageSrc (photoState (editor revisit))) = true ∧
  getSerializableState DataUrl.readAsDataURL
    (UseHistory.history (store (editor revisit)))
    (UseHistory.currentIndex (store (editor revisit))) = Resolved None ∧
  handleAutoSave DataUrl.readAsDataURL DataUrl.unlimited (saveData revisit)
    (localStorage (editor revisit)) = Resolved (localStorage (editor revisit)) ∧
  localStorage (editor revisit) !! AUTO_SAVE_KEY = Some (RecordText earlier).
Proof.
  destruct (empty_project_not_persisted DataUrl.readAsDataURL
              DataUrl.fetch_blob DataUrl.unlimited cat_url revisit
              reachable_revisit eq_refl) as (Hempty & Hnothing & Hsave).
  split; [exact reachable_revisit |]. split; [reflexivity |].
  split; [exact Hempty |]. split; [exact Hnothing |].
  split; [apply Hsave | reflexivity].
Defined.

End PhotoEditorSessionExamples.

Module VideoEditorExamples.
Import JsArray VideoEditor VideoEditorFacts VideoSamples.

Example lower_trim : lower (trim_both " Warm  ") = "warm".
Proof. reflexivity. Qed.

Lemma valid_cutting : UseHistory.valid (store cutting).
Proof. unfold UseHistory.valid, len. simpl. lia. Qed.

Lemma valid_reopened : UseHistory.valid (store reopened).
Proof. unfold UseHistory.valid, len. simpl. lia. Qed.

(** The automatic save of [cutting] stores two snapshots without a video. *)
Lemma video_handleAutoSave_spec_witness :
  handleAutoSave roomy false
    {| d_history := UseHistory.history (store cutting); d_currentIndex := 1 |} ∅
  = Resolved
      {[ AUTO_SAVE_KEY :=
           ProjectText
             {| sd_history :=
                  Some [{| videoSrc := None; activeFilter := EmptyString |};
                        {| videoSrc := None; activeFilter := "sepia(1)" |}];
                sd_currentIndex := Some 1 |} ]} ∧
  ({[ AUTO_SAVE_KEY :=
        ProjectText
          {| sd_history :=
               Some [{| videoSrc := None; activeFilter := EmptyString |};
                     {| videoSrc := None; activeFilter := "sepia(1)" |}];
             sd_currentIndex := Some 1 |} ]} = (∅ : gmap string text) ∨
   0 ≤ 1 < len (UseHistory.history (store cutting))).
Proof.
  assert (Hsave : handleAutoSave roomy false
    {| d_history := UseHistory.history (store cutting); d_currentIndex := 1 |} ∅
    = Resolved
      {[ AUTO_SAVE_KEY :=
           ProjectText
             {| sd_history :=
                  Some [{| videoSrc := None; activeFilter := EmptyString |};
                        {| videoSrc := None; activeFilter := "sepia(1)" |}];
                sd_currentIndex := Some 1 |} ]}).
  { unfold handleAutoSave, setItem. simpl. by rewrite insert_empty. }
  split; [exact Hsave |].
  destruct (video_handleAutoSave_spec roomy false _ _ _ Hsave)
    as [Hsame | [Hidx _]]; [by left | by right].
Defined.

Lemma video_save_load_witness :
  UseHistory.valid (store cutting) ∧
  falsy (videoSrc (videoState cutting)) = false ∧
  ∃ e1, handleSaveProject roomy cutting = Some e1 ∧
        videoState (handleLoadProject e1)
          = {| videoSrc := None; activeFilter := "sepia(1)" |} ∧
        isProjectLoaded (handleLoadProject e1) = true.
Proof.
  split; [exact valid_cutting |]. split; [reflexivity |].
  destruct (video_save_load roomy cutting valid_cutting eq_refl (λ t, eq_refl))
    as (e1 & Hsave & _ & _ & Hstate & Hloaded & _).
  exists e1. split; [exact Hsave |]. split; [exact Hstate | exact Hloaded].
Defined.

Lemma video_attach_after_load_witness :
  UseHistory.valid (store reopened) ∧
  String.prefix "video/" (file_type clip) = true ∧
  ∃ e', handleFileChange object_url (Some clip) reopened = Some e' ∧
        UseHistory.state (store e')
          = Some {| videoSrc := Some "blob:clip.mp4";
                    activeFilter := "sepia(1)" |} ∧
        UseHistory.state (UseHistory.undo (store e'))
          = Some {| videoSrc := None; activeFilter := "sepia(1)" |}.
Proof.
  split; [exact valid_reopened |]. split; [reflexivity |].
  destruct (video_attach_after_load object_url reopened clip
              {| videoSrc := None; activeFilter := "sepia(1)" |}
              valid_reopened eq_refl eq_refl eq_refl eq_refl)
    as (e' & Hfile & Hstate & _ & _ & _ & Hundo & _).
  exists e'. split; [exact Hfile |]. split; [exact Hstate | exact Hundo].
Defined.

(** The stored project of [reopened] has no snapshot: the load installs
    nothing and still asks for the file. *)
Lemma video_handleLoadProject_nothing_witness :
  localStorage reopened !! VIDEO_PROJECT_KEY
    = Some (ProjectText {| sd_history := Some []; sd_currentIndex := Some 0 |}) ∧
  store (handleLoadProject reopened) = store reopened ∧
  isProjectLoaded (handleLoadProject reopened) = true.
Proof.
  destruct (video_handleLoadProject_nothing reopened _ eq_refl) as [_ Hout].
  destruct (Hout [] 0 eq_refl) as (Hstore & Hloaded & _).
  { unfold len. simpl. lia. }
  split; [reflexivity |]. split; [exact Hstore | exact Hloaded].
Defined.

Lemma distinct_cutting : distinct_names lower (presets cutting).
Proof. unfold distinct_names. simpl. apply NoDup_singleton. Qed.

(** Saving the preset [" warm "] over the preset [Warm], after the user
    agreed. *)
Lemma video_presets_distinct_witness :
  distinct_names lower (presets cutting) ∧
  distinct_names lower (presets (handleSavePreset lower trim_both true cutting)) ∧
  presets (handleSavePreset lower trim_both true cutting)
    = [{| name := "warm"; filter := "sepia(1)" |}].
Proof.
  destruct (video_presets_distinct lower trim_both cutting true "Warm"
              distinct_cutting) as (Hsaved & _).
  split; [exact distinct_cutting |]. split; [exact Hsaved | reflexivity].
Defined.

Lemma video_presets_round_trip_witness :
  presets cutting ≠ [] ∧
  ∃ e1, storePresets roomy cutting = Resolved e1 ∧
        localStorage e1 !! PRESETS_STORAGE_KEY
          = Some (PresetsText (presets cutting)) ∧
        ∃ e2, loadPresets e1 = Some e2 ∧ presets e2 = presets cutting.
Proof.
  assert (Hne : presets cutting ≠ []) by discriminate.
  destruct (video_presets_round_trip roomy cutting (λ t, eq_refl) (or_introl Hne))
    as (e1 & Hstore & Hget & Hload).
  split; [exact Hne |]. exists e1. split; [exact Hstore |].
  split; [exact Hget |]. exact (Hload e1 eq_refl).
Defined.

End VideoEditorExamples.

Module FileUtilsExamples.
Import PhotoEditor FileUtils FileUtilsFacts Samples.

Example fileToBase64_png :
  fileToBase64 DataUrl.readAsDataURL png = Resolved (Some "iVBORw0=").
Proof.
  apply (proj1 (proj2 (fileToBase64_spec DataUrl.readAsDataURL png))
           "data:image/png;base64"); reflexivity.
Qed.

End FileUtilsExamples.

Module WavExamples.
Import JsArray Wav WavFacts WavSamples.

Lemma well_formed_stereo : well_formed stereo.
Proof.
  split; [reflexivity |]. split; [simpl; lia |].
  repeat constructor.
Qed.

(** The file of [stereo]: 52 bytes, of which the last eight are the four
    samples, the half rounded towards zero, the sample above the range
    clipped, the lowest sample, and zero for [NaN]. *)
Lemma audioBufferToWavBlob_spec_witness :
  well_formed stereo ∧
  ∃ blob,
    audioBufferToWavBlob stereo = Some blob ∧
    len (blob_bytes blob) = 52 ∧
    le_value (take 4 (drop 24 (blob_bytes blob))) = 44100 ∧
    drop 44 (blob_bytes blob)
      = [xff; x3f; xff; x7f; x00; x80; x00; x00]%byte.
Proof.
  split; [exact well_formed_stereo |].
  destruct (audioBufferToWavBlob_spec stereo well_formed_stereo)
    as (blob & Hblob & _ & Hbytes & Hlen).
  exists blob. split; [exact Hblob |]. split; [exact Hlen |].
  rewrite Hbytes. split; reflexivity.
Defined.

(** The speech pipeline on four samples: the two positive ones come out
    one lower. *)
Example speech_wav_speech :
  speech_wav any_buffer speech =
    Resolved
      {| blob_bytes :=
           riff_header 1 24000 8
           ++ [x00; x00; xff; xff; x00; x80; xfe; x7f]%byte;
         blob_type := "audio/wav" |}.
Proof.
  apply (proj2 (proj2 (speech_wav_spec any_buffer speech)) [1; -1; -32768; 32767]);
    [reflexivity | discriminate | reflexivity].
Qed.

Example speech_wav_odd :
  speech_wav any_buffer [x01]%byte = Rejected "RangeError".
Proof. by apply (proj1 (speech_wav_spec any_buffer [x01]%byte)). Qed.

End WavExamples.
